(** * BergerLab/seq: profiles, Plan7 HMMs and pairwise alignment

    A shallow embedding of [hmm.go] and of the profile source file
    (frequency profiles and log-odds profiles), with the properties the
    specification states about them.

    Go values are modelled as the code has them:
    - [int] is a 64-bit two's complement integer: a [Z] with the wrap-around
      written out ([wrap64]);
    - [float64] / [Prob] is an IEEE 754 binary64 number: Rocq's primitive
      [float];
    - [Residue] is a byte: an [ascii];
    - maps ([EProbs], [map[Residue]int]) and the backing arrays of
      [[]HMMNode] are reference types: objects of a store ([Heap]) that
      several values may point to;
    - a [panic] ends the call and keeps the store as it was at that point
      (monad [M]). *)

From Stdlib Require Import ZArith Floats Uint63 Ascii DecimalString DecimalPos Lia.
From stdpp Require Import gmap strings list fin_maps.

Open Scope Z_scope.

(** ** Go's [int] *)

(** The 64-bit two's complement value of an integer. *)
Definition wrap64 (z : Z) : Z := (z + 2 ^ 63) mod 2 ^ 64 - 2 ^ 63.

Definition int_add (a b : Z) : Z := wrap64 (a + b).
Definition int_sub (a b : Z) : Z := wrap64 (a - b).

Definition is_int (z : Z) : Prop := - 2 ^ 63 <= z < 2 ^ 63.

(** [float64(n)] for an [int] [n]: the nearest binary64 number. *)
Definition float64_of_int (z : Z) : float :=
  if z =? - 2 ^ 63 then (- 0x1p63)%float
  else if z <? 0 then (- PrimFloat.of_uint63 (Uint63.of_Z (- z)))%float
  else PrimFloat.of_uint63 (Uint63.of_Z z).

(** ** The Go standard library

    Functions of packages [math], [fmt] and [strconv] that the code calls.
    They are not part of the repository: the development is parametric in
    them. *)

Class GoLib := {
  (** [math.Log] *)
  math_Log : float -> float;
  (** [math.Exp] *)
  math_Exp : float -> float;
  (** [fmt.Sprintf("%v", f)] for a [float64] [f] *)
  fmt_v : float -> string;
  (** [strconv.ParseFloat(s, 64)]; [None] when it returns an error *)
  strconv_ParseFloat : string -> option float;
}.

(** What the documentation of [strconv] promises of the two conversions:
    [%v] prints a [float64] with the smallest number of digits that
    [ParseFloat] reads back as the same number, and such a numeral is never
    the marker ["*"]. *)
Class GoLibLaws `{GoLib} := {
  ParseFloat_fmt_v : forall f : float, strconv_ParseFloat (fmt_v f) = Some f;
  ParseFloat_star : strconv_ParseFloat "*" = None;
}.

(** ** Prob (hmm.go) *)

Abbreviation Residue := ascii.
Abbreviation Alphabet := (list Residue).

Abbreviation Prob := float.

Definition invalidProb : Prob := nan.

Definition MaxFloat64 : float := 0x1.fffffffffffffp+1023%float.

Definition MinProb : Prob := MaxFloat64.

(** The error value of [NewProb]: the text that could not be converted. *)
Inductive error := ErrConvert (fstr : string).

Definition NewProb `{GoLib} (fstr : string) : Prob * option error :=
  if String.eqb fstr "*" then (MinProb, None)
  else match strconv_ParseFloat fstr with
       | None => (invalidProb, Some (ErrConvert fstr))
       | Some f => (f, None)
       end.

Definition Less (p1 p2 : Prob) : bool := PrimFloat.ltb p2 p1.

Definition IsMin (p : Prob) : bool := PrimFloat.eqb p MinProb.

Definition Ratio `{GoLib} (p : Prob) : float :=
  if IsMin p then 0%float else math_Exp (- p)%float.

Definition Distance (p1 p2 : Prob) : float := PrimFloat.abs (p1 - p2)%float.

Definition Prob_String `{GoLib} (p : Prob) : string :=
  if IsMin p then "*" else fmt_v p.

(** ** The store

    A reference is a location of the store, or [nil]. *)

Abbreviation loc := positive.
Abbreviation ref := (option loc).

(** [TProbs]: the seven Plan7 transitions. *)
Record TProbs := mkTProbs { MM : Prob; MI : Prob; MD : Prob; IM : Prob; II : Prob; DM : Prob; DD : Prob }.

(** [HMMNode]. [Node_HMM] is the pointer to the owning HMM; the two emission
    tables are maps, that is references. *)
Record HMMNode := mkHMMNode {
  Node_HMM : ref;
  Node_Residue : Residue;
  NodeNum : Z;
  InsEmit : ref;
  MatEmit : ref;
  Transitions : TProbs;
  NeffM : Prob;
  NeffI : Prob;
  NeffD : Prob;
}.

(** A [[]HMMNode] value: pointer to the backing array, offset of the first
    element in it, length and capacity. *)
Record NodeSlice := mkNodeSlice { s_arr : loc; s_off : nat; s_len : nat; s_cap : nat }.

(** [HMM]. The alphabet is never written to by this code and is kept as a
    value. *)
Record HMM := mkHMM { HMM_Nodes : NodeSlice; HMM_Alphabet : Alphabet; HMM_Null : ref }.

Inductive Obj :=
| ONodes (ns : list HMMNode)            (* backing array of a []HMMNode *)
| OHMM (h : HMM)                        (* an HMM struct *)
| OEProbs (m : gmap Residue Prob)       (* an EProbs map *)
| OFreqs (m : gmap Residue Z).          (* a map[Residue]int *)

Abbreviation Heap := (gmap loc Obj).

(** What a panic carries. The first four are raised by the code with
    [panic(fmt.Sprintf(...))]; the others by the Go runtime. *)
Inductive Panic :=
| PanicLength (fpLen sLen : Z)                 (* Profile has length %d but sequence has length %d *)
| PanicUnrecognized (r : Residue) (a : Alphabet) (* Unrecognized residue %c ... *)
| PanicNullColumns (n : Z)                     (* null model has %d columns; should have 1 *)
| PanicAlphabet (a b : Alphabet)               (* freq profile alphabet ... is not equal to ... *)
| RuntimeMakeSlice                             (* makeslice: len out of range *)
| RuntimeSliceBounds                           (* slice bounds out of range *)
| RuntimeIndex                                 (* index out of range *)
| RuntimeNilMap                                (* assignment to entry in nil map *)
| RuntimeNilDeref.                             (* invalid memory address or nil pointer dereference *)

Inductive Res (A : Type) :=
| Ok (a : A)
| Panicked (p : Panic).
Arguments Ok {A} a.
Arguments Panicked {A} p.

Definition M (A : Type) : Type := Heap -> Res A * Heap.

#[global] Instance M_ret : MRet M := fun A a σ => (Ok a, σ).

#[global] Instance M_bind : MBind M := fun A B f m σ =>
  match m σ with
  | (Ok a, σ') => f a σ'
  | (Panicked p, σ') => (Panicked p, σ')
  end.

Definition panic {A} (p : Panic) : M A := fun σ => (Panicked p, σ).

(** A new object at an unused location. *)
Definition alloc (o : Obj) : M loc := fun σ =>
  let l := fresh (dom σ) in (Ok l, <[l := o]> σ).

(** [for_each l f]: a [for] loop over the elements of [l]. *)
Fixpoint for_each {A} (l : list A) (f : A -> M unit) : M unit :=
  match l with
  | [] => mret tt
  | x :: l' => _ ← f x; for_each l' f
  end.

(** [index l i]: [l[i]] with Go's bounds check. *)
Definition index {A} (l : list A) (i : Z) : M A := fun σ =>
  if (i <? 0) then (Panicked RuntimeIndex, σ)
  else match l !! Z.to_nat i with
       | Some x => (Ok x, σ)
       | None => (Panicked RuntimeIndex, σ)
       end.

(** *** Maps *)

(** The contents of an [EProbs] map; the nil map reads as the empty map. *)
Definition eprobs_at (σ : Heap) (ep : ref) : gmap Residue Prob :=
  match ep with
  | Some l => match σ !! l with Some (OEProbs m) => m | _ => ∅ end
  | None => ∅
  end.

(** The contents of a [map[Residue]int]; the nil map reads as the empty map. *)
Definition freqs_at (σ : Heap) (col : ref) : gmap Residue Z :=
  match col with
  | Some l => match σ !! l with Some (OFreqs m) => m | _ => ∅ end
  | None => ∅
  end.

(** [v, ok := m[r]] *)
Definition freqs_lookup (col : ref) (r : Residue) : M (option Z) := fun σ =>
  (Ok (freqs_at σ col !! r), σ).

(** [m[r]]: the zero value when the key is missing. *)
Definition freqs_get (col : ref) (r : Residue) : M Z := fun σ =>
  (Ok (default 0 (freqs_at σ col !! r)), σ).

(** [m[r] = v] *)
Definition freqs_set (col : ref) (r : Residue) (v : Z) : M unit := fun σ =>
  match col with
  | Some l => match σ !! l with
              | Some (OFreqs m) => (Ok tt, <[l := OFreqs (<[r := v]> m)]> σ)
              | _ => (Panicked RuntimeNilMap, σ)
              end
  | None => (Panicked RuntimeNilMap, σ)
  end.

(** [ep[r] = v] *)
Definition eprobs_set (ep : ref) (r : Residue) (v : Prob) : M unit := fun σ =>
  match ep with
  | Some l => match σ !! l with
              | Some (OEProbs m) => (Ok tt, <[l := OEProbs (<[r := v]> m)]> σ)
              | _ => (Panicked RuntimeNilMap, σ)
              end
  | None => (Panicked RuntimeNilMap, σ)
  end.

(** ** EProbs (hmm.go) *)

(** [NewEProbs]: a new map with every residue of the alphabet at [MinProb]. *)
Definition NewEProbs (alphabet : Alphabet) : M ref :=
  l ← alloc (OEProbs ∅);
  _ ← for_each alphabet (fun residue => eprobs_set (Some l) residue MinProb);
  mret (Some l).

(** [EmitProb]: [ep[r]], the zero value of [Prob] for a missing key. *)
Definition EmitProb (ep : ref) (r : Residue) : M Prob := fun σ =>
  (Ok (default 0%float (eprobs_at σ ep !! r)), σ).

(** ** HMM (hmm.go) *)

(** The zero value of [HMMNode], as [make] fills a new array with. *)
Definition zeroTProbs : TProbs :=
  mkTProbs 0%float 0%float 0%float 0%float 0%float 0%float 0%float.
Definition zeroNode : HMMNode :=
  mkHMMNode None "000"%char 0 None None zeroTProbs 0%float 0%float 0%float.

(** [make([]HMMNode, n)]: a new array of [n] zero nodes. Go's [make] panics
    on a negative length and, with the same words (makeslice: len out of
    range), on a length beyond what the run time can allocate, a limit of
    the platform. The store of the model is unbounded and has the first
    failure only: what is stated below of a call that returns is stated for
    lengths that the run time accepts, the length of an array that exists. *)
Definition make_nodes (n : Z) : M NodeSlice := fun σ =>
  if n <? 0 then (Panicked RuntimeMakeSlice, σ)
  else
    let l := fresh (dom σ) in
    (Ok (mkNodeSlice l 0 (Z.to_nat n) (Z.to_nat n)),
     <[l := ONodes (replicate (Z.to_nat n) zeroNode)]> σ).

(** [s[lo:hi]]: for a slice the upper bound is the capacity. *)
Definition slice_expr (s : NodeSlice) (lo hi : Z) : M NodeSlice :=
  if decide (0 <= lo /\ lo <= hi /\ hi <= Z.of_nat (s_cap s)) then
    mret (mkNodeSlice (s_arr s) (s_off s + Z.to_nat lo) (Z.to_nat (hi - lo))
            (s_cap s - Z.to_nat lo))
  else panic RuntimeSliceBounds.

(** The elements of a slice, read from its backing array. *)
Definition nodes_at (σ : Heap) (s : NodeSlice) : list HMMNode :=
  match σ !! s_arr s with
  | Some (ONodes a) => take (s_len s) (drop (s_off s) a)
  | _ => []
  end.

(** [copy(dst, src)]: the first [min(len(dst), len(src))] elements. *)
Definition copy_nodes (dst src : NodeSlice) : M Z := fun σ =>
  let n := Nat.min (s_len dst) (s_len src) in
  let elems := take n (nodes_at σ src) in
  match σ !! s_arr dst with
  | Some (ONodes a) =>
      (Ok (Z.of_nat n),
       <[s_arr dst := ONodes (take (s_off dst) a ++ elems ++ drop (s_off dst + length elems) a)]> σ)
  | _ => (Ok 0, σ)
  end.

(** [s[i] = f(s[i])]: an assignment to a field of the element at [i]. *)
Definition update_node (s : NodeSlice) (i : Z) (f : HMMNode -> HMMNode) : M unit := fun σ =>
  if decide (0 <= i < Z.of_nat (s_len s)) then
    match σ !! s_arr s with
    | Some (ONodes a) => (Ok tt, <[s_arr s := ONodes (alter f (s_off s + Z.to_nat i)%nat a)]> σ)
    | _ => (Panicked RuntimeNilDeref, σ)
    end
  else (Panicked RuntimeIndex, σ).

(** Assignments to the field [Transitions] of a node and to its fields. *)
Definition set_Transitions (f : TProbs -> TProbs) (n : HMMNode) : HMMNode :=
  mkHMMNode (Node_HMM n) (Node_Residue n) (NodeNum n) (InsEmit n) (MatEmit n)
    (f (Transitions n)) (NeffM n) (NeffI n) (NeffD n).

Definition set_MM (v : Prob) (t : TProbs) := mkTProbs v (MI t) (MD t) (IM t) (II t) (DM t) (DD t).
Definition set_MI (v : Prob) (t : TProbs) := mkTProbs (MM t) v (MD t) (IM t) (II t) (DM t) (DD t).
Definition set_MD (v : Prob) (t : TProbs) := mkTProbs (MM t) (MI t) v (IM t) (II t) (DM t) (DD t).
Definition set_IM (v : Prob) (t : TProbs) := mkTProbs (MM t) (MI t) (MD t) v (II t) (DM t) (DD t).
Definition set_II (v : Prob) (t : TProbs) := mkTProbs (MM t) (MI t) (MD t) (IM t) v (DM t) (DD t).
Definition set_DM (v : Prob) (t : TProbs) := mkTProbs (MM t) (MI t) (MD t) (IM t) (II t) v (DD t).
Definition set_DD (v : Prob) (t : TProbs) := mkTProbs (MM t) (MI t) (MD t) (IM t) (II t) (DM t) v.

(** Dereferencing the receiver [hmm]. *)
Definition load_hmm (hmm : ref) : M HMM := fun σ =>
  match hmm with
  | Some l => match σ !! l with
              | Some (OHMM h) => (Ok h, σ)
              | _ => (Panicked RuntimeNilDeref, σ)
              end
  | None => (Panicked RuntimeNilDeref, σ)
  end.

(** [NewHMM] *)
Definition NewHMM (nodes : NodeSlice) (alphabet : Alphabet) (null : ref) : M ref :=
  l ← alloc (OHMM (mkHMM nodes alphabet null)); mret (Some l).

(** [HMM.Slice] *)
Definition Slice (hmm : ref) (start end_ : Z) : M ref :=
  nodes ← make_nodes (int_sub end_ start);
  h ← load_hmm hmm;
  src ← slice_expr (HMM_Nodes h) start end_;
  _ ← copy_nodes nodes src;
  let last := int_sub (Z.of_nat (s_len nodes)) 1 in
  _ ← update_node nodes last (set_Transitions (set_MM 0%float));
  _ ← update_node nodes last (set_Transitions (set_MI MinProb));
  _ ← update_node nodes last (set_Transitions (set_MD MinProb));
  _ ← update_node nodes last (set_Transitions (set_IM 0%float));
  _ ← update_node nodes last (set_Transitions (set_II MinProb));
  _ ← update_node nodes last (set_Transitions (set_DM 0%float));
  _ ← update_node nodes last (set_Transitions (set_DD MinProb));
  l ← alloc (OHMM (mkHMM nodes (HMM_Alphabet h) (HMM_Null h)));
  mret (Some l).

(** ** Profiles (the profile source file) *)

(** [Profile]: the columns are [EProbs] maps. The slice of columns is
    filled once, when the profile is made, and is kept as a list. *)
Record Profile := mkProfile { Profile_Emissions : list ref; Profile_Alphabet : Alphabet }.

(** [FrequencyProfile]: the columns are [map[Residue]int] maps. *)
Record FrequencyProfile := mkFrequencyProfile { FP_Freqs : list ref; FP_Alphabet : Alphabet }.

(** Modelled from the spec: the type [Sequence] is declared in a file that
    is not under src/; [Add] uses its field [Residues] and its method
    [Len], the number of residues (spec 4.1: [len(sequence)]). *)
Record Sequence := mkSequence { Seq_Name : string; Seq_Residues : list Residue }.

Definition Seq_Len (s : Sequence) : Z := Z.of_nat (length (Seq_Residues s)).

(** Modelled from the spec: [Alphabet.Equals] is declared in a file that is
    not under src/. Spec 3: two alphabets are equal iff they have the same
    residues in the same order. *)
Definition Alphabet_Equals (a b : Alphabet) : bool := bool_decide (a = b).

Definition Profile_Len (p : Profile) : Z := Z.of_nat (length (Profile_Emissions p)).

Definition FP_Len (fp : FrequencyProfile) : Z := Z.of_nat (length (FP_Freqs fp)).

(** [make] of a slice of [n] columns, filled in index order by [mk]. As for
    [make_nodes], the model has no largest length: a call of a constructor
    with a number of columns beyond what the run time can allocate panics
    in Go (makeslice: len out of range) and returns in the model. *)
Fixpoint new_columns (n : nat) (mk : M ref) : M (list ref) :=
  match n with
  | O => mret []
  | S n' => e ← mk; es ← new_columns n' mk; mret (e :: es)
  end.

(** [NewProfileAlphabet] *)
Definition NewProfileAlphabet (columns : Z) (alphabet : Alphabet) : M Profile :=
  if columns <? 0 then panic RuntimeMakeSlice
  else emits ← new_columns (Z.to_nat columns) (NewEProbs alphabet);
       mret (mkProfile emits alphabet).

(** One column of a new frequency profile: every residue at count 0. *)
Definition new_freqs (alphabet : Alphabet) : M ref :=
  l ← alloc (OFreqs ∅);
  _ ← for_each alphabet (fun residue => freqs_set (Some l) residue 0);
  mret (Some l).

(** [NewFrequencyProfileAlphabet] *)
Definition NewFrequencyProfileAlphabet (columns : Z) (alphabet : Alphabet) : M FrequencyProfile :=
  if columns <? 0 then panic RuntimeMakeSlice
  else freqs ← new_columns (Z.to_nat columns) (new_freqs alphabet);
       mret (mkFrequencyProfile freqs alphabet).

(** The body of the loop of [Add], at index [column]. *)
Definition Add_column (fp : FrequencyProfile) (s : Sequence) (column : Z) : M unit :=
  r ← index (Seq_Residues s) column;
  col ← index (FP_Freqs fp) column;
  o ← freqs_lookup col r;
  match o with
  | Some n => freqs_set col r (int_add n 1)
  | None =>
      ox ← freqs_lookup col "X"%char;
      match ox with
      | Some n => freqs_set col "X"%char (int_add n 1)
      | None => panic (PanicUnrecognized r (FP_Alphabet fp))
      end
  end.

(** [FrequencyProfile.Add] *)
Definition Add (fp : FrequencyProfile) (s : Sequence) : M unit :=
  if decide (FP_Len fp <> Seq_Len s) then panic (PanicLength (FP_Len fp) (Seq_Len s))
  else for_each (seqZ 0 (FP_Len fp)) (Add_column fp s).

(** The sum of the counts of a column, in [int] arithmetic. Go ranges over
    a map in no fixed order; the sum does not depend on it
    ([column_total_sum]). *)
Definition column_total (column : gmap Residue Z) : Z :=
  map_fold (fun _ freq tot => int_add tot freq) 0 column.

(** [freqTotal] *)
Definition freqTotal (column : ref) : M Z := fun σ =>
  (Ok (column_total (freqs_at σ column)), σ).

(** The first loop of [Profile]: the background frequencies, a local map. *)
Fixpoint null_emissions (null : FrequencyProfile) (nulltot : Z) (residues : list Residue)
    (nullemit : gmap Residue float) : M (gmap Residue float) :=
  match residues with
  | [] => mret nullemit
  | residue :: rest =>
      null0 ← index (FP_Freqs null) 0;
      n ← freqs_get null0 residue;
      null_emissions null nulltot rest
        (<[residue := (float64_of_int n / float64_of_int nulltot)%float]> nullemit)
  end.

(** The body of the inner loop of [Profile]. *)
Definition Profile_cell `{GoLib} (fp null : FrequencyProfile) (p : Profile)
    (nullemit : gmap Residue float) (column tot : Z) (residue : Residue) : M unit :=
  null0 ← index (FP_Freqs null) 0;
  n ← freqs_get null0 residue;
  col ← index (FP_Freqs fp) column;
  c ← freqs_get col residue;
  pcol ← index (Profile_Emissions p) column;
  if (n =? 0) || (c =? 0) then eprobs_set pcol residue MinProb
  else
    let prob := (float64_of_int c / float64_of_int tot)%float in
    let logOdds := (- math_Log (prob / default 0%float (nullemit !! residue)))%float in
    eprobs_set pcol residue logOdds.

(** [FrequencyProfile.Profile] *)
Definition FP_Profile `{GoLib} (fp null : FrequencyProfile) : M Profile :=
  if decide (FP_Len null <> 1) then panic (PanicNullColumns (FP_Len null))
  else if negb (Alphabet_Equals (FP_Alphabet fp) (FP_Alphabet null))
  then panic (PanicAlphabet (FP_Alphabet fp) (FP_Alphabet null))
  else
    p ← NewProfileAlphabet (FP_Len fp) (FP_Alphabet fp);
    null0 ← index (FP_Freqs null) 0;
    nulltot ← freqTotal null0;
    nullemit ← null_emissions null nulltot (FP_Alphabet null) ∅;
    _ ← for_each (seqZ 0 (FP_Len fp)) (fun column =>
          col ← index (FP_Freqs fp) column;
          tot ← freqTotal col;
          for_each (FP_Alphabet fp) (Profile_cell fp null p nullemit column tot));
    mret p.

(** ** Default constructors (the profile source file) *)

(** The package variable [AlphaBlosum62], the alphabet of the BLOSUM62
    matrix, is declared in a file that is not under src/: it is a
    parameter. *)
Class Blosum := { AlphaBlosum62 : Alphabet }.

(** [NewProfile] *)
Definition NewProfile `{Blosum} (columns : Z) : M Profile :=
  NewProfileAlphabet columns AlphaBlosum62.

(** [NewFrequencyProfile] *)
Definition NewFrequencyProfile `{Blosum} (columns : Z) : M FrequencyProfile :=
  NewFrequencyProfileAlphabet columns AlphaBlosum62.

(** [NewNullProfile] *)
Definition NewNullProfile `{Blosum} : M FrequencyProfile :=
  NewFrequencyProfile 1.

(** ** EProbs.UnmarshalJSON (hmm.go)

    [json.Unmarshal] is the standard library: its outcome is the parameter
    [decoded], [None] for an error and else the entries of [strmap] in the
    order in which [range] visits them (Go fixes no order). The receiver is
    a pointer to a map variable: the function takes the value of the
    variable and returns its value at the end, with [true] when the returned
    error is not nil. *)
Definition EProbs_UnmarshalJSON (decoded : option (list (string * Prob))) (ep : ref)
    : M (ref * bool) :=
  match decoded with
  | None => mret (ep, true)
  | Some strmap =>
      ep' ← match ep with
            | None => l ← alloc (OEProbs ∅); mret (Some l)
            | Some _ => mret ep
            end;
      _ ← for_each strmap (fun kv =>
            match kv.1 with
            | EmptyString => panic RuntimeIndex
            | String k0 _ => eprobs_set ep' k0 kv.2
            end);
      mret (ep', false)
  end.

(** ** Prob.UnmarshalJSON (hmm.go)

    The outcome of [json.Unmarshal(bs, &str)] is the parameter [decoded]:
    [None] for an error, else the string. The receiver is a pointer to a
    [Prob] variable: the function takes the value of the variable and
    returns its value at the end, with the error. The assignment
    [*p, err = NewProb(str)] is made before the error is looked at. *)
Inductive unmarshal_error :=
| ErrJSON                      (* the error of [json.Unmarshal] *)
| ErrProb (e : error).         (* the error of [NewProb] *)

Definition Prob_UnmarshalJSON `{GoLib} (decoded : option string) (p : Prob)
    : Prob * option unmarshal_error :=
  match decoded with
  | None => (p, Some ErrJSON)
  | Some str =>
      let '(p', err) := NewProb str in
      match err with
      | Some e => (p', Some (ErrProb e))
      | None => (p', None)
      end
  end.

(** ** Alignment engine *)

(** Modelled from the spec: the alignment function ([NeedlemanWunsch]) is in
    a file that is not under src/; only its test is. Spec 4.3: a score
    matrix of (len(A)+1) x (len(B)+1) cells, cell (i,j) the best score of
    aligning the first i residues of A with the first j residues of B, by a
    diagonal step (substitution score of the residue pair), a vertical step
    (a residue of A against a gap) or a horizontal step (a residue of B
    against a gap), each gap charged a fixed penalty; then a traceback from
    cell (len(A), len(B)) to cell (0,0) along the predecessors that give the
    stored score, ties broken by one fixed order: diagonal, vertical,
    horizontal, or the reverse. The function takes the two sequences only:
    the substitution table (spec: a standard amino-acid substitution
    matrix), the gap penalty and the order of the tie-break are fixed by the
    package, in files that are not under src/. They are the parameters
    [Scoring] of the model. *)
Class Scoring := mkScoring {
  subst : Residue -> Residue -> Z;
  gap_penalty : Z;
  diag_first : bool;
}.

(** An aligned symbol: a residue or the gap marker. *)
Inductive Aligned :=
| Sym (r : Residue)
| Gap.

Inductive Move := Diagonal | Vertical | Horizontal.

Definition residue_at (s : list Residue) (i : nat) : Residue := nth i s "000"%char.

Definition max3 (a b c : Z) : Z := Z.max a (Z.max b c).

(** Modelled from the spec: cell [j] of the row of residue [a] of A, from
    the row [prev] above it. The spec does not say what the first row and
    the first column of the matrix hold. Its golden vector
    align("GHIKLMNPQR", "GAAAHIKLMN") = ("---GHIKLMNPQR", "GAAAHIKLMN---")
    opens with three gaps where the pair G/G followed by three gaps would
    score more, under every table that scores G/G above G/A, if the opening
    gaps were charged like the others: they are not charged, and the first
    row and the first column hold 0. *)
Fixpoint row_cell `{Scoring} (a : Residue) (B : list Residue) (prev : list Z) (j : nat) : Z :=
  match j with
  | O => 0
  | S j' =>
      max3 (nth j' prev 0 + subst a (residue_at B j'))
           (nth (S j') prev 0 - gap_penalty)
           (row_cell a B prev j' - gap_penalty)
  end.

Definition next_row `{Scoring} (a : Residue) (B : list Residue) (prev : list Z) : list Z :=
  map (row_cell a B prev) (seq 0 (S (length B))).

(** The rows of the residues of [A], below the row [prev]. *)
Fixpoint rows `{Scoring} (A B : list Residue) (prev : list Z) : list (list Z) :=
  match A with
  | [] => []
  | a :: A' => let r := next_row a B prev in r :: rows A' B r
  end.

(** Modelled from the spec: the score matrix, (len(A)+1) x (len(B)+1). *)
Definition score_matrix `{Scoring} (A B : list Residue) : list (list Z) :=
  let first := replicate (S (length B)) 0 in
  first :: rows A B first.

(** Cell (i,j) of the matrix. *)
Definition cell `{Scoring} (A B : list Residue) (i j : nat) : Z :=
  nth j (nth i (score_matrix A B) []) 0.

(** Modelled from the spec: the predecessor chosen at cell (i+1, j+1). *)
Definition choose `{Scoring} (A B : list Residue) (i' j' : nat) : Move :=
  let s := cell A B (S i') (S j') in
  let d := cell A B i' j' + subst (residue_at A i') (residue_at B j') in
  let v := cell A B i' (S j') - gap_penalty in
  let h := cell A B (S i') j' - gap_penalty in
  if diag_first then
    if s =? d then Diagonal else if s =? v then Vertical else Horizontal
  else
    if s =? h then Horizontal else if s =? v then Vertical else Diagonal.

(** Modelled from the spec: the traceback from cell (i,j); each step puts
    one symbol in front of each output. In the first row and the first
    column the only way back is along the gaps. *)
Fixpoint traceback `{Scoring} (A B : list Residue) (fuel i j : nat)
    (outA outB : list Aligned) : list Aligned * list Aligned :=
  match fuel with
  | O => (outA, outB)
  | S fuel' =>
      match i, j with
      | O, O => (outA, outB)
      | S i', O => traceback A B fuel' i' O (Sym (residue_at A i') :: outA) (Gap :: outB)
      | O, S j' => traceback A B fuel' O j' (Gap :: outA) (Sym (residue_at B j') :: outB)
      | S i', S j' =>
          match choose A B i' j' with
          | Diagonal =>
              traceback A B fuel' i' j' (Sym (residue_at A i') :: outA) (Sym (residue_at B j') :: outB)
          | Vertical =>
              traceback A B fuel' i' (S j') (Sym (residue_at A i') :: outA) (Gap :: outB)
          | Horizontal =>
              traceback A B fuel' (S i') j' (Gap :: outA) (Sym (residue_at B j') :: outB)
          end
      end
  end.

(** Modelled from the spec: [NeedlemanWunsch(A, B)], the spec's [align]. A
    traceback takes at most len(A) + len(B) steps. *)
Definition NeedlemanWunsch `{Scoring} (A B : list Residue) : list Aligned * list Aligned :=
  traceback A B (length A + length B) (length A) (length B) [] [].

(** [stringToSeq] of the test: the bytes of the string. *)
Definition stringToSeq (s : string) : list Residue := String.list_ascii_of_string s.

(** An aligned sequence as the test prints it, the gap marker as ['-']. *)
Definition aligned_string (l : list Aligned) : string :=
  String.string_of_list_ascii (map (fun x => match x with Sym r => r | Gap => "-"%char end) l).

(** The score of the first [i] residues of [s] aligned with themselves. *)
Fixpoint diag_sum `{Scoring} (s : list Residue) (i : nat) : Z :=
  match i with
  | O => 0
  | S i' => diag_sum s i' + subst (residue_at s i') (residue_at s i')
  end.

(** A scoring under which a sequence aligned with itself has no better
    alignment, as the usual substitution tables with their gap penalties
    are: no pair scores more than the mean of the two self-scores, a gap
    costs something, and a residue against itself scores more than a gap
    (also where the self-score is negative, as for the unknown residue). *)
Definition self_dominant `{Scoring} (s : list Residue) : Prop :=
  (forall a b, a ∈ s -> b ∈ s -> 2 * subst a b <= subst a a + subst b b) /\
  (forall a, a ∈ s -> 0 < subst a a + gap_penalty) /\
  0 <= gap_penalty.

(** ** Properties of the results

    What the statements below say of a store, a profile or a slice. *)

(** The transitions that [Slice] gives the last node. *)
Definition forced_transitions : TProbs :=
  mkTProbs 0%float MinProb MinProb 0%float MinProb 0%float MinProb.

(** A node with its transitions replaced by [forced_transitions]. *)
Definition force_last (n : HMMNode) : HMMNode :=
  set_Transitions (fun _ => forced_transitions) n.

(** A slice value whose window lies in an array of the store. *)
Definition wf_slice (σ : Heap) (s : NodeSlice) : Prop :=
  exists a, σ !! s_arr s = Some (ONodes a) /\
            (s_len s <= s_cap s)%nat /\ (s_off s + s_cap s <= length a)%nat.

(** The panics of the run time on a length, a bound or an index. *)
Definition range_panic (p : Panic) : Prop :=
  p = RuntimeMakeSlice \/ p = RuntimeSliceBounds \/ p = RuntimeIndex.

(** [keeps σ0 m]: from a store that holds the objects of [σ0] as they are,
    [m] ends, by a result or by a panic, in a store that still holds them as
    they are. *)
Definition keeps (σ0 : Heap) {A} (m : M A) : Prop :=
  forall σ r σ', σ0 ⊆ σ -> m σ = (r, σ') -> σ0 ⊆ σ'.

(** A frequency profile as [NewFrequencyProfileAlphabet] makes it and [Add]
    keeps it: the columns are distinct maps of the store, each with the
    residues of the alphabet as its keys. *)
Definition wf_fp (σ : Heap) (fp : FrequencyProfile) : Prop :=
  NoDup (FP_Freqs fp) /\
  forall c, c ∈ FP_Freqs fp ->
    exists l m, c = Some l /\ σ !! l = Some (OFreqs m) /\
                forall r, is_Some (m !! r) <-> r ∈ FP_Alphabet fp.

(** The count of residue [r] in column [column]. *)
Definition FP_count (σ : Heap) (fp : FrequencyProfile) (column : nat) (r : Residue) : option Z :=
  match FP_Freqs fp !! column with
  | Some col => freqs_at σ col !! r
  | None => None
  end.

(** The residue that an observed residue [r] is counted as: itself when the
    alphabet has it, else the wildcard ['X'] when the alphabet has one. *)
Definition counted (alphabet : Alphabet) (r : Residue) : option Residue :=
  if decide (r ∈ alphabet) then Some r
  else if decide ("X"%char ∈ alphabet) then Some "X"%char
  else None.

(** A column after one residue [r] has been added to it. *)
Definition add_to (alphabet : Alphabet) (r : Residue) (m : gmap Residue Z) : gmap Residue Z :=
  match counted alphabet r with
  | Some r' => <[r' := int_add (default 0 (m !! r')) 1]> m
  | None => m
  end.

(** The store after the first [k] iterations of the loop of [Add]. *)
Definition after_add (σ : Heap) (fp : FrequencyProfile) (s : Sequence) (k : nat) (σk : Heap) : Prop :=
  (forall (c : nat) l m, FP_Freqs fp !! c = Some (Some l) -> σ !! l = Some (OFreqs m) ->
     σk !! l = Some (OFreqs (if decide (c < k)%nat
                             then from_option (fun r => add_to (FP_Alphabet fp) r m) m
                                    (Seq_Residues s !! c)
                             else m))) /\
  (forall l, Some l ∉ FP_Freqs fp -> σk !! l = σ !! l).

(** The emission of residue [r] in column [column] of a profile. *)
Definition Profile_emission (σ : Heap) (p : Profile) (column : nat) (r : Residue) : option Prob :=
  match Profile_Emissions p !! column with
  | Some e => eprobs_at σ e !! r
  | None => None
  end.

(** The emission that [Profile] computes for residue [r] in a column [col]
    with total [tot], from the counts in the store [σ]. *)
Definition cell_value `{GoLib} (σ : Heap) (null0 : ref) (nullemit : gmap Residue float)
    (col : ref) (tot : Z) (r : Residue) : Prob :=
  let n := default 0 (freqs_at σ null0 !! r) in
  let c := default 0 (freqs_at σ col !! r) in
  if (n =? 0) || (c =? 0) then MinProb
  else (- math_Log ((float64_of_int c / float64_of_int tot)
                    / default 0%float (nullemit !! r)))%float.

(** A store that differs from [σ] by new emission tables at [ls] only. *)
Definition tables_added (σ : Heap) (ls : list loc) (σk : Heap) : Prop :=
  (forall l, l ∉ ls -> σk !! l = σ !! l) /\
  (forall l, l ∈ ls -> σ !! l = None /\ exists m, σk !! l = Some (OEProbs m)).

(** The table of column [c] when [Profile] is done. *)
Definition column_table `{GoLib} (σ : Heap) (fp : FrequencyProfile) (null0 : ref)
    (nullemit : gmap Residue float) (c : nat) : gmap Residue Prob :=
  let col := default None (FP_Freqs fp !! c) in
  foldl (fun m r => <[r := cell_value σ null0 nullemit col (column_total (freqs_at σ col)) r]> m)
    (foldl (fun m r => <[r := MinProb]> m) ∅ (FP_Alphabet fp)) (FP_Alphabet fp).

(** The background frequencies that [Profile] computes. *)
Definition null_table (σ : Heap) (null : FrequencyProfile) (null0 : ref) : gmap Residue float :=
  foldl (fun m r => <[r := (float64_of_int (default 0%Z (freqs_at σ null0 !! r))
                           / float64_of_int (column_total (freqs_at σ null0)))%float]> m)
    ∅ (FP_Alphabet null).

(** [same_keys cols σ σk]: the store [σk] holds the objects of [σ], but for
    the counts in the maps at [cols]; a map of counts has the keys it had. *)
Definition same_keys (cols : list ref) (σ σk : Heap) : Prop :=
  forall l,
    (Some l ∉ cols -> σk !! l = σ !! l) /\
    match σ !! l with
    | Some (OFreqs m) => exists m', σk !! l = Some (OFreqs m') /\ dom m' = dom m
    | o => σk !! l = o
    end.

(** A length that [make([]HMMNode, n)] accepts: the store holds an array of
    nodes that is at least as long. *)
Definition allocated_length (σ : Heap) (n : Z) : Prop :=
  exists k a, σ !! k = Some (ONodes a) /\ n <= Z.of_nat (length a).

(** The sum of the counts of a column, as a number. *)
Definition column_sum (column : gmap Residue Z) : Z :=
  map_fold (fun _ freq tot => tot + freq) 0 column.

(** The loop of [freqTotal] when the iteration over the map visits its
    entries in the order [entries]. *)
Definition freqTotal_loop (entries : list (Residue * Z)) : Z :=
  foldl (fun tot kv => int_add tot kv.2) 0 entries.

(** How many of the sequences [ss] have, at position [column], a residue
    that is counted as [r']. *)
Definition occurrences (alphabet : Alphabet) (ss : list Sequence) (column : nat)
    (r' : Residue) : Z :=
  foldr (fun s acc =>
           if decide (Seq_Residues s !! column ≫= counted alphabet = Some r')
           then acc + 1 else acc) 0 ss.

(** The residue that [EProbs.UnmarshalJSON] files the entry of key [k]
    under: its first byte. *)
Definition head_byte (k : string) : Residue :=
  match k with
  | String k0 _ => k0
  | EmptyString => "000"%char
  end.

(** The table [m] after the entries [entries] have been written to it in
    this order, each under the first byte of its key. *)
Definition merged (m : gmap Residue Prob) (entries : list (string * Prob)) : gmap Residue Prob :=
  foldl (fun m kv => <[head_byte kv.1 := kv.2]> m) m entries.

(** ** Concrete inputs

    A library instance, two stores and a scoring to run the model on. *)

(** A code of a [float64]: its sign, mantissa and exponent. *)
Definition sf_to_sum (x : spec_float) : bool + bool + unit + bool * positive * Z :=
  match x with
  | S754_zero s => inl (inl (inl s))
  | S754_infinity s => inl (inl (inr s))
  | S754_nan => inl (inr tt)
  | S754_finite s m e => inr (s, m, e)
  end.

Definition sf_of_sum (x : bool + bool + unit + bool * positive * Z) : spec_float :=
  match x with
  | inl (inl (inl s)) => S754_zero s
  | inl (inl (inr s)) => S754_infinity s
  | inl (inr _) => S754_nan
  | inr (s, m, e) => S754_finite s m e
  end.

(** A [float64] written as the decimal numeral of its code, and read back. *)
Definition code_fmt (f : float) : string :=
  NilEmpty.string_of_uint (Pos.to_uint (encode (sf_to_sum (Prim2SF f)))).

Definition code_parse (s : string) : option float :=
  match NilEmpty.uint_of_string s with
  | Some d =>
      match Pos.of_uint d with
      | Npos p => (fun x => SF2Prim (sf_of_sum x)) <$> decode p
      | N0 => None
      end
  | None => None
  end.

(** The sample library: [Log] and [Exp] are first-order stand-ins, the two
    conversions are [code_fmt] and [code_parse]. *)
Definition sample_lib : GoLib := {|
  math_Log := fun x => (x - 1)%float;
  math_Exp := fun x => (1 + x)%float;
  fmt_v := code_fmt;
  strconv_ParseFloat := code_parse;
|}.

(** An HMM at location 5 over the alphabet "AC": its two nodes are the first
    two elements of an array of three (length 2, capacity 3), as after
    [nodes = nodes[:2]]; the match tables are at 2 and 3, the null table,
    also used for insertions, at 1. *)
Definition ex_transitions : TProbs :=
  mkTProbs 0.5%float 1.5%float 2.5%float 0.25%float 3.5%float 0.75%float 4.5%float.

Definition ex_node (k : Z) (r : Residue) (emit : loc) : HMMNode :=
  mkHMMNode (Some 5%positive) r k (Some 1%positive) (Some emit) ex_transitions
    1%float 1%float 1%float.

Definition ex_hmm : HMM :=
  mkHMM (mkNodeSlice 4 0 2 3) ["A"; "C"]%char (Some 1%positive).

Definition ex_heap : Heap :=
  <[5%positive := OHMM ex_hmm]>
  (<[4%positive := ONodes [ex_node 1 "A" 2; ex_node 2 "C" 3; ex_node 3 "A" 2]]>
  (<[3%positive := OEProbs (<["A"%char := 3%float]> (<["C"%char := 0.5%float]> ∅))]>
  (<[2%positive := OEProbs (<["A"%char := 0.25%float]> (<["C"%char := 2%float]> ∅))]>
  (<[1%positive := OEProbs (<["A"%char := 1%float]> (<["C"%char := 1%float]> ∅))]> ∅)))).

(** A profile of two columns over "AC" with the counts A:3 C:1 and
    A:0 C:2, and a background of counts A:1 C:1. *)
Definition ex_counts : Heap :=
  <[1%positive := OFreqs (<["A"%char := 3]> (<["C"%char := 1]> ∅))]>
  (<[2%positive := OFreqs (<["A"%char := 0]> (<["C"%char := 2]> ∅))]>
  (<[3%positive := OFreqs (<["A"%char := 1]> (<["C"%char := 1]> ∅))]> ∅)).

Definition ex_fp : FrequencyProfile :=
  mkFrequencyProfile [Some 1%positive; Some 2%positive] ["A"; "C"]%char.

Definition ex_null : FrequencyProfile :=
  mkFrequencyProfile [Some 3%positive] ["A"; "C"]%char.

(** Match 3, mismatch 1, gap penalty 1, and the two orders of the
    tie-break. *)
Definition ex_scoring (first : bool) : Scoring :=
  mkScoring (fun a b => if decide (a = b) then 3 else 1) 1 first.

(** A default alphabet for the examples. *)
Definition ex_blosum : Blosum := {| AlphaBlosum62 := ["A"; "C"; "X"]%char |}.

(** The store [ex_counts] with one more column, empty: A:0 C:0. *)
Definition ex_counts_empty : Heap :=
  <[4%positive := OFreqs (<["A"%char := 0]> (<["C"%char := 0]> ∅))]> ex_counts.

(** * Proofs *)

(** ** Equality of [float64] values and the sentinel *)

Lemma SFeqb_finite_pos (x : spec_float) (m : positive) (e : Z) :
  SFeqb x (S754_finite false m e) = true -> x = S754_finite false m e.
Proof.
  unfold SFeqb, SFcompare.
  destruct x as [s|s| |s m' e']; try (destruct s; discriminate); try discriminate.
  destruct s; [discriminate|].
  destruct (Z.compare_spec e' e) as [-> | |]; try discriminate.
  fold (Pos.compare m' m).
  destruct (Pos.compare_spec m' m) as [-> | |]; try discriminate.
  reflexivity.
Qed.

Lemma Prim2SF_MinProb : Prim2SF MinProb = S754_finite false 9007199254740991 971.
Proof. vm_compute. reflexivity. Qed.

Lemma IsMin_true (p : Prob) : IsMin p = true -> p = MinProb.
Proof.
  unfold IsMin. rewrite FloatAxioms.eqb_spec, Prim2SF_MinProb. intros E.
  apply SFeqb_finite_pos in E.
  rewrite <- (SF2Prim_Prim2SF p), E. vm_compute. reflexivity.
Qed.

Lemma IsMin_MinProb : IsMin MinProb = true.
Proof. vm_compute. reflexivity. Qed.

Lemma IsMin_false (p : Prob) : p <> MinProb -> IsMin p = false.
Proof.
  intros Hp. destruct (IsMin p) eqn:E; [|reflexivity].
  apply IsMin_true in E. contradiction.
Qed.

(** ** The monad *)

Lemma bind_ok {A B} (m : M A) (f : A -> M B) σ a σ' :
  m σ = (Ok a, σ') -> (m ≫= f) σ = f a σ'.
Proof. intros E. unfold mbind, M_bind. rewrite E. reflexivity. Qed.

Lemma bind_panicked {A B} (m : M A) (f : A -> M B) σ p σ' :
  m σ = (Panicked p, σ') -> (m ≫= f) σ = (Panicked p, σ').
Proof. intros E. unfold mbind, M_bind. rewrite E. reflexivity. Qed.

Lemma for_each_app {A} (l1 l2 : list A) (f : A -> M unit) σ :
  for_each (l1 ++ l2) f σ =
  match for_each l1 f σ with
  | (Ok _, σ1) => for_each l2 f σ1
  | (Panicked p, σ1) => (Panicked p, σ1)
  end.
Proof.
  revert σ. induction l1 as [|x l1 IH]; intros σ; simpl; [reflexivity|].
  unfold mbind, M_bind. destruct (f x σ) as [[[]|p] σ1]; [apply IH | reflexivity].
Qed.

(** ** Maps in the store *)

Lemma for_each_eprobs_set (l : loc) (rs : list Residue) (v : Residue -> Prob) (σ : Heap)
    (m : gmap Residue Prob) :
  σ !! l = Some (OEProbs m) ->
  for_each rs (fun r => eprobs_set (Some l) r (v r)) σ =
  (Ok tt, <[l := OEProbs (foldl (fun m r => <[r := v r]> m) m rs)]> σ).
Proof.
  revert σ m. induction rs as [|r rs IH]; intros σ m Hl; simpl.
  - unfold mret, M_ret. by rewrite insert_id.
  - erewrite bind_ok; [|unfold eprobs_set; rewrite Hl; reflexivity].
    rewrite (IH _ (<[r := v r]> m)); [|apply lookup_insert_eq].
    by rewrite insert_insert_eq.
Qed.

Lemma for_each_freqs_set (l : loc) (rs : list Residue) (v : Z) (σ : Heap)
    (m : gmap Residue Z) :
  σ !! l = Some (OFreqs m) ->
  for_each rs (fun r => freqs_set (Some l) r v) σ =
  (Ok tt, <[l := OFreqs (foldl (fun m r => <[r := v]> m) m rs)]> σ).
Proof.
  revert σ m. induction rs as [|r rs IH]; intros σ m Hl; simpl.
  - unfold mret, M_ret. by rewrite insert_id.
  - erewrite bind_ok; [|unfold freqs_set; rewrite Hl; reflexivity].
    rewrite (IH _ (<[r := v]> m)); [|apply lookup_insert_eq].
    by rewrite insert_insert_eq.
Qed.

(** The table written by a loop of assignments [m[r] = v r]. *)
Lemma foldl_insert_lookup {V} (v : Residue -> V) (rs : list Residue) (m : gmap Residue V) (r : Residue) :
  foldl (fun m r => <[r := v r]> m) m rs !! r =
  if decide (r ∈ rs) then Some (v r) else m !! r.
Proof.
  revert m. induction rs as [|x rs IH]; intros m; simpl.
  - destruct (decide (r ∈ [])) as [H|_]; [by apply not_elem_of_nil in H | reflexivity].
  - rewrite IH. destruct (decide (r ∈ rs)) as [Hin|Hnin].
    + rewrite decide_True; [reflexivity | by apply elem_of_cons; right].
    + destruct (decide (x = r)) as [->|Hne].
      * rewrite lookup_insert_eq. rewrite decide_True; [reflexivity | apply list_elem_of_here].
      * rewrite lookup_insert_ne by assumption.
        rewrite decide_False; [reflexivity|].
        intros [->|H]%elem_of_cons; [congruence | contradiction].
Qed.

Lemma fresh_lookup_None (σ : Heap) : σ !! fresh (dom σ) = None.
Proof. apply not_elem_of_dom, is_fresh. Qed.

(** [NewEProbs] makes one new object and changes nothing else. *)
Lemma NewEProbs_run (alphabet : Alphabet) (σ : Heap) :
  let l := fresh (dom σ) in
  NewEProbs alphabet σ =
  (Ok (Some l), <[l := OEProbs (foldl (fun m r => <[r := MinProb]> m) ∅ alphabet)]> σ).
Proof.
  intros l. unfold NewEProbs.
  erewrite bind_ok; [|reflexivity].
  erewrite bind_ok; [|apply (for_each_eprobs_set _ _ (fun _ => MinProb)), lookup_insert_eq].
  fold l. unfold mret, M_ret. by rewrite insert_insert_eq.
Qed.

Lemma new_freqs_run (alphabet : Alphabet) (σ : Heap) :
  let l := fresh (dom σ) in
  new_freqs alphabet σ =
  (Ok (Some l), <[l := OFreqs (foldl (fun m r => <[r := 0]> m) ∅ alphabet)]> σ).
Proof.
  intros l. unfold new_freqs.
  erewrite bind_ok; [|reflexivity].
  erewrite bind_ok; [|apply for_each_freqs_set, lookup_insert_eq].
  fold l. unfold mret, M_ret. by rewrite insert_insert_eq.
Qed.

(** ** The sample library *)

Lemma sf_of_to_sum (x : spec_float) : sf_of_sum (sf_to_sum x) = x.
Proof. by destruct x. Qed.

Lemma code_parse_fmt (f : float) : code_parse (code_fmt f) = Some f.
Proof.
  unfold code_parse, code_fmt.
  rewrite NilEmpty.usu, Unsigned.of_to, decode_encode. simpl.
  by rewrite sf_of_to_sum, SF2Prim_Prim2SF.
Qed.

Lemma sample_laws : @GoLibLaws sample_lib.
Proof. split; [exact code_parse_fmt | reflexivity]. Qed.

(** ** Prob *)

Section prob.
Context `{GoLibLaws}.

Lemma fmt_v_not_star (f : float) : fmt_v f <> "*".
Proof.
  intros E. pose proof (ParseFloat_fmt_v f) as P.
  rewrite E, ParseFloat_star in P. discriminate.
Qed.

(** C7. Parsing the text of a probability gives the probability back: the
    sentinel [MinProb] is written ["*"] and ["*"] is read as [MinProb]; any
    other value is written by [%v] and read by [ParseFloat], which the
    library promises to be inverse ([GoLibLaws]). *)
Theorem NewProb_String (p : Prob) :
  NewProb (Prob_String p) = (p, None) /\
  Prob_String MinProb = "*" /\
  NewProb "*" = (MinProb, None) /\
  (p <> MinProb -> Prob_String p = fmt_v p /\ strconv_ParseFloat (fmt_v p) = Some p).
Proof.
  assert (S : Prob_String MinProb = "*") by (unfold Prob_String; by rewrite IsMin_MinProb).
  assert (N : NewProb "*" = (MinProb, None)) by reflexivity.
  split; [|split; [exact S | split; [exact N|]]].
  - unfold Prob_String. destruct (IsMin p) eqn:E.
    + apply IsMin_true in E. subst p. exact N.
    + unfold NewProb. destruct (String.eqb_spec (fmt_v p) "*") as [Es|_].
      * by apply fmt_v_not_star in Es.
      * by rewrite ParseFloat_fmt_v.
  - intros Hp. unfold Prob_String. rewrite (IsMin_false _ Hp).
    split; [reflexivity | apply ParseFloat_fmt_v].
Qed.

End prob.

(** The round trip at 1.5 and at the sentinel, with the sample library. *)
Lemma NewProb_String_witness :
  @NewProb sample_lib (@Prob_String sample_lib 1.5%float) = (1.5%float, None) /\
  @NewProb sample_lib (@Prob_String sample_lib MinProb) = (MinProb, None).
Proof.
  split.
  - exact (proj1 (@NewProb_String sample_lib sample_laws 1.5%float)).
  - exact (proj1 (@NewProb_String sample_lib sample_laws MinProb)).
Defined.

Section ratio.
Context `{GoLib}.

(** C9. [Ratio] is exactly 0 at the sentinel [MinProb] and [exp(-p)] at every
    other value. *)
Theorem Ratio_spec (p : Prob) :
  (p = MinProb -> Ratio p = 0%float) /\
  (p <> MinProb -> Ratio p = math_Exp (- p)%float).
Proof.
  unfold Ratio. split.
  - intros ->. by rewrite IsMin_MinProb.
  - intros Hp. by rewrite (IsMin_false _ Hp).
Qed.

(** C10. A residue with no entry in an emission table has emission 0, the
    zero value of [Prob]: not [MinProb], no panic, and a value that [Ratio]
    decodes as [exp(-0)]. It is so for every residue outside the alphabet a
    table was made from by [NewEProbs]. *)
Theorem EmitProb_missing (σ : Heap) (ep : ref) (r : Residue) :
  eprobs_at σ ep !! r = None ->
  EmitProb ep r σ = (Ok 0%float, σ) /\
  IsMin 0%float = false /\
  Less MinProb 0%float = true /\
  Ratio 0%float = math_Exp (- 0)%float /\
  (forall alphabet : Alphabet, r ∉ alphabet ->
     exists ep' σ', NewEProbs alphabet σ = (Ok ep', σ') /\
                    EmitProb ep' r σ' = (Ok 0%float, σ')).
Proof.
  intros Hr. split; [|split; [|split; [|split]]].
  - unfold EmitProb. by rewrite Hr.
  - reflexivity.
  - reflexivity.
  - reflexivity.
  - intros alphabet Hnin. eexists _, _. split; [apply NewEProbs_run|].
    unfold EmitProb, eprobs_at. rewrite lookup_insert_eq.
    rewrite (foldl_insert_lookup (fun _ => MinProb)), decide_False by assumption.
    by rewrite lookup_empty.
Qed.

End ratio.

Lemma Ratio_spec_witness :
  @Ratio sample_lib MinProb = 0%float /\
  @Ratio sample_lib 2%float = (-1)%float.
Proof.
  split.
  - exact (proj1 (@Ratio_spec sample_lib MinProb) eq_refl).
  - refine (proj2 (@Ratio_spec sample_lib 2%float) _).
    intros E. apply (f_equal Prim2SF) in E. vm_compute in E. discriminate.
Defined.

(** The table of the alphabet "AC" has no entry for "X". *)
Lemma EmitProb_missing_witness :
  exists ep σ,
    NewEProbs ["A"; "C"]%char ∅ = (Ok ep, σ) /\
    EmitProb ep "A"%char σ = (Ok MinProb, σ) /\
    EmitProb ep "X"%char σ = (Ok 0%float, σ).
Proof.
  eexists _, _. split; [apply NewEProbs_run|]. split.
  - reflexivity.
  - refine (proj1 (@EmitProb_missing sample_lib _ _ "X"%char _)). reflexivity.
Defined.

(** ** Go's [int] *)

Lemma wrap64_id (z : Z) : is_int z -> wrap64 z = z.
Proof.
  unfold is_int, wrap64. intros Hz.
  rewrite Z.mod_small; lia.
Qed.

(** Below the largest [int] an increment is the successor. *)
Lemma int_add_1 (n : Z) : - 2 ^ 63 <= n < 2 ^ 63 - 1 -> int_add n 1 = n + 1.
Proof. intros Hn. apply wrap64_id. unfold is_int. lia. Qed.

(** ** Slice *)

Lemma fresh_insert_ne (σ : Heap) (l : loc) (o : Obj) : fresh (dom (<[l := o]> σ)) <> l.
Proof.
  intros E. pose proof (fresh_lookup_None (<[l := o]> σ)) as F.
  rewrite E, lookup_insert_eq in F. discriminate.
Qed.

Lemma make_nodes_run (n : Z) (σ : Heap) :
  0 <= n ->
  make_nodes n σ =
  (Ok (mkNodeSlice (fresh (dom σ)) 0 (Z.to_nat n) (Z.to_nat n)),
   <[fresh (dom σ) := ONodes (replicate (Z.to_nat n) zeroNode)]> σ).
Proof. intros Hn. unfold make_nodes. destruct (Z.ltb_spec n 0); [lia | reflexivity]. Qed.

Lemma update_node_run (s : NodeSlice) (i : Z) (f : HMMNode -> HMMNode) (σ : Heap) (a : list HMMNode) :
  σ !! s_arr s = Some (ONodes a) ->
  0 <= i < Z.of_nat (s_len s) ->
  update_node s i f σ =
  (Ok tt, <[s_arr s := ONodes (alter f (s_off s + Z.to_nat i)%nat a)]> σ).
Proof. intros Ha Hi. unfold update_node. rewrite decide_True by assumption. by rewrite Ha. Qed.

Lemma list_alter_alter {A} (f g : A -> A) (i : nat) (l : list A) :
  alter f i (alter g i l) = alter (fun x => f (g x)) i l.
Proof.
  apply list_eq. intros j. destruct (decide (i = j)) as [->|Hne].
  - rewrite !list_lookup_alter_eq. by destruct (l !! j).
  - by rewrite !list_lookup_alter_ne.
Qed.

Lemma force_last_compose (n : HMMNode) :
  set_Transitions (set_DD MinProb)
    (set_Transitions (set_DM 0%float)
      (set_Transitions (set_II MinProb)
        (set_Transitions (set_IM 0%float)
          (set_Transitions (set_MD MinProb)
            (set_Transitions (set_MI MinProb)
              (set_Transitions (set_MM 0%float) n)))))) = force_last n.
Proof. reflexivity. Qed.

(** [Slice] on bounds within the capacity, step by step. *)
Lemma Slice_run (σ : Heap) (l : loc) (h : HMM) (a : list HMMNode) (start end_ : Z) :
  σ !! l = Some (OHMM h) ->
  σ !! s_arr (HMM_Nodes h) = Some (ONodes a) ->
  (s_off (HMM_Nodes h) + s_cap (HMM_Nodes h) <= length a)%nat ->
  0 <= start -> start < end_ -> end_ <= Z.of_nat (s_cap (HMM_Nodes h)) -> is_int end_ ->
  let n := Z.to_nat (end_ - start) in
  let l1 := fresh (dom σ) in
  let elems := take n (drop (s_off (HMM_Nodes h) + Z.to_nat start) a) in
  let σ1 := <[l1 := ONodes (alter force_last (n - 1)%nat elems)]> σ in
  let l2 := fresh (dom σ1) in
  Slice (Some l) start end_ σ =
  (Ok (Some l2),
   <[l2 := OHMM (mkHMM (mkNodeSlice l1 0 n n) (HMM_Alphabet h) (HMM_Null h))]> σ1).
Proof.
  intros Hl Ha Hcap H0 Hlt Hend Hint n l1 elems σ1 l2.
  assert (Hl1 : σ !! l1 = None) by apply fresh_lookup_None.
  assert (Hne : l <> l1) by congruence.
  assert (Hna : s_arr (HMM_Nodes h) <> l1) by congruence.
  assert (Hn : Z.of_nat n = end_ - start) by (unfold n; lia).
  assert (Hlen : length elems = n).
  { unfold elems. rewrite length_take, length_drop. lia. }
  unfold Slice.
  assert (Hw : int_sub end_ start = end_ - start).
  { apply wrap64_id. unfold is_int in *. lia. }
  rewrite Hw.
  erewrite bind_ok; [|apply make_nodes_run; lia]. fold n l1.
  erewrite bind_ok; [|unfold load_hmm; rewrite lookup_insert_ne by done; rewrite Hl; reflexivity].
  erewrite bind_ok; [|unfold slice_expr; rewrite decide_True by lia; reflexivity].
  erewrite bind_ok.
  2:{ unfold copy_nodes, nodes_at. simpl.
      rewrite lookup_insert_eq, lookup_insert_ne, Ha by done.
      rewrite Nat.min_id, take_take, Nat.min_id. fold n. fold elems.
      rewrite Hlen, (drop_ge (replicate n zeroNode)) by (rewrite length_replicate; lia).
      rewrite app_nil_r. simpl. rewrite insert_insert_eq. reflexivity. }
  simpl s_len.
  assert (Hlast : int_sub (Z.of_nat n) 1 = Z.of_nat n - 1).
  { apply wrap64_id. unfold is_int in *. lia. }
  rewrite Hlast.
  do 7 (erewrite bind_ok;
    [|erewrite update_node_run; [rewrite insert_insert_eq; reflexivity
                                |simpl; apply lookup_insert_eq | simpl; lia]]).
  simpl.
  rewrite !list_alter_alter.
  replace (Z.to_nat (Z.of_nat n - 1)) with (n - 1)%nat by lia.
  erewrite bind_ok; [|reflexivity].
  reflexivity.
Qed.

(** *** What a call leaves alone *)

Section frame.
Variable σ0 : Heap.

Lemma keeps_bind {A B} (m : M A) (f : A -> M B) :
  keeps σ0 m -> (forall a, keeps σ0 (f a)) -> keeps σ0 (m ≫= f).
Proof.
  intros Hm Hf σ r σ' Hsub. unfold mbind, M_bind.
  destruct (m σ) as [[a|p] σ1] eqn:E.
  - intros E'. exact (Hf a σ1 r σ' (Hm _ _ _ Hsub E) E').
  - intros [= <- <-]. exact (Hm _ _ _ Hsub E).
Qed.

Lemma keeps_pure {A} (m : M A) :
  (forall σ, (m σ).2 = σ) -> keeps σ0 m.
Proof. intros Hm σ r σ' Hsub E. rewrite <- (Hm σ), E in Hsub. exact Hsub. Qed.

Lemma keeps_ret {A} (a : A) : keeps σ0 (mret a).
Proof. by apply keeps_pure. Qed.

Lemma keeps_panic {A} (p : Panic) : keeps σ0 (@panic A p).
Proof. by apply keeps_pure. Qed.

Lemma keeps_alloc (o : Obj) : keeps σ0 (alloc o).
Proof.
  intros σ r σ' Hsub [= <- <-]. apply insert_subseteq_r; [|assumption].
  pose proof (fresh_lookup_None σ) as F.
  destruct (σ0 !! fresh (dom σ)) eqn:E; [|reflexivity].
  rewrite (lookup_weaken _ _ _ _ E Hsub) in F. discriminate.
Qed.

Lemma keeps_load_hmm (hmm : ref) : keeps σ0 (load_hmm hmm).
Proof.
  apply keeps_pure. intros σ. unfold load_hmm.
  destruct hmm as [l|]; [|reflexivity]. by destruct (σ !! l) as [[]|].
Qed.

Lemma keeps_slice_expr (s : NodeSlice) (lo hi : Z) : keeps σ0 (slice_expr s lo hi).
Proof. apply keeps_pure. intros σ. unfold slice_expr. by destruct (decide _). Qed.

Lemma keeps_copy_nodes (dst src : NodeSlice) :
  σ0 !! s_arr dst = None -> keeps σ0 (copy_nodes dst src).
Proof.
  intros Hd σ r σ' Hsub. unfold copy_nodes.
  destruct (σ !! s_arr dst) as [[]|]; intros [= <- <-]; try assumption.
  by apply insert_subseteq_r.
Qed.

Lemma keeps_update_node (s : NodeSlice) (i : Z) (f : HMMNode -> HMMNode) :
  σ0 !! s_arr s = None -> keeps σ0 (update_node s i f).
Proof.
  intros Hd σ r σ' Hsub. unfold update_node.
  destruct (decide _); [|by intros [= <- <-]].
  destruct (σ !! s_arr s) as [[]|]; intros [= <- <-]; try assumption.
  by apply insert_subseteq_r.
Qed.

End frame.

(** [Slice] changes no object of the store it is called in, whatever its
    outcome: it only makes new ones. *)
Lemma Slice_frame (hmm : ref) (start end_ : Z) (σ : Heap) (r : Res ref) (σ' : Heap) :
  Slice hmm start end_ σ = (r, σ') -> σ ⊆ σ'.
Proof.
  unfold Slice. unfold mbind at 1, M_bind at 1. unfold make_nodes.
  destruct (int_sub end_ start <? 0); [by intros [= <- <-]|].
  set (l1 := fresh (dom σ)). set (nodes := mkNodeSlice l1 0 _ _).
  assert (Hl1 : σ !! s_arr nodes = None) by apply fresh_lookup_None.
  apply (keeps_bind σ); [apply keeps_load_hmm | intros h|].
  2:{ apply insert_subseteq, fresh_lookup_None. }
  apply keeps_bind; [apply keeps_slice_expr | intros src].
  apply keeps_bind; [by apply keeps_copy_nodes | intros _].
  do 7 (apply keeps_bind; [by apply keeps_update_node | intros _]).
  apply keeps_bind; [apply keeps_alloc | intros l2]. apply keeps_ret.
Qed.

Lemma nodes_at_lookup (σ : Heap) (s : NodeSlice) (a : list HMMNode) (i : nat) :
  σ !! s_arr s = Some (ONodes a) -> (i < s_len s)%nat ->
  nodes_at σ s !! i = a !! (s_off s + i)%nat.
Proof.
  intros Ha Hi. unfold nodes_at. rewrite Ha.
  by rewrite lookup_take_lt, lookup_drop.
Qed.

Lemma nodes_at_length (σ : Heap) (s : NodeSlice) : wf_slice σ s -> length (nodes_at σ s) = s_len s.
Proof.
  intros (a & Ha & Hlen & Hcap). unfold nodes_at. rewrite Ha.
  rewrite length_take, length_drop. lia.
Qed.

(** [Slice] on valid bounds: the new HMM, its nodes in terms of the nodes
    of the source, and where they are kept. *)
Lemma Slice_valid (σ : Heap) (l : loc) (h : HMM) (start end_ : Z) :
  σ !! l = Some (OHMM h) ->
  wf_slice σ (HMM_Nodes h) ->
  is_int start -> is_int end_ ->
  0 <= start -> start < end_ -> end_ <= Z.of_nat (s_len (HMM_Nodes h)) ->
  exists l' h' σ',
    Slice (Some l) start end_ σ = (Ok (Some l'), σ') /\
    σ' !! l' = Some (OHMM h') /\
    HMM_Alphabet h' = HMM_Alphabet h /\ HMM_Null h' = HMM_Null h /\
    σ !! s_arr (HMM_Nodes h') = None /\
    nodes_at σ' (HMM_Nodes h') =
      alter force_last (Z.to_nat (end_ - start) - 1)%nat
        (take (Z.to_nat (end_ - start)) (drop (Z.to_nat start) (nodes_at σ (HMM_Nodes h)))).
Proof.
  intros Hl (a & Ha & Hlen & Hcap) Hs He H0 Hlt Hend.
  pose proof (Slice_run σ l h a start end_ Hl Ha Hcap H0 Hlt ltac:(lia) He) as Run.
  cbv zeta in Run.
  set (n := Z.to_nat (end_ - start)) in *.
  set (l1 := fresh (dom σ)) in *.
  set (elems := take n (drop (s_off (HMM_Nodes h) + Z.to_nat start) a)) in *.
  set (σ1 := <[l1 := ONodes (alter force_last (n - 1)%nat elems)]> σ) in *.
  set (l2 := fresh (dom σ1)) in *.
  assert (Hl1 : σ !! l1 = None) by apply fresh_lookup_None.
  assert (Hl2 : σ1 !! l2 = None) by apply fresh_lookup_None.
  assert (Hne : l2 <> l1).
  { intros E. rewrite E in Hl2. unfold σ1 in Hl2. by rewrite lookup_insert_eq in Hl2. }
  assert (Hlenel : length elems = n).
  { unfold elems. rewrite length_take, length_drop. lia. }
  assert (Helems : elems = take n (drop (Z.to_nat start) (nodes_at σ (HMM_Nodes h)))).
  { unfold elems, nodes_at. rewrite Ha. apply list_eq. intros i.
    destruct (decide (i < n)%nat) as [Hi|Hi].
    - rewrite !lookup_take_lt, !lookup_drop, lookup_take_lt, lookup_drop by lia.
      f_equal. lia.
    - by rewrite !lookup_take_ge by lia. }
  eexists l2, _, _. split; [exact Run|].
  split; [apply lookup_insert_eq|].
  split; [reflexivity|]. split; [reflexivity|]. split; [exact Hl1|].
  unfold nodes_at at 1. simpl. rewrite lookup_insert_ne by done.
  unfold σ1. rewrite lookup_insert_eq, drop_0, <- Helems.
  apply take_ge. rewrite length_alter. lia.
Qed.

(** C3. On valid bounds [0 <= start < end <= len(nodes)], [Slice] returns an
    HMM of [end - start] nodes; its last node has the seven transitions
    0, *, *, 0, *, 0, * whatever they were in the source, and the rest of
    that node and every other node are the source nodes as they are. *)
Theorem Slice_nodes (σ : Heap) (l : loc) (h : HMM) (start end_ : Z) :
  σ !! l = Some (OHMM h) ->
  wf_slice σ (HMM_Nodes h) ->
  is_int start -> is_int end_ ->
  0 <= start -> start < end_ -> end_ <= Z.of_nat (s_len (HMM_Nodes h)) ->
  exists l' h' σ',
    Slice (Some l) start end_ σ = (Ok (Some l'), σ') /\
    σ' !! l' = Some (OHMM h') /\
    HMM_Alphabet h' = HMM_Alphabet h /\ HMM_Null h' = HMM_Null h /\
    let src := nodes_at σ (HMM_Nodes h) in
    let ns := nodes_at σ' (HMM_Nodes h') in
    Z.of_nat (length ns) = end_ - start /\
    (forall i : nat, (i < length ns - 1)%nat -> ns !! i = src !! (Z.to_nat start + i)%nat) /\
    (exists x y, src !! (Z.to_nat end_ - 1)%nat = Some x /\
                 ns !! (length ns - 1)%nat = Some y /\
                 Transitions y = mkTProbs 0%float MinProb MinProb 0%float MinProb 0%float MinProb /\
                 Node_HMM y = Node_HMM x /\ Node_Residue y = Node_Residue x /\
                 NodeNum y = NodeNum x /\ InsEmit y = InsEmit x /\ MatEmit y = MatEmit x /\
                 NeffM y = NeffM x /\ NeffI y = NeffI x /\ NeffD y = NeffD x).
Proof.
  intros Hl Hwf Hs He H0 Hlt Hend.
  destruct (Slice_valid σ l h start end_) as (l' & h' & σ' & Run & Hl' & Ha & Hn & _ & Hns);
    try assumption.
  exists l', h', σ'. do 4 (split; [assumption|]). cbv zeta.
  pose proof (nodes_at_length _ _ Hwf) as Hsrc.
  set (src := nodes_at σ (HMM_Nodes h)) in *.
  set (n := Z.to_nat (end_ - start)) in *.
  assert (Hel : forall i, (i < n)%nat -> take n (drop (Z.to_nat start) src) !! i = src !! (Z.to_nat start + i)%nat).
  { intros i Hi. by rewrite lookup_take_lt, lookup_drop. }
  assert (Hlen : length (take n (drop (Z.to_nat start) src)) = n).
  { rewrite length_take, length_drop. lia. }
  rewrite Hns, length_alter, Hlen.
  split; [lia|]. split.
  - intros i Hi. rewrite list_lookup_alter_ne by lia. apply Hel. lia.
  - destruct (lookup_lt_is_Some_2 (take n (drop (Z.to_nat start) src)) (n - 1)%nat ltac:(lia))
      as [x Hx].
    exists x, (force_last x). split; [|split].
    + rewrite <- Hx, Hel by lia. f_equal. lia.
    + by rewrite list_lookup_alter_eq, Hx.
    + by destruct x.
Qed.

(** C5, as the code has it. The bounds that make [Slice] fail are
    [start < 0], [end > cap(nodes)] and [start >= end]: the upper bound of a
    slice expression is the capacity of the slice, not its length. The
    failure is a run-time panic of the range kind, no HMM is returned, and
    every object of the store is as it was. *)
Theorem Slice_out_of_range (σ : Heap) (l : loc) (h : HMM) (start end_ : Z) :
  σ !! l = Some (OHMM h) ->
  start < 0 \/ end_ > Z.of_nat (s_cap (HMM_Nodes h)) \/ start >= end_ ->
  exists p σ', Slice (Some l) start end_ σ = (Panicked p, σ') /\ range_panic p /\ σ ⊆ σ'.
Proof.
  intros Hl Hbad.
  destruct (Slice (Some l) start end_ σ) as [r σ'] eqn:E.
  pose proof (Slice_frame _ _ _ _ _ _ E) as Hsub.
  enough (exists p, r = Panicked p /\ range_panic p) as (p & -> & Hp) by eauto.
  revert E. unfold Slice. unfold mbind at 1, M_bind at 1. unfold make_nodes.
  destruct (Z.ltb_spec (int_sub end_ start) 0) as [Hneg|Hpos].
  { intros [= <- _]. eexists. split; [reflexivity | by left]. }
  set (l1 := fresh (dom σ)).
  assert (Hl1 : σ !! l1 = None) by apply fresh_lookup_None.
  assert (Hne : l1 <> l) by congruence.
  erewrite bind_ok; [|unfold load_hmm; rewrite lookup_insert_ne by done; rewrite Hl; reflexivity].
  unfold slice_expr. destruct (decide _) as [Hb|Hb].
  2:{ intros [= <- _]. eexists. split; [reflexivity | right; by left]. }
  assert (start = end_) as -> by lia.
  assert (int_sub end_ end_ = 0) as -> by (unfold int_sub; by rewrite Z.sub_diag).
  erewrite bind_ok; [|reflexivity].
  erewrite bind_ok; [|unfold copy_nodes; simpl; rewrite lookup_insert_eq; reflexivity].
  intros [= <- _]. eexists. split; [reflexivity | right; by right].
Qed.

(** C8, as the code has it. On valid bounds [Slice] leaves the source HMM
    and every other object of the store as they were: the nodes of the
    slice are kept in a new array, so that forcing the transitions of its
    last node writes to no node of the source. The copy is one level deep:
    a node of the slice holds the same emission tables and the same owner
    pointer as the source node it was copied from, and the new HMM the same
    null table. *)
Theorem Slice_source_unchanged (σ : Heap) (l : loc) (h : HMM) (start end_ : Z) :
  σ !! l = Some (OHMM h) ->
  wf_slice σ (HMM_Nodes h) ->
  is_int start -> is_int end_ ->
  0 <= start -> start < end_ -> end_ <= Z.of_nat (s_len (HMM_Nodes h)) ->
  exists l' h' σ',
    Slice (Some l) start end_ σ = (Ok (Some l'), σ') /\
    σ' !! l' = Some (OHMM h') /\
    (forall k o, σ !! k = Some o -> σ' !! k = Some o) /\
    σ' !! l = Some (OHMM h) /\
    nodes_at σ' (HMM_Nodes h) = nodes_at σ (HMM_Nodes h) /\
    σ !! s_arr (HMM_Nodes h') = None /\
    HMM_Null h' = HMM_Null h /\
    (forall (i : nat) x y,
       nodes_at σ (HMM_Nodes h) !! (Z.to_nat start + i)%nat = Some x ->
       nodes_at σ' (HMM_Nodes h') !! i = Some y ->
       MatEmit y = MatEmit x /\ InsEmit y = InsEmit x /\ Node_HMM y = Node_HMM x).
Proof.
  intros Hl Hwf Hs He H0 Hlt Hend.
  destruct (Slice_valid σ l h start end_) as (l' & h' & σ' & Run & Hl' & Ha & Hn & Hnew & Hns);
    try assumption.
  pose proof (Slice_frame _ _ _ _ _ _ Run) as Hsub.
  exists l', h', σ'. split; [assumption|]. split; [assumption|].
  split; [intros k o Hk; exact (lookup_weaken _ _ _ _ Hk Hsub)|].
  split; [exact (lookup_weaken _ _ _ _ Hl Hsub)|].
  split.
  { destruct Hwf as (a & Harr & _). unfold nodes_at.
    by rewrite Harr, (lookup_weaken _ _ _ _ Harr Hsub). }
  split; [assumption|]. split; [assumption|].
  intros i x y Hx Hy. rewrite Hns in Hy.
  set (n := Z.to_nat (end_ - start)) in *.
  destruct (decide (i < n)%nat) as [Hi|Hi].
  2:{ apply lookup_lt_Some in Hy. rewrite length_alter, length_take in Hy. lia. }
  assert (Hel : take n (drop (Z.to_nat start) (nodes_at σ (HMM_Nodes h))) !! i = Some x).
  { by rewrite lookup_take_lt, lookup_drop. }
  destruct (decide ((n - 1)%nat = i)) as [E|E].
  - rewrite E, list_lookup_alter_eq, Hel in Hy. injection Hy as <-. by destruct x.
  - rewrite list_lookup_alter_ne, Hel in Hy by done. by injection Hy as <-.
Qed.

(** *** [Slice] on the store [ex_heap] *)

Lemma ex_heap_hmm : ex_heap !! 5%positive = Some (OHMM ex_hmm).
Proof. reflexivity. Qed.

Lemma ex_heap_wf : wf_slice ex_heap (HMM_Nodes ex_hmm).
Proof. eexists. split; [reflexivity | simpl; lia]. Qed.

Lemma is_int_small (z : Z) : -1000 <= z <= 1000 -> is_int z.
Proof. unfold is_int. lia. Qed.

Lemma Slice_nodes_witness :
  exists l' σ', Slice (Some 5%positive) 0 2 ex_heap = (Ok (Some l'), σ').
Proof.
  destruct (Slice_nodes ex_heap 5%positive ex_hmm 0 2 ex_heap_hmm ex_heap_wf
              (is_int_small 0 ltac:(lia)) (is_int_small 2 ltac:(lia))
              ltac:(lia) ltac:(lia) ltac:(simpl; lia))
    as (l' & h' & σ' & Run & _).
  exists l', σ'. exact Run.
Defined.

(** C5 fails as stated: with [end = 3] beyond the length 2 but within the
    capacity 3, [Slice] returns an HMM, of three nodes. *)
Lemma Slice_end_beyond_len :
  3 > Z.of_nat (s_len (HMM_Nodes ex_hmm)) /\
  exists l' h' σ',
    Slice (Some 5%positive) 0 3 ex_heap = (Ok (Some l'), σ') /\
    σ' !! l' = Some (OHMM h') /\
    length (nodes_at σ' (HMM_Nodes h')) = 3%nat.
Proof.
  split; [simpl; lia|].
  eexists _, _, _. split; [|split].
  - eapply (Slice_run ex_heap 5%positive ex_hmm); [reflexivity | reflexivity | simpl; lia| lia | lia | simpl; lia | apply is_int_small; lia].
  - apply lookup_insert_eq.
  - unfold nodes_at. simpl HMM_Nodes. simpl s_arr.
    rewrite lookup_insert_ne by apply fresh_insert_ne.
    rewrite lookup_insert_eq. reflexivity.
Qed.

Lemma Slice_out_of_range_witness :
  exists p σ', Slice (Some 5%positive) 0 4 ex_heap = (Panicked p, σ') /\ range_panic p.
Proof.
  destruct (Slice_out_of_range ex_heap 5%positive ex_hmm 0 4 ex_heap_hmm
              ltac:(right; left; simpl; lia))
    as (p & σ' & Run & Hp & _).
  exists p, σ'. split; assumption.
Defined.

Lemma run_pair {A} (m : M A) (σ : Heap) (r : Res A) :
  (m σ).1 = r -> m σ = (r, (m σ).2).
Proof. intros <-. apply surjective_pairing. Qed.

(** C8 fails as stated: the slice is not a deep copy. Node 0 of the slice
    [Slice(0, 1)] of the HMM at 5 holds the match table of node 0 of the
    source, the object at 2: an assignment to an entry of the table of the
    slice node is an assignment to the table of the source node. *)
Lemma Slice_shares_emissions :
  exists σ' σ'' x y,
    Slice (Some 5%positive) 0 1 ex_heap = (Ok (Some 7%positive), σ') /\
    nodes_at σ' (HMM_Nodes ex_hmm) !! 0%nat = Some x /\
    nodes_at σ' (mkNodeSlice 6 0 1 1) !! 0%nat = Some y /\
    σ' !! 7%positive = Some (OHMM (mkHMM (mkNodeSlice 6 0 1 1) ["A"; "C"]%char (Some 1%positive))) /\
    MatEmit y = MatEmit x /\
    EmitProb (MatEmit x) "A"%char σ' = (Ok 0.25%float, σ') /\
    eprobs_set (MatEmit y) "A"%char 9%float σ' = (Ok tt, σ'') /\
    EmitProb (MatEmit x) "A"%char σ'' = (Ok 9%float, σ'').
Proof.
  set (σ' := (Slice (Some 5%positive) 0 1 ex_heap).2).
  set (σ'' := (eprobs_set (Some 2%positive) "A"%char 9%float σ').2).
  exists σ', σ'', (ex_node 1 "A" 2), (force_last (ex_node 1 "A" 2)).
  split; [apply (run_pair (Slice _ _ _)); vm_compute; reflexivity|].
  split; [vm_compute; reflexivity|].
  split; [vm_compute; reflexivity|].
  split; [vm_compute; reflexivity|].
  split; [reflexivity|].
  split; [unfold EmitProb; f_equal; vm_compute; reflexivity|].
  split; [apply (run_pair (eprobs_set _ _ _)); vm_compute; reflexivity|].
  unfold EmitProb; f_equal; vm_compute; reflexivity.
Qed.

Lemma Slice_source_unchanged_witness :
  exists l' σ',
    Slice (Some 5%positive) 0 2 ex_heap = (Ok (Some l'), σ') /\
    σ' !! 5%positive = Some (OHMM ex_hmm).
Proof.
  destruct (Slice_source_unchanged ex_heap 5%positive ex_hmm 0 2 ex_heap_hmm ex_heap_wf
              (is_int_small 0 ltac:(lia)) (is_int_small 2 ltac:(lia))
              ltac:(lia) ltac:(lia) ltac:(simpl; lia))
    as (l' & h' & σ' & Run & _ & _ & Hl & _).
  exists l', σ'. split; assumption.
Defined.

(** ** Frequency profiles *)

Lemma index_ok {A} (l : list A) (k : nat) (x : A) (σ : Heap) :
  l !! k = Some x -> index l (Z.of_nat k) σ = (Ok x, σ).
Proof.
  intros Hk. unfold index. destruct (Z.ltb_spec (Z.of_nat k) 0); [lia|].
  by rewrite Nat2Z.id, Hk.
Qed.

Section add.
Variables (σ : Heap) (fp : FrequencyProfile) (s : Sequence).
Hypothesis Hwf : wf_fp σ fp.

Lemma after_add_0 : after_add σ fp s 0 σ.
Proof.
  split; [|done]. intros c l m _ Hl. by rewrite decide_False by lia.
Qed.

Lemma Add_column_step (k : nat) (σk : Heap) (r : Residue) :
  after_add σ fp s k σk -> (k < length (FP_Freqs fp))%nat -> Seq_Residues s !! k = Some r ->
  match counted (FP_Alphabet fp) r with
  | Some _ => exists σ2, Add_column fp s (Z.of_nat k) σk = (Ok tt, σ2) /\ after_add σ fp s (S k) σ2
  | None => Add_column fp s (Z.of_nat k) σk = (Panicked (PanicUnrecognized r (FP_Alphabet fp)), σk)
  end.
Proof.
  intros [Hcols Hrest] Hk Hr.
  destruct Hwf as [Hnd Hobj].
  destruct (lookup_lt_is_Some_2 _ _ Hk) as [c Hc].
  destruct (Hobj c) as (l & m & -> & Hl & Hdom); [by eapply list_elem_of_lookup_2|].
  pose proof (Hcols k l m Hc Hl) as Hlk. rewrite decide_False in Hlk by lia.
  assert (Hstep : forall r' n, m !! r' = Some n ->
            after_add σ fp s (S k) (<[l := OFreqs (<[r' := int_add n 1]> m)]> σk) \/
            counted (FP_Alphabet fp) r <> Some r').
  { intros r' n Hn.
    destruct (decide (counted (FP_Alphabet fp) r = Some r')) as [Hcnt|]; [left | by right].
    split.
    - intros c' l' m' Hc' Hl'. destruct (decide (l' = l)) as [->|Hne].
      + assert (c' = k) as -> by (eapply NoDup_lookup; eauto).
        rewrite lookup_insert_eq, decide_True, Hr by lia. simpl.
        unfold add_to. rewrite Hcnt. replace m' with m by congruence.
        by rewrite Hn.
      + rewrite lookup_insert_ne by done. rewrite (Hcols c' l' m' Hc' Hl').
        assert (c' <> k) by (intros ->; congruence).
        destruct (decide (c' < k)%nat), (decide (c' < S k)%nat); (reflexivity || lia).
    - intros l' Hl'. rewrite lookup_insert_ne; [by apply Hrest|].
      intros <-. apply Hl'. by eapply list_elem_of_lookup_2. }
  assert (Run : Add_column fp s (Z.of_nat k) σk =
            match m !! r with
            | Some n => (Ok tt, <[l := OFreqs (<[r := int_add n 1]> m)]> σk)
            | None =>
                match m !! "X"%char with
                | Some n => (Ok tt, <[l := OFreqs (<["X"%char := int_add n 1]> m)]> σk)
                | None => (Panicked (PanicUnrecognized r (FP_Alphabet fp)), σk)
                end
            end).
  { unfold Add_column.
    erewrite bind_ok; [|by apply index_ok].
    erewrite bind_ok; [|by apply index_ok].
    erewrite bind_ok; [|reflexivity].
    unfold freqs_at. rewrite Hlk.
    destruct (m !! r) as [n|]; [unfold freqs_set; by rewrite Hlk|].
    erewrite bind_ok; [|reflexivity].
    unfold freqs_at. rewrite Hlk.
    destruct (m !! "X"%char) as [n|]; [unfold freqs_set; by rewrite Hlk | reflexivity]. }
  rewrite Run. clear Run. unfold counted in *.
  destruct (m !! r) as [n|] eqn:Hmr.
  - rewrite decide_True in * by (apply Hdom; eauto).
    destruct (Hstep r n Hmr) as [H|H]; [eauto | done].
  - assert (r ∉ FP_Alphabet fp) as Hnin.
    { intros Hin. apply Hdom in Hin. rewrite Hmr in Hin. by destruct Hin. }
    rewrite decide_False in * by done.
    destruct (m !! "X"%char) as [n|] eqn:HmX.
    + rewrite decide_True in * by (apply Hdom; eauto).
      destruct (Hstep "X"%char n HmX) as [H|H]; [eauto | done].
    + rewrite decide_False; [reflexivity|].
      intros Hin. apply Hdom in Hin. rewrite HmX in Hin. by destruct Hin.
Qed.

(** The loop of [Add] over the first [k] columns: it ends well when every
    residue before [k] is counted, and else panics at the first that is not,
    after the iterations before it. *)
Lemma Add_loop (k : nat) :
  (k <= length (FP_Freqs fp))%nat -> (k <= length (Seq_Residues s))%nat ->
  (exists σk, for_each (seqZ 0 (Z.of_nat k)) (Add_column fp s) σ = (Ok tt, σk) /\
              after_add σ fp s k σk /\
              forall j r, (j < k)%nat -> Seq_Residues s !! j = Some r ->
                          is_Some (counted (FP_Alphabet fp) r)) \/
  (exists (j : nat) r σj,
      (j < k)%nat /\ Seq_Residues s !! j = Some r /\ counted (FP_Alphabet fp) r = None /\
      for_each (seqZ 0 (Z.of_nat j)) (Add_column fp s) σ = (Ok tt, σj) /\
      for_each (seqZ 0 (Z.of_nat k)) (Add_column fp s) σ =
        (Panicked (PanicUnrecognized r (FP_Alphabet fp)), σj) /\
      after_add σ fp s j σj /\
      forall (i : nat) r', (i < j)%nat -> Seq_Residues s !! i = Some r' ->
                           is_Some (counted (FP_Alphabet fp) r')).
Proof.
  induction k as [|k IH]; intros Hk1 Hk2.
  - left. exists σ. split; [reflexivity|]. split; [apply after_add_0 | intros; lia].
  - rewrite seqZ_S, for_each_app. simpl for_each.
    destruct IH as [(σk & Run & Hinv & Hgood) | (j & r & σj & Hj & Hr & Hbad & Runj & Run & Hinv & Hgood)];
      [lia | lia | |].
    + rewrite Run, Z.add_0_l.
      destruct (lookup_lt_is_Some_2 (Seq_Residues s) k ltac:(lia)) as [r Hr].
      pose proof (Add_column_step k σk r Hinv ltac:(lia) Hr) as Hstep.
      destruct (counted (FP_Alphabet fp) r) as [r'|] eqn:Hcnt.
      * destruct Hstep as (σ2 & E2 & Hinv2). left. exists σ2.
        split; [by rewrite (bind_ok _ _ _ _ _ E2)|]. split; [assumption|].
        intros j r0 Hj Hr0. destruct (decide (j = k)) as [->|].
        -- assert (r0 = r) as -> by congruence. by rewrite Hcnt.
        -- apply (Hgood j); [lia | assumption].
      * right. exists k, r, σk. split; [lia|]. split; [assumption|].
        split; [assumption|]. split; [assumption|].
        split; [by rewrite (bind_panicked _ _ _ _ _ Hstep)|]. split; assumption.
    + right. exists j, r, σj. rewrite Run.
      repeat (split; [assumption || lia || reflexivity|]). assumption.
Qed.

End add.

Lemma counted_in (alphabet : Alphabet) (r r' : Residue) :
  counted alphabet r = Some r' -> r' ∈ alphabet.
Proof.
  unfold counted. repeat destruct (decide _); intros [= <-]; assumption.
Qed.

Lemma Add_lengths (fp : FrequencyProfile) (s : Sequence) :
  FP_Len fp = Seq_Len s -> length (FP_Freqs fp) = length (Seq_Residues s).
Proof. unfold FP_Len, Seq_Len. lia. Qed.

(** C4. [Add] fails with the length panic when the sequence has not as many
    residues as the profile has columns. Else each position is treated on
    its own: the residue is counted as itself when the alphabet has it, else
    as the wildcard ['X'] when the alphabet has one ([counted]); the count
    [n] of that residue in that column becomes [n + 1], wrapped to the 64
    bits of an [int], and no other count of the column changes; and when
    some residue is neither, [Add] fails with the unrecognized-residue
    panic. *)
Theorem Add_spec (σ : Heap) (fp : FrequencyProfile) (s : Sequence) :
  wf_fp σ fp ->
  (FP_Len fp <> Seq_Len s ->
     Add fp s σ = (Panicked (PanicLength (FP_Len fp) (Seq_Len s)), σ)) /\
  (FP_Len fp = Seq_Len s ->
     (forall r, r ∈ Seq_Residues s -> is_Some (counted (FP_Alphabet fp) r)) ->
     exists σ', Add fp s σ = (Ok tt, σ') /\ wf_fp σ' fp /\
       forall (column : nat) (r r' : Residue), Seq_Residues s !! column = Some r ->
         FP_count σ' fp column r' =
           if decide (counted (FP_Alphabet fp) r = Some r')
           then (fun n => wrap64 (n + 1)) <$> FP_count σ fp column r'
           else FP_count σ fp column r') /\
  (FP_Len fp = Seq_Len s ->
     (exists r, r ∈ Seq_Residues s /\ counted (FP_Alphabet fp) r = None) ->
     exists r σ', r ∈ Seq_Residues s /\ counted (FP_Alphabet fp) r = None /\
       Add fp s σ = (Panicked (PanicUnrecognized r (FP_Alphabet fp)), σ')).
Proof.
  intros Hwf. split; [|split].
  - intros Hne. unfold Add. by rewrite decide_True.
  - intros Hlen Hgood. pose proof (Add_lengths _ _ Hlen) as Hlen'.
    unfold Add. rewrite decide_False by (intros H; by apply H).
    destruct (Add_loop σ fp s Hwf (length (FP_Freqs fp)) ltac:(lia) ltac:(lia))
      as [(σ' & Run & [Hcols Hrest] & _) | (j & r & σj & Hj & Hr & Hbad & _)].
    2:{ destruct (Hgood r) as [x Hx]; [by eapply list_elem_of_lookup_2 | congruence]. }
    exists σ'. split; [exact Run|].
    destruct Hwf as [Hnd Hobj].
    assert (Hcol : forall (c : nat) r, Seq_Residues s !! c = Some r ->
              exists l m, FP_Freqs fp !! c = Some (Some l) /\ σ !! l = Some (OFreqs m) /\
                (forall r, is_Some (m !! r) <-> r ∈ FP_Alphabet fp) /\
                σ' !! l = Some (OFreqs (add_to (FP_Alphabet fp) r m))).
    { intros c r Hr. pose proof (lookup_lt_Some _ _ _ Hr) as Hc.
      destruct (lookup_lt_is_Some_2 (FP_Freqs fp) c ltac:(lia)) as [col Hcol].
      destruct (Hobj col) as (l & m & -> & Hl & Hdom); [by eapply list_elem_of_lookup_2|].
      exists l, m. repeat (split; [assumption|]).
      rewrite (Hcols c l m Hcol Hl), decide_True, Hr by lia. reflexivity. }
    assert (Hdom' : forall r m, (forall r, is_Some (m !! r) <-> r ∈ FP_Alphabet fp) ->
              forall r0, is_Some (add_to (FP_Alphabet fp) r m !! r0) <-> r0 ∈ FP_Alphabet fp).
    { intros r m Hdom r0. unfold add_to.
      destruct (counted (FP_Alphabet fp) r) as [r'|] eqn:Hcnt; [|apply Hdom].
      apply counted_in in Hcnt.
      destruct (decide (r' = r0)) as [->|Hne].
      - rewrite lookup_insert_eq. split; [done | eauto].
      - rewrite lookup_insert_ne by done. apply Hdom. }
    split.
    + split; [assumption|]. intros col Hin.
      destruct (proj1 (list_elem_of_lookup _ _) Hin) as [c Hc].
      destruct (lookup_lt_is_Some_2 (Seq_Residues s) c) as [r Hr];
        [apply lookup_lt_Some in Hc; lia|].
      destruct (Hcol c r Hr) as (l & m & Hc' & Hl & Hdom & Hl').
      exists l, (add_to (FP_Alphabet fp) r m).
      split; [congruence|]. split; [assumption|]. by apply Hdom'.
    + intros c r r' Hr. destruct (Hcol c r Hr) as (l & m & Hc' & Hl & Hdom & Hl').
      unfold FP_count, freqs_at. rewrite Hc', Hl, Hl'. unfold add_to.
      destruct (counted (FP_Alphabet fp) r) as [r''|] eqn:Hcnt.
      * destruct (decide (Some r'' = Some r')) as [[= ->]|Hne].
        -- rewrite lookup_insert_eq.
           apply counted_in, Hdom in Hcnt. destruct Hcnt as [n Hn]. by rewrite Hn.
        -- rewrite lookup_insert_ne; [reflexivity | congruence].
      * by rewrite decide_False.
  - intros Hlen (r & Hin & Hbad). pose proof (Add_lengths _ _ Hlen) as Hlen'.
    unfold Add. rewrite decide_False by (intros H; by apply H).
    destruct (Add_loop σ fp s Hwf (length (FP_Freqs fp)) ltac:(lia) ltac:(lia))
      as [(σ' & _ & _ & Hgood) | (j & r0 & σj & Hj & Hr & Hbad0 & _ & Run & _)].
    + destruct (proj1 (list_elem_of_lookup _ _) Hin) as [c Hc].
      destruct (Hgood c r) as [x Hx]; [apply lookup_lt_Some in Hc; lia | assumption | congruence].
    + exists r0, σj. split; [by eapply list_elem_of_lookup_2|]. split; assumption.
Qed.

(** *** New profiles *)

(** [new_columns] with a constructor that puts one new object [o] in the
    store: [n] distinct new locations, each holding [o]. *)
Lemma new_columns_run (o : Obj) (mk : M ref) :
  (forall σ, mk σ = (Ok (Some (fresh (dom σ))), <[fresh (dom σ) := o]> σ)) ->
  forall (n : nat) (σ : Heap),
  exists (ls : list loc) (σ' : Heap),
    new_columns n mk σ = (Ok (Some <$> ls), σ') /\
    length ls = n /\ NoDup ls /\
    (forall l, l ∈ ls -> σ !! l = None /\ σ' !! l = Some o) /\
    (forall l, l ∉ ls -> σ' !! l = σ !! l).
Proof.
  intros Hmk. induction n as [|n IH]; intros σ.
  - exists [], σ. split; [reflexivity|]. split; [reflexivity|]. split; [constructor|].
    split; [intros l Hl; by apply not_elem_of_nil in Hl | done].
  - set (l0 := fresh (dom σ)).
    destruct (IH (<[l0 := o]> σ)) as (ls & σ' & Run & Hlen & Hnd & Hnew & Hold).
    assert (Hl0 : l0 ∉ ls).
    { intros Hin. destruct (Hnew l0 Hin) as [E _]. by rewrite lookup_insert_eq in E. }
    exists (l0 :: ls), σ'. split.
    { simpl. erewrite bind_ok; [|apply Hmk]. fold l0.
      erewrite bind_ok; [|exact Run]. reflexivity. }
    split; [simpl; lia|]. split; [by constructor|]. split.
    + intros l [->|Hin]%elem_of_cons.
      * split; [apply fresh_lookup_None|]. by rewrite Hold, lookup_insert_eq.
      * destruct (Hnew l Hin) as [E1 E2]. split; [|assumption].
        apply lookup_insert_None in E1. tauto.
    + intros l Hl. apply not_elem_of_cons in Hl as [Hne Hnin].
      by rewrite Hold, lookup_insert_ne.
Qed.

Lemma zero_counts_lookup (alphabet : Alphabet) (r : Residue) :
  foldl (fun m r => <[r := 0]> m) (∅ : gmap Residue Z) alphabet !! r =
  if decide (r ∈ alphabet) then Some 0 else None.
Proof. by rewrite (foldl_insert_lookup (fun _ => 0)), lookup_empty. Qed.

(** [NewFrequencyProfileAlphabet] makes a well-formed profile, with every
    count at zero, and changes no object of the store. *)
Lemma NewFrequencyProfileAlphabet_wf (columns : Z) (alphabet : Alphabet) (σ : Heap) :
  0 <= columns ->
  exists fp σ',
    NewFrequencyProfileAlphabet columns alphabet σ = (Ok fp, σ') /\
    wf_fp σ' fp /\ FP_Len fp = columns /\ FP_Alphabet fp = alphabet /\
    (forall (c : nat) r, (Z.of_nat c < columns) -> r ∈ alphabet -> FP_count σ' fp c r = Some 0) /\
    σ ⊆ σ'.
Proof.
  intros Hc. unfold NewFrequencyProfileAlphabet.
  destruct (Z.ltb_spec columns 0); [lia|].
  destruct (new_columns_run _ _ (new_freqs_run alphabet) (Z.to_nat columns) σ)
    as (ls & σ' & Run & Hlen & Hnd & Hnew & Hold).
  eexists _, σ'. split; [erewrite bind_ok; [reflexivity | exact Run]|].
  split; [|split; [|split; [|split]]].
  - split; [simpl; apply NoDup_fmap; [intros ?? [=] |]; assumption|].
    simpl. intros c (l & -> & Hl)%list_elem_of_fmap.
    eexists l, _. split; [reflexivity|]. split; [apply Hnew, Hl|].
    intros r. rewrite zero_counts_lookup.
    destruct (decide (r ∈ alphabet)); split; eauto; try done.
    all: intros [x Hx]; discriminate.
  - unfold FP_Len. simpl. rewrite length_fmap. lia.
  - reflexivity.
  - intros c r Hlt Hr. unfold FP_count. simpl. rewrite list_lookup_fmap.
    destruct (lookup_lt_is_Some_2 ls c ltac:(lia)) as [l Hl]. rewrite Hl. simpl.
    destruct (Hnew l) as [_ E]; [by eapply list_elem_of_lookup_2|]. rewrite E.
    by rewrite zero_counts_lookup, decide_True.
  - apply map_subseteq_spec. intros l o Hl.
    rewrite Hold; [assumption|]. intros Hin. destruct (Hnew l Hin). congruence.
Qed.

(** A new profile of two columns over "ACX", and the sequence "AZ" added
    twice: it is counted as 'A' in column 0 and as the wildcard in column 1,
    and the second call takes both counts from 1 to 2. *)
Lemma Add_spec_witness :
  exists fp σ σ1 σ2,
    NewFrequencyProfileAlphabet 2 ["A"; "C"; "X"]%char ∅ = (Ok fp, σ) /\
    Add fp (mkSequence "s" ["A"; "Z"]%char) σ = (Ok tt, σ1) /\
    FP_count σ1 fp 0 "A"%char = Some 1 /\
    FP_count σ1 fp 1 "X"%char = Some 1 /\
    Add fp (mkSequence "s" ["A"; "Z"]%char) σ1 = (Ok tt, σ2) /\
    FP_count σ2 fp 0 "A"%char = Some 2 /\
    FP_count σ2 fp 1 "X"%char = Some 2 /\
    FP_count σ2 fp 1 "A"%char = Some 0.
Proof.
  destruct (NewFrequencyProfileAlphabet_wf 2 ["A"; "C"; "X"]%char ∅ ltac:(lia))
    as (fp & σ & Run & Hwf & Hlen & Halpha & Hzero & _).
  assert (Hcounted : forall r, r ∈ ["A"; "Z"]%char -> is_Some (counted (FP_Alphabet fp) r)).
  { rewrite Halpha. intros r Hr.
    apply elem_of_cons in Hr as [->|Hr]; [by eexists|].
    apply elem_of_cons in Hr as [->|Hr]; [by eexists|].
    by apply not_elem_of_nil in Hr. }
  destruct (Add_spec σ fp (mkSequence "s" ["A"; "Z"]%char) Hwf) as (_ & Hok & _).
  destruct Hok as (σ1 & Radd1 & Hwf1 & Hcount1); [by rewrite Hlen | exact Hcounted|].
  destruct (Add_spec σ1 fp (mkSequence "s" ["A"; "Z"]%char) Hwf1) as (_ & Hok & _).
  destruct Hok as (σ2 & Radd2 & _ & Hcount2); [by rewrite Hlen | exact Hcounted|].
  assert (H0A : FP_count σ1 fp 0 "A"%char = Some 1).
  { rewrite (Hcount1 0%nat "A"%char "A"%char eq_refl), Halpha.
    rewrite Hzero by (lia || (repeat constructor)). reflexivity. }
  assert (H1X : FP_count σ1 fp 1 "X"%char = Some 1).
  { rewrite (Hcount1 1%nat "Z"%char "X"%char eq_refl), Halpha.
    rewrite Hzero by (lia || (repeat constructor)). reflexivity. }
  assert (H1A : FP_count σ1 fp 1 "A"%char = Some 0).
  { rewrite (Hcount1 1%nat "Z"%char "A"%char eq_refl), Halpha.
    rewrite Hzero by (lia || (repeat constructor)). reflexivity. }
  exists fp, σ, σ1, σ2.
  split; [exact Run|]. split; [exact Radd1|]. split; [exact H0A|]. split; [exact H1X|].
  split; [exact Radd2|].
  rewrite (Hcount2 0%nat "A"%char "A"%char eq_refl).
  rewrite (Hcount2 1%nat "Z"%char "X"%char eq_refl).
  rewrite (Hcount2 1%nat "Z"%char "A"%char eq_refl).
  rewrite Halpha, H0A, H1X, H1A.
  split; [|split]; reflexivity.
Defined.

(** ** Profile *)

Lemma wrap64_add_l (a b : Z) : wrap64 (wrap64 a + b) = wrap64 (a + b).
Proof.
  unfold wrap64. f_equal.
  replace ((a + 2 ^ 63) mod 2 ^ 64 - 2 ^ 63 + b + 2 ^ 63) with ((a + 2 ^ 63) mod 2 ^ 64 + b) by lia.
  replace (a + b + 2 ^ 63) with ((a + 2 ^ 63) + b) by lia.
  by rewrite Zplus_mod_idemp_l.
Qed.

(** The total of a column is the sum of its counts, wrapped to 64 bits,
    whatever the order of the iteration. *)
Lemma column_total_sum (m : gmap Residue Z) :
  column_total m = wrap64 (map_fold (fun _ freq tot => tot + freq) 0 m).
Proof.
  unfold column_total. induction m as [|r n m Hr Hfirst IH] using map_first_key_ind.
  - by rewrite !map_fold_empty.
  - rewrite !map_fold_insert_first_key by assumption.
    rewrite IH. unfold int_add. apply wrap64_add_l.
Qed.

Lemma column_total_any_order (m : gmap Residue Z) (l : list (Residue * Z)) :
  l ≡ₚ map_to_list m ->
  foldr (uncurry (fun (_ : Residue) freq tot => int_add tot freq)) 0 l = column_total m.
Proof.
  intros Hl. unfold column_total. rewrite map_fold_foldr.
  apply (foldr_permutation eq _ 0); [|exact Hl].
  intros _ [r1 a1] _ [r2 a2] b _ _ _. simpl. unfold int_add.
  rewrite !wrap64_add_l. f_equal. lia.
Qed.

Section profile.
Context `{GoLib}.
Variables (σ : Heap) (fp null : FrequencyProfile) (null0 : ref).
Hypothesis Hnull : FP_Freqs null = [null0].

Lemma freqs_at_stable (ls : list loc) (σk : Heap) (c : ref) :
  tables_added σ ls σk -> freqs_at σk c = freqs_at σ c.
Proof.
  intros [Hold Hnew]. destruct c as [l|]; [|reflexivity]. simpl.
  destruct (decide (l ∈ ls)) as [Hin|Hnin].
  - destruct (Hnew l Hin) as (-> & m & ->). reflexivity.
  - by rewrite Hold.
Qed.

Lemma tables_added_set (ls : list loc) (σk : Heap) (l : loc) (m : gmap Residue Prob) :
  tables_added σ ls σk -> l ∈ ls -> tables_added σ ls (<[l := OEProbs m]> σk).
Proof.
  intros [Hold Hnew] Hin. split.
  - intros l' Hl'. rewrite lookup_insert_ne; [by apply Hold | congruence].
  - intros l' Hl'. destruct (Hnew l' Hl') as (E & m' & E'). split; [assumption|].
    destruct (decide (l = l')) as [->|Hne].
    + rewrite lookup_insert_eq. eauto.
    + rewrite lookup_insert_ne by done. eauto.
Qed.

Lemma null_emissions_run (nulltot : Z) (rs : list Residue) (acc : gmap Residue float) (σk : Heap) :
  freqs_at σk null0 = freqs_at σ null0 ->
  null_emissions null nulltot rs acc σk =
  (Ok (foldl (fun m r => <[r := (float64_of_int (default 0%Z (freqs_at σ null0 !! r))
                                 / float64_of_int nulltot)%float]> m) acc rs), σk).
Proof.
  intros Hst. revert acc. induction rs as [|r rs IH]; intros acc; [reflexivity|].
  simpl. erewrite bind_ok; [|apply (index_ok _ 0%nat); by rewrite Hnull].
  erewrite bind_ok; [|reflexivity]. rewrite Hst. apply IH.
Qed.

(** The inner loop of [Profile] on column [c], whose table is at [l]. *)
Lemma Profile_cells_run (ls : list loc) (nullemit : gmap Residue float) (c : nat) (col : ref)
    (l : loc) (tot : Z) (rs : list Residue) (σk : Heap) (m : gmap Residue Prob) :
  tables_added σ ls σk -> ls !! c = Some l -> FP_Freqs fp !! c = Some col ->
  σk !! l = Some (OEProbs m) ->
  for_each rs (Profile_cell fp null (mkProfile (Some <$> ls) (FP_Alphabet fp)) nullemit
                 (Z.of_nat c) tot) σk =
  (Ok tt, <[l := OEProbs (foldl (fun m r => <[r := cell_value σ null0 nullemit col tot r]> m) m rs)]> σk).
Proof.
  intros Hadd Hl Hcol. revert σk m Hadd.
  induction rs as [|r rs IH]; intros σk m Hadd Hm.
  - simpl. unfold mret, M_ret. by rewrite insert_id.
  - assert (Hin : l ∈ ls) by (by eapply list_elem_of_lookup_2).
    set (v := cell_value σ null0 nullemit col tot r).
    assert (Hcell : Profile_cell fp null (mkProfile (Some <$> ls) (FP_Alphabet fp)) nullemit
                      (Z.of_nat c) tot r σk = (Ok tt, <[l := OEProbs (<[r := v]> m)]> σk)).
    { unfold Profile_cell.
      erewrite bind_ok; [|apply (index_ok _ 0%nat); by rewrite Hnull].
      erewrite bind_ok; [|reflexivity].
      erewrite bind_ok; [|by apply index_ok].
      erewrite bind_ok; [|reflexivity].
      erewrite bind_ok; [|apply index_ok; simpl; by rewrite list_lookup_fmap, Hl].
      rewrite !(freqs_at_stable ls σk) by assumption.
      unfold v, cell_value. cbv zeta.
      destruct (_ || _); unfold eprobs_set; by rewrite Hm. }
    simpl. rewrite (bind_ok _ _ _ _ _ Hcell).
    rewrite (IH _ (<[r := v]> m)); [|by apply tables_added_set | apply lookup_insert_eq].
    by rewrite insert_insert_eq.
Qed.

(** The outer loop of [Profile] over the first [k] columns. *)
Lemma Profile_columns_run (ls : list loc) (nullemit : gmap Residue float) (σ1 : Heap) :
  NoDup ls -> length ls = length (FP_Freqs fp) ->
  tables_added σ ls σ1 ->
  (forall l, l ∈ ls ->
     σ1 !! l = Some (OEProbs (foldl (fun m r => <[r := MinProb]> m) ∅ (FP_Alphabet fp)))) ->
  forall k : nat, (k <= length ls)%nat ->
  exists σk,
    for_each (seqZ 0 (Z.of_nat k)) (fun column =>
        col ← index (FP_Freqs fp) column;
        tot ← freqTotal col;
        for_each (FP_Alphabet fp)
          (Profile_cell fp null (mkProfile (Some <$> ls) (FP_Alphabet fp)) nullemit column tot)) σ1
      = (Ok tt, σk) /\
    tables_added σ ls σk /\
    forall (c : nat) l, ls !! c = Some l ->
      σk !! l = Some (OEProbs (if decide (c < k)%nat then column_table σ fp null0 nullemit c
                               else foldl (fun m r => <[r := MinProb]> m) ∅ (FP_Alphabet fp))).
Proof.
  intros Hnd Hlen Hadd Hinit. induction k as [|k IH]; intros Hk.
  - exists σ1. split; [reflexivity|]. split; [assumption|].
    intros c l Hl. rewrite decide_False by lia. apply Hinit. by eapply list_elem_of_lookup_2.
  - destruct IH as (σk & Run & Haddk & Htab); [lia|].
    destruct (lookup_lt_is_Some_2 ls k ltac:(lia)) as [l Hl].
    destruct (lookup_lt_is_Some_2 (FP_Freqs fp) k ltac:(lia)) as [col Hcol].
    pose proof (Htab k l Hl) as Hlk. rewrite decide_False in Hlk by lia.
    eexists. split; [|split].
    + rewrite seqZ_S, for_each_app, Run, Z.add_0_l. simpl.
      erewrite bind_ok; [|erewrite bind_ok; [|by apply index_ok];
                          erewrite bind_ok; [|reflexivity];
                          by eapply Profile_cells_run].
      reflexivity.
    + apply tables_added_set; [assumption | by eapply list_elem_of_lookup_2].
    + intros c l' Hl'. destruct (decide (l' = l)) as [->|Hne].
      * assert (c = k) as -> by (eapply NoDup_lookup; eauto).
        rewrite lookup_insert_eq, decide_True by lia.
        unfold column_table. rewrite Hcol. simpl.
        by rewrite (freqs_at_stable ls σk).
      * rewrite lookup_insert_ne by done. rewrite (Htab c l' Hl').
        assert (c <> k) by (intros ->; congruence).
        destruct (decide (c < k)%nat), (decide (c < S k)%nat); (reflexivity || lia).
Qed.

(** [Profile], once its two checks are passed: the new tables are at new
    locations, one per column, and nothing else has changed. *)
Lemma Profile_run :
  FP_Alphabet fp = FP_Alphabet null ->
  exists (ls : list loc) (σ' : Heap),
    FP_Profile fp null σ = (Ok (mkProfile (Some <$> ls) (FP_Alphabet fp)), σ') /\
    length ls = length (FP_Freqs fp) /\
    tables_added σ ls σ' /\
    forall (c : nat) l, ls !! c = Some l -> σ' !! l = Some (OEProbs (column_table σ fp null0 (null_table σ null null0) c)).
Proof.
  intros Halpha. unfold FP_Profile.
  rewrite decide_False by (unfold FP_Len; rewrite Hnull; simpl; lia).
  unfold Alphabet_Equals. rewrite bool_decide_eq_true_2 by assumption. simpl negb. cbv iota.
  unfold NewProfileAlphabet.
  destruct (Z.ltb_spec (FP_Len fp) 0) as [Hneg|_]; [unfold FP_Len in Hneg; lia|].
  destruct (new_columns_run _ _ (NewEProbs_run (FP_Alphabet fp)) (Z.to_nat (FP_Len fp)) σ)
    as (ls & σ1 & Run & Hlen & Hnd & Hnew & Hold).
  assert (Hlen' : length ls = length (FP_Freqs fp)) by (unfold FP_Len in Hlen; lia).
  assert (Hadd : tables_added σ ls σ1).
  { split; [assumption|]. intros l Hl. destruct (Hnew l Hl). eauto. }
  destruct (Profile_columns_run ls (null_table σ null null0) σ1 Hnd Hlen' Hadd (fun l Hl => proj2 (Hnew l Hl))
              (length ls) ltac:(lia)) as (σ' & Loop & Hadd' & Htab).
  exists ls, σ'. split.
  - unfold negb. cbv beta iota.
    erewrite bind_ok; [|erewrite bind_ok; [|exact Run]; reflexivity].
    erewrite bind_ok; [|apply (index_ok _ 0%nat); by rewrite Hnull].
    erewrite bind_ok; [|reflexivity].
    rewrite (freqs_at_stable ls σ1) by assumption.
    erewrite bind_ok; [|apply null_emissions_run, (freqs_at_stable ls), Hadd].
    fold (null_table σ null null0). unfold FP_Len. rewrite <- Hlen'.
    erewrite bind_ok; [|exact Loop]. reflexivity.
  - split; [assumption|]. split; [assumption|].
    intros c l Hl. rewrite (Htab c l Hl), decide_True; [reflexivity|].
    by eapply lookup_lt_Some.
Qed.

End profile.

Lemma FP_Len_1 (null : FrequencyProfile) :
  FP_Len null = 1 -> exists null0, FP_Freqs null = [null0].
Proof.
  unfold FP_Len. destruct (FP_Freqs null) as [|null0 [|? ?]]; simpl; intros; try lia. eauto.
Qed.

(** C1. With a background [null] of exactly one column and of the same
    alphabet, [Profile] returns a profile with as many columns as [fp];
    for each column and each residue of the alphabet the emission is
    [MinProb] when the background count or the count in the column is zero,
    and else [-ln((count/colTotal) / (backgroundCount/bgTotal))] in
    [float64] arithmetic, the totals being the sums of all counts of the
    column and of the background column. *)
Theorem Profile_spec `{GoLib} (σ : Heap) (fp null : FrequencyProfile) :
  FP_Len null = 1 ->
  FP_Alphabet fp = FP_Alphabet null ->
  exists p σ',
    FP_Profile fp null σ = (Ok p, σ') /\
    Profile_Len p = FP_Len fp /\
    Profile_Alphabet p = FP_Alphabet fp /\
    forall (column : nat) (col null0 : ref) (r : Residue),
      FP_Freqs fp !! column = Some col ->
      FP_Freqs null !! 0%nat = Some null0 ->
      r ∈ FP_Alphabet fp ->
      Profile_emission σ' p column r =
        Some (let count := default 0 (freqs_at σ col !! r) in
              let colTotal := column_total (freqs_at σ col) in
              let backgroundCount := default 0 (freqs_at σ null0 !! r) in
              let bgTotal := column_total (freqs_at σ null0) in
              if (backgroundCount =? 0) || (count =? 0) then MinProb
              else (- math_Log ((float64_of_int count / float64_of_int colTotal)
                                / (float64_of_int backgroundCount / float64_of_int bgTotal)))%float).
Proof.
  intros Hlen Halpha. destruct (FP_Len_1 null Hlen) as [null0 Hnull].
  destruct (Profile_run σ fp null null0 Hnull Halpha) as (ls & σ' & Run & Hls & _ & Htab).
  eexists _, σ'. split; [exact Run|].
  split; [unfold Profile_Len, FP_Len; simpl; rewrite length_fmap; lia|].
  split; [reflexivity|].
  intros column col null0' r Hcol Hn0 Hr. rewrite Hnull in Hn0. injection Hn0 as <-.
  destruct (lookup_lt_is_Some_2 ls column) as [l Hl];
    [rewrite Hls; by eapply lookup_lt_Some|].
  unfold Profile_emission. simpl. rewrite list_lookup_fmap, Hl. simpl. rewrite (Htab column l Hl).
  unfold column_table. rewrite Hcol. simpl.
  rewrite (foldl_insert_lookup (cell_value σ null0 (null_table σ null null0) col _)),
    decide_True by assumption.
  unfold cell_value, null_table. cbv zeta.
  rewrite (foldl_insert_lookup
             (fun r => (float64_of_int (default 0%Z (freqs_at σ null0 !! r))
                        / float64_of_int (column_total (freqs_at σ null0)))%float)),
    decide_True by (by rewrite <- Halpha).
  reflexivity.
Qed.

(** When [Profile] panics, it is at one of its two checks, before anything
    is made or written. *)
Lemma Profile_panic_unchanged `{GoLib} (σ : Heap) (fp null : FrequencyProfile) (p : Panic) (σ' : Heap) :
  FP_Profile fp null σ = (Panicked p, σ') -> σ' = σ.
Proof.
  intros Run.
  destruct (decide (FP_Len null <> 1)) as [Hne|Heq].
  { unfold FP_Profile in Run. rewrite decide_True in Run by assumption. by injection Run. }
  destruct (decide (FP_Alphabet fp = FP_Alphabet null)) as [Halpha|Halpha].
  - assert (Hlen : FP_Len null = 1) by lia.
    destruct (FP_Len_1 null Hlen) as [null0 Hnull].
    destruct (Profile_run σ fp null null0 Hnull Halpha) as (ls & σ1 & Run' & _).
    congruence.
  - unfold FP_Profile, Alphabet_Equals in Run.
    rewrite decide_False, bool_decide_eq_false_2 in Run by assumption.
    by injection Run.
Qed.



(** *** [Profile] and [Add] on the store [ex_counts] *)

(** With the sample library, whose [Log] is [x - 1]: the emission of 'A' is
    [-((3/4)/(1/2) - 1)] in column 0 and [MinProb] in column 1. *)
Lemma Profile_spec_witness :
  exists p σ',
    @FP_Profile sample_lib ex_fp ex_null ex_counts = (Ok p, σ') /\
    Profile_Len p = 2 /\
    Profile_emission σ' p 0 "A"%char = Some (-0.5)%float /\
    Profile_emission σ' p 1 "A"%char = Some MinProb.
Proof.
  destruct (@Profile_spec sample_lib ex_counts ex_fp ex_null eq_refl eq_refl)
    as (p & σ' & Run & Hlen & _ & Hem).
  exists p, σ'. split; [exact Run|]. split; [exact Hlen|].
  rewrite (Hem 0%nat (Some 1%positive) (Some 3%positive) "A"%char eq_refl eq_refl
             ltac:(repeat constructor)).
  rewrite (Hem 1%nat (Some 2%positive) (Some 3%positive) "A"%char eq_refl eq_refl
             ltac:(repeat constructor)).
  split; vm_compute; reflexivity.
Defined.


(** ** The score matrix *)

Section matrix.
Context `{Scoring}.
Variables A B : list Residue.

Lemma next_row_length (a : Residue) (prev : list Z) :
  length (next_row a B prev) = S (length B).
Proof. unfold next_row. by rewrite length_map, length_seq. Qed.

Lemma next_row_nth (a : Residue) (prev : list Z) (j : nat) :
  (j <= length B)%nat -> nth j (next_row a B prev) 0 = row_cell a B prev j.
Proof.
  intros Hj. unfold next_row.
  rewrite nth_lookup, list_lookup_fmap, lookup_seq_lt by lia. reflexivity.
Qed.

(** Row [i+1] is made from row [i] and residue [i] of A. *)
Lemma rows_nth (A' : list Residue) (prev : list Z) (i : nat) :
  (i < length A')%nat ->
  nth (S i) (prev :: rows A' B prev) [] =
  next_row (residue_at A' i) B (nth i (prev :: rows A' B prev) []).
Proof.
  revert prev i. induction A' as [|a A' IH]; intros prev i Hi; simpl in Hi; [lia|].
  destruct i as [|i]; [reflexivity|].
  change (nth (S (S i)) (prev :: rows (a :: A') B prev) [])
    with (nth (S i) (next_row a B prev :: rows A' B (next_row a B prev)) []).
  rewrite IH by lia. reflexivity.
Qed.

Lemma rows_length (A' : list Residue) (prev : list Z) : length (rows A' B prev) = length A'.
Proof. revert prev. induction A' as [|a A' IH]; intros prev; simpl; [|rewrite IH]; reflexivity. Qed.

Lemma cell_0_r (j : nat) : cell A B 0 j = 0.
Proof.
  unfold cell, score_matrix. cbv zeta.
  change (nth j (replicate (S (length B)) 0) 0 = 0).
  destruct (decide (j < S (length B))%nat).
  - rewrite nth_lookup, lookup_replicate_2 by lia. reflexivity.
  - apply nth_overflow. rewrite length_replicate. lia.
Qed.

Lemma cell_S (i j : nat) :
  (i < length A)%nat -> (j <= length B)%nat ->
  cell A B (S i) j = row_cell (residue_at A i) B (nth i (score_matrix A B) []) j.
Proof.
  intros Hi Hj. unfold cell, score_matrix. cbv zeta.
  rewrite rows_nth by assumption. by apply next_row_nth.
Qed.

Lemma cell_S_0 (i : nat) : (i < length A)%nat -> cell A B (S i) 0 = 0.
Proof. intros Hi. rewrite cell_S by (assumption || lia). reflexivity. Qed.

(** The rule of the matrix: the best of the three steps into the cell. *)
Lemma cell_S_S (i j : nat) :
  (i < length A)%nat -> (j < length B)%nat ->
  cell A B (S i) (S j) =
  max3 (cell A B i j + subst (residue_at A i) (residue_at B j))
       (cell A B i (S j) - gap_penalty)
       (cell A B (S i) j - gap_penalty).
Proof.
  intros Hi Hj. rewrite !cell_S by (assumption || lia). reflexivity.
Qed.

(** The matrix has len(A)+1 rows of len(B)+1 cells. *)
Lemma score_matrix_size (i : nat) :
  (i <= length A)%nat ->
  length (score_matrix A B) = S (length A) /\
  length (nth i (score_matrix A B) []) = S (length B).
Proof.
  intros Hi. unfold score_matrix. cbv zeta. split; [simpl; by rewrite rows_length|].
  destruct i as [|i]; [simpl; by rewrite length_replicate|].
  rewrite rows_nth by lia. apply next_row_length.
Qed.

End matrix.

(** ** Alignment of a sequence with itself *)

Section self_alignment.
Context `{Scoring}.
Variable s : list Residue.
Hypothesis Hdom : self_dominant s.

Lemma residue_at_in (i : nat) : (i < length s)%nat -> residue_at s i ∈ s.
Proof. intros Hi. apply list_elem_of_In, nth_In, Hi. Qed.

(** Aligning [j] residues with gaps only does not score more than aligning
    them with themselves. *)
Lemma diag_sum_gaps (j : nat) :
  (j <= length s)%nat -> 0 <= diag_sum s j + Z.of_nat j * gap_penalty.
Proof.
  induction j as [|j IH]; intros Hj; [simpl; lia|].
  specialize (IH ltac:(lia)).
  pose proof (proj1 (proj2 Hdom) (residue_at s j) (residue_at_in j ltac:(lia))).
  simpl diag_sum. lia.
Qed.

(** No cell scores more than the mean of the two self-alignments, plus half
    a gap for each residue that one prefix has more than the other. *)
Lemma cell_bound (i j : nat) :
  (i <= length s)%nat -> (j <= length s)%nat ->
  2 * cell s s i j <=
  diag_sum s i + diag_sum s j + gap_penalty * Z.abs (Z.of_nat i - Z.of_nat j).
Proof.
  destruct Hdom as (Hpair & Hself & Hgap).
  revert j. induction i as [|i IHi]; intros j Hi Hj.
  - rewrite cell_0_r. simpl diag_sum. pose proof (diag_sum_gaps j Hj). nia.
  - induction j as [|j IHj].
    + rewrite cell_S_0 by lia. simpl (diag_sum s 0). pose proof (diag_sum_gaps (S i) Hi). nia.
    + rewrite cell_S_S by lia.
      pose proof (IHi j ltac:(lia) ltac:(lia)) as Hd.
      pose proof (IHi (S j) ltac:(lia) ltac:(lia)) as Hv.
      pose proof (IHj ltac:(lia)) as Hh.
      pose proof (Hpair _ _ (residue_at_in i ltac:(lia)) (residue_at_in j ltac:(lia))) as Hs.
      pose proof (Hself _ (residue_at_in i ltac:(lia))) as Hgi.
      pose proof (Hself _ (residue_at_in j ltac:(lia))) as Hgj.
      simpl diag_sum in *. unfold max3.
      replace (Z.of_nat (S i) - Z.of_nat (S j)) with (Z.of_nat i - Z.of_nat j) by lia.
      assert (Z.abs (Z.of_nat i - Z.of_nat (S j)) <= Z.abs (Z.of_nat i - Z.of_nat j) + 1) by lia.
      assert (Z.abs (Z.of_nat (S i) - Z.of_nat j) <= Z.abs (Z.of_nat i - Z.of_nat j) + 1) by lia.
      nia.
Qed.

(** On the diagonal the bound is reached. *)
Lemma cell_diag (i : nat) : (i <= length s)%nat -> cell s s i i = diag_sum s i.
Proof.
  induction i as [|i IH]; intros Hi; [by rewrite cell_0_r|].
  specialize (IH ltac:(lia)).
  pose proof (cell_bound (S i) (S i) Hi Hi) as Hb.
  rewrite Z.sub_diag in Hb.
  rewrite cell_S_S in * by lia. simpl diag_sum in *. unfold max3 in *. lia.
Qed.

(** At a cell of the diagonal the stored score comes from the diagonal
    predecessor and from no other: whatever the order of the tie-break, the
    traceback steps diagonally. *)
Lemma choose_diag (i : nat) : (i < length s)%nat -> choose s s i i = Diagonal.
Proof.
  intros Hi. unfold choose.
  pose proof (cell_diag (S i) ltac:(lia)) as HS.
  pose proof (cell_diag i ltac:(lia)) as Hd.
  pose proof (cell_bound i (S i) ltac:(lia) ltac:(lia)) as Hv.
  pose proof (cell_bound (S i) i ltac:(lia) ltac:(lia)) as Hh.
  pose proof (proj1 (proj2 Hdom) _ (residue_at_in i Hi)) as Hg.
  replace (Z.abs (Z.of_nat i - Z.of_nat (S i))) with 1 in Hv by lia.
  replace (Z.abs (Z.of_nat (S i) - Z.of_nat i)) with 1 in Hh by lia.
  simpl diag_sum in *.
  assert (E1 : (cell s s (S i) (S i) =? cell s s i i + subst (residue_at s i) (residue_at s i)) = true)
    by (apply Z.eqb_eq; lia).
  assert (E2 : (cell s s (S i) (S i) =? cell s s i (S i) - gap_penalty) = false)
    by (apply Z.eqb_neq; lia).
  assert (E3 : (cell s s (S i) (S i) =? cell s s (S i) i - gap_penalty) = false)
    by (apply Z.eqb_neq; lia).
  rewrite E1, E2, E3. by destruct diag_first.
Qed.

Lemma traceback_diag (fuel i : nat) (outA outB : list Aligned) :
  (i <= length s)%nat -> (i <= fuel)%nat ->
  traceback s s fuel i i outA outB =
  ((Sym <$> take i s) ++ outA, (Sym <$> take i s) ++ outB).
Proof.
  revert fuel outA outB. induction i as [|i IH]; intros fuel outA outB Hi Hf.
  - destruct fuel; reflexivity.
  - destruct fuel as [|fuel]; [lia|]. simpl traceback.
    rewrite choose_diag by lia. rewrite IH by lia.
    assert (Ht : take (S i) s = take i s ++ [residue_at s i]).
    { destruct (lookup_lt_is_Some_2 s i ltac:(lia)) as [x Hx].
      unfold residue_at. rewrite nth_lookup, Hx. simpl. by apply take_S_r. }
    rewrite Ht, fmap_app, <- !app_assoc. reflexivity.
Qed.

End self_alignment.


Lemma ex_scoring_self_dominant (first : bool) (s : list Residue) :
  @self_dominant (ex_scoring first) s.
Proof.
  split; [|split].
  - intros a b _ _. simpl.
    destruct (decide (a = a)), (decide (b = b)), (decide (a = b)); (lia || congruence).
  - intros a _. simpl. destruct (decide (a = a)); (lia || congruence).
  - simpl. lia.
Qed.


(** The model on the second vector of the test, the golden vector of the
    spec, for both orders of the tie-break: the alignment opens with three
    gaps and ends with three. *)
Example align_golden (first : bool) :
  let r := @NeedlemanWunsch (ex_scoring first)
             (stringToSeq "GHIKLMNPQR") (stringToSeq "GAAAHIKLMN") in
  aligned_string r.1 = "---GHIKLMNPQR"%string /\ aligned_string r.2 = "GAAAHIKLMN---"%string.
Proof. destruct first; vm_compute; split; reflexivity. Qed.

(** The seventh vector of the test: a gap of eleven inside. *)
Example align_inner_gap (first : bool) :
  let r := @NeedlemanWunsch (ex_scoring first)
             (stringToSeq "ABCDEFGWXYZ") (stringToSeq "ABCDEFMNPQRSTZABEGWXYZ") in
  aligned_string r.1 = "ABCDEF-----------GWXYZ"%string /\
  aligned_string r.2 = "ABCDEFMNPQRSTZABEGWXYZ"%string.
Proof. destruct first; vm_compute; split; reflexivity. Qed.

(** * Further properties of the code *)

(** ** Constructors *)

(** X1. [NewEProbs] makes one new table and changes nothing else; the table
    holds [MinProb] for every residue of the alphabet and has no other
    entry, so that [EmitProb] gives [MinProb] inside the alphabet and 0
    outside it. *)
Theorem NewEProbs_table (alphabet : Alphabet) (σ : Heap) :
  exists l σ',
    NewEProbs alphabet σ = (Ok (Some l), σ') /\
    σ !! l = None /\
    (forall k, k <> l -> σ' !! k = σ !! k) /\
    forall r,
      eprobs_at σ' (Some l) !! r = (if decide (r ∈ alphabet) then Some MinProb else None) /\
      EmitProb (Some l) r σ' = (Ok (if decide (r ∈ alphabet) then MinProb else 0%float), σ').
Proof.
  eexists _, _. split; [apply NewEProbs_run|].
  split; [apply fresh_lookup_None|].
  split; [intros k Hk; by rewrite lookup_insert_ne|].
  intros r. unfold EmitProb, eprobs_at. rewrite lookup_insert_eq.
  rewrite (foldl_insert_lookup (fun _ => MinProb)), lookup_empty.
  by destruct (decide (r ∈ alphabet)).
Qed.

Lemma column_total_zero (m : gmap Residue Z) :
  (forall r n, m !! r = Some n -> n = 0) -> column_total m = 0.
Proof.
  unfold column_total.
  apply (map_fold_weak_ind (fun tot m => (forall r n, m !! r = Some n -> n = 0) -> tot = 0));
    [done|].
  intros r n m' tot Hr IH Hall.
  assert (n = 0) as -> by (apply (Hall r); apply lookup_insert_eq).
  assert (tot = 0) as ->.
  { apply IH. intros r' n' Hr'. apply (Hall r'). rewrite lookup_insert_ne; [done | congruence]. }
  reflexivity.
Qed.

(** The new frequency profile of the model, for a number of columns that
    is not negative. *)
Lemma NewFrequencyProfileAlphabet_run (columns : Z) (alphabet : Alphabet) (σ : Heap) :
  0 <= columns ->
  exists fp σ',
    NewFrequencyProfileAlphabet columns alphabet σ = (Ok fp, σ') /\
    FP_Len fp = columns /\ FP_Alphabet fp = alphabet /\
    wf_fp σ' fp /\ σ ⊆ σ' /\
    forall (c : nat) col, FP_Freqs fp !! c = Some col ->
      freqTotal col σ' = (Ok 0, σ') /\
      forall r, FP_count σ' fp c r = if decide (r ∈ alphabet) then Some 0 else None.
Proof.
  intros Hc.
  destruct (NewFrequencyProfileAlphabet_wf columns alphabet σ Hc)
    as (fp & σ' & Run & Hwf & Hlen & Halpha & _ & Hsub).
  exists fp, σ'. repeat (split; [assumption|]).
  intros c col Hcol.
  destruct Hwf as [_ Hobj].
  destruct (Hobj col) as (l & m & -> & Hl & Hdom); [by eapply list_elem_of_lookup_2|].
  assert (Hm : m = foldl (fun m r => <[r := 0]> m) ∅ alphabet).
  { revert Run. unfold NewFrequencyProfileAlphabet.
    destruct (Z.ltb_spec columns 0); [lia|].
    destruct (new_columns_run _ _ (new_freqs_run alphabet) (Z.to_nat columns) σ)
      as (ls & σ1 & Run1 & _ & _ & Hnew & _).
    erewrite bind_ok; [|exact Run1]. intros [= <- <-]. simpl in Hcol.
    rewrite list_lookup_fmap in Hcol.
    destruct (ls !! c) as [l'|] eqn:Hl'; [|discriminate]. injection Hcol as ->.
    destruct (Hnew l) as [_ E]; [by eapply list_elem_of_lookup_2|]. congruence. }
  assert (Hz : forall r, m !! r = if decide (r ∈ alphabet) then Some 0 else None).
  { intros r. rewrite Hm. apply zero_counts_lookup. }
  split.
  - unfold freqTotal, freqs_at. rewrite Hl. f_equal. f_equal.
    apply column_total_zero. intros r n. rewrite Hz. by destruct (decide _); intros [=].
  - intros r. unfold FP_count, freqs_at. rewrite Hcol, Hl. apply Hz.
Qed.

(** X2. However a call of [NewFrequencyProfileAlphabet] ends. A negative
    number of columns makes it panic. A panic is the one of [make], raised
    before anything is made: the store is as it was. A profile that it
    returns has that many columns over the alphabet and is well formed,
    with the count of every residue of the alphabet at zero, no other key,
    and every column total at zero, and nothing that was in the store has
    changed. For which numbers of columns [make] returns is left to the
    run time. *)
Theorem NewFrequencyProfileAlphabet_zero (columns : Z) (alphabet : Alphabet) (σ : Heap)
    (x : Res FrequencyProfile) (σ' : Heap) :
  NewFrequencyProfileAlphabet columns alphabet σ = (x, σ') ->
  (columns < 0 -> x = Panicked RuntimeMakeSlice) /\
  (forall p, x = Panicked p -> p = RuntimeMakeSlice /\ σ' = σ) /\
  (forall fp, x = Ok fp ->
     0 <= columns /\ FP_Len fp = columns /\ FP_Alphabet fp = alphabet /\
     wf_fp σ' fp /\ σ ⊆ σ' /\
     forall (c : nat) col, FP_Freqs fp !! c = Some col ->
       freqTotal col σ' = (Ok 0, σ') /\
       forall r, FP_count σ' fp c r = if decide (r ∈ alphabet) then Some 0 else None).
Proof.
  intros Run. destruct (Z.ltb_spec columns 0) as [Hneg|Hpos].
  - unfold NewFrequencyProfileAlphabet in Run.
    destruct (Z.ltb_spec columns 0); [|lia]. injection Run as <- <-.
    split; [reflexivity|]. split; [by intros p [= <-] | intros fp [=]].
  - destruct (NewFrequencyProfileAlphabet_run columns alphabet σ Hpos)
      as (fp0 & σ0 & Run0 & Hfp).
    rewrite Run0 in Run. injection Run as <- <-.
    split; [lia|]. split; [intros p [=]|]. intros fp [= <-]. by split.
Qed.

Lemma NewFrequencyProfileAlphabet_zero_witness :
  exists σ',
    NewFrequencyProfileAlphabet 2 ["A"; "C"]%char ∅ =
      (Ok (mkFrequencyProfile [Some 1%positive; Some 2%positive] ["A"; "C"]%char), σ') /\
    freqTotal (Some 2%positive) σ' = (Ok 0, σ').
Proof.
  set (fp := mkFrequencyProfile [Some 1%positive; Some 2%positive] ["A"; "C"]%char).
  set (run := NewFrequencyProfileAlphabet 2 ["A"; "C"]%char ∅).
  assert (E : run = (Ok fp, run.2)).
  { apply (run_pair (NewFrequencyProfileAlphabet _ _)). vm_compute. reflexivity. }
  destruct (NewFrequencyProfileAlphabet_zero _ _ _ _ _ E) as (_ & _ & Hok).
  destruct (Hok fp eq_refl) as (_ & _ & _ & _ & _ & Hcols).
  exists run.2. split; [exact E|]. apply (Hcols 1%nat). reflexivity.
Defined.

(** [NewProfileAlphabet] on a length that is not negative. *)
Lemma NewProfileAlphabet_run (columns : Z) (alphabet : Alphabet) (σ : Heap) :
  0 <= columns ->
  exists (ls : list loc) σ',
    NewProfileAlphabet columns alphabet σ = (Ok (mkProfile (Some <$> ls) alphabet), σ') /\
    length ls = Z.to_nat columns /\ NoDup ls /\
    (forall l, l ∈ ls -> σ !! l = None /\
       σ' !! l = Some (OEProbs (foldl (fun m r => <[r := MinProb]> m) ∅ alphabet))) /\
    (forall l, l ∉ ls -> σ' !! l = σ !! l).
Proof.
  intros Hc. unfold NewProfileAlphabet. destruct (Z.ltb_spec columns 0); [lia|].
  destruct (new_columns_run _ _ (NewEProbs_run alphabet) (Z.to_nat columns) σ)
    as (ls & σ' & Run & Hlen & Hnd & Hnew & Hold).
  exists ls, σ'. split; [by erewrite bind_ok; [|exact Run]|]. auto.
Qed.

(** X3. However a call of [NewProfileAlphabet] ends. A negative number
    of columns makes it panic. A panic is the one of [make], raised before
    anything is made: the store is as it was. A profile that it returns has
    that many columns over the alphabet; its columns are distinct new
    tables with every emission of the alphabet at [MinProb] and no other
    entry, and nothing that was in the store has changed. For which numbers
    of columns [make] returns is left to the run time. *)
Theorem NewProfileAlphabet_min (columns : Z) (alphabet : Alphabet) (σ : Heap)
    (x : Res Profile) (σ' : Heap) :
  NewProfileAlphabet columns alphabet σ = (x, σ') ->
  (columns < 0 -> x = Panicked RuntimeMakeSlice) /\
  (forall q, x = Panicked q -> q = RuntimeMakeSlice /\ σ' = σ) /\
  (forall p, x = Ok p ->
     0 <= columns /\ Profile_Len p = columns /\ Profile_Alphabet p = alphabet /\
     NoDup (Profile_Emissions p) /\ σ ⊆ σ' /\
     (forall e, e ∈ Profile_Emissions p -> exists l, e = Some l /\ σ !! l = None) /\
     forall (c : nat) r, Z.of_nat c < columns ->
       Profile_emission σ' p c r = if decide (r ∈ alphabet) then Some MinProb else None).
Proof.
  intros Run. destruct (Z.ltb_spec columns 0) as [Hneg|Hpos].
  - unfold NewProfileAlphabet in Run.
    destruct (Z.ltb_spec columns 0); [|lia]. injection Run as <- <-.
    split; [reflexivity|]. split; [by intros q [= <-] | intros p [=]].
  - destruct (NewProfileAlphabet_run columns alphabet σ Hpos)
      as (ls & σ0 & Run0 & Hlen & Hnd & Hnew & Hold).
    rewrite Run0 in Run. injection Run as <- <-.
    split; [lia|]. split; [intros q [=]|]. intros p [= <-].
    split; [assumption|].
    split; [unfold Profile_Len; simpl; rewrite length_fmap; lia|].
    split; [reflexivity|].
    split; [simpl; apply NoDup_fmap; [intros ?? [=] |]; assumption|].
    split.
    { apply map_subseteq_spec. intros l o Hl. rewrite Hold; [assumption|].
      intros Hin. destruct (Hnew l Hin). congruence. }
    split.
    { simpl. intros e (l & -> & Hl)%list_elem_of_fmap. exists l. split; [reflexivity|].
      apply Hnew, Hl. }
    intros c r Hlt. unfold Profile_emission. simpl. rewrite list_lookup_fmap.
    destruct (lookup_lt_is_Some_2 ls c ltac:(lia)) as [l Hl]. rewrite Hl. simpl.
    destruct (Hnew l) as [_ E]; [by eapply list_elem_of_lookup_2|]. rewrite E.
    by rewrite (foldl_insert_lookup (fun _ => MinProb)), lookup_empty.
Qed.

Lemma NewProfileAlphabet_min_witness :
  exists σ',
    NewProfileAlphabet 3 ["A"; "C"]%char ∅ =
      (Ok (mkProfile [Some 1%positive; Some 2%positive; Some 3%positive] ["A"; "C"]%char), σ') /\
    Profile_emission σ'
      (mkProfile [Some 1%positive; Some 2%positive; Some 3%positive] ["A"; "C"]%char)
      2 "C"%char = Some MinProb.
Proof.
  set (p := mkProfile [Some 1%positive; Some 2%positive; Some 3%positive] ["A"; "C"]%char).
  set (run := NewProfileAlphabet 3 ["A"; "C"]%char ∅).
  assert (E : run = (Ok p, run.2)).
  { apply (run_pair (NewProfileAlphabet _ _)). vm_compute. reflexivity. }
  destruct (NewProfileAlphabet_min _ _ _ _ _ E) as (_ & _ & Hok).
  destruct (Hok p eq_refl) as (_ & _ & _ & _ & _ & _ & Hem).
  exists run.2. split; [exact E|].
  rewrite (Hem 2%nat "C"%char ltac:(lia)). reflexivity.
Defined.

(** ** What [Add] writes to *)

(** What every iteration of a loop preserves, the loop preserves, also when
    it ends by a panic. *)
Lemma for_each_preserves {A} (P : Heap -> Prop) (l : list A) (f : A -> M unit) :
  (forall x σ1 r σ2, x ∈ l -> f x σ1 = (r, σ2) -> P σ1 -> P σ2) ->
  forall σ r σ', for_each l f σ = (r, σ') -> P σ -> P σ'.
Proof.
  induction l as [|x l IH]; intros Hf σ r σ'; simpl.
  - by intros [= <- <-].
  - unfold mbind, M_bind. destruct (f x σ) as [[[]|p] σ1] eqn:E.
    + intros Run HP. eapply IH; [|exact Run|].
      * intros y σa ra σb Hy. apply Hf. by apply elem_of_cons; right.
      * eapply Hf; [apply list_elem_of_here | exact E | exact HP].
    + intros [= <- <-] HP. eapply Hf; [apply list_elem_of_here | exact E | exact HP].
Qed.

Lemma index_inv {A} (l : list A) (i : Z) (σ : Heap) (r : Res A) (σ' : Heap) :
  index l i σ = (r, σ') ->
  σ' = σ /\ ((exists x, r = Ok x /\ x ∈ l) \/ r = Panicked RuntimeIndex).
Proof.
  unfold index. destruct (i <? 0); [intros [= <- <-]; auto|].
  destruct (l !! Z.to_nat i) as [x|] eqn:E; intros [= <- <-]; [|auto].
  split; [reflexivity|]. left. exists x. split; [reflexivity|]. by eapply list_elem_of_lookup_2.
Qed.

Lemma freqs_set_inv (col : ref) (r : Residue) (v : Z) (σ : Heap) (x : Res unit) (σ' : Heap) :
  freqs_set col r v σ = (x, σ') ->
  σ' = σ \/ exists l m, col = Some l /\ σ !! l = Some (OFreqs m) /\
                        σ' = <[l := OFreqs (<[r := v]> m)]> σ.
Proof.
  unfold freqs_set. destruct col as [l|]; [|intros [= <- <-]; auto].
  destruct (σ !! l) as [[| | |m]|] eqn:E; intros [= <- <-]; eauto 8.
Qed.

Section add_frame.
Variables (σ : Heap) (fp : FrequencyProfile) (s : Sequence).

Lemma same_keys_refl : same_keys (FP_Freqs fp) σ σ.
Proof.
  intros l. split; [done|]. destruct (σ !! l) as [[| | |m]|]; eauto.
Qed.

Lemma same_keys_set (σk : Heap) (l : loc) (m : gmap Residue Z) (r : Residue) (v : Z) :
  same_keys (FP_Freqs fp) σ σk -> Some l ∈ FP_Freqs fp ->
  σk !! l = Some (OFreqs m) -> is_Some (m !! r) ->
  same_keys (FP_Freqs fp) σ (<[l := OFreqs (<[r := v]> m)]> σk).
Proof.
  intros Hk Hin Hl Hr l'. destruct (Hk l') as [Hout Hat].
  destruct (decide (l = l')) as [<-|Hne].
  - split; [done|]. rewrite lookup_insert_eq.
    destruct (σ !! l) as [[| | |m0]|]; try congruence.
    destruct Hat as (m' & E & Hdom). eexists. split; [reflexivity|].
    replace m' with m in Hdom by congruence. rewrite <- Hdom.
    apply dom_insert_lookup_L, Hr.
  - by rewrite lookup_insert_ne.
Qed.

Lemma Add_column_same_keys (column : Z) (σ1 : Heap) (x : Res unit) (σ2 : Heap) :
  Add_column fp s column σ1 = (x, σ2) ->
  same_keys (FP_Freqs fp) σ σ1 -> same_keys (FP_Freqs fp) σ σ2.
Proof.
  unfold Add_column. unfold mbind at 1, M_bind at 1.
  destruct (index (Seq_Residues s) column σ1) as [r0 σa] eqn:E1.
  apply index_inv in E1 as [-> Hr0].
  destruct r0 as [r|p]; [|by intros [= <- <-]].
  unfold mbind at 1, M_bind at 1.
  destruct (index (FP_Freqs fp) column σ1) as [c0 σa] eqn:E2.
  apply index_inv in E2 as [-> Hc0].
  destruct c0 as [col|p]; [|by intros [= <- <-]].
  destruct Hc0 as [(col' & [= <-] & Hcol)|]; [|discriminate].
  unfold mbind at 1, M_bind at 1. unfold freqs_lookup at 1.
  assert (Hset : forall r' v,
            is_Some (freqs_at σ1 col !! r') -> freqs_set col r' v σ1 = (x, σ2) ->
            same_keys (FP_Freqs fp) σ σ1 -> same_keys (FP_Freqs fp) σ σ2).
  { intros r' v Hr' Run Hk.
    apply freqs_set_inv in Run as [->|(l & m & -> & Hl & ->)]; [assumption|].
    unfold freqs_at in Hr'. rewrite Hl in Hr'. by apply same_keys_set. }
  destruct (freqs_at σ1 col !! r) as [n|] eqn:Hn.
  { apply Hset. by rewrite Hn. }
  unfold mbind at 1, M_bind at 1. unfold freqs_lookup at 1.
  destruct (freqs_at σ1 col !! "X"%char) as [n|] eqn:HX.
  { apply Hset. by rewrite HX. }
  by intros [= <- <-].
Qed.

Lemma Add_same_keys (x : Res unit) (σ' : Heap) :
  Add fp s σ = (x, σ') -> same_keys (FP_Freqs fp) σ σ'.
Proof.
  unfold Add. destruct (decide _); [intros [= <- <-]; apply same_keys_refl|].
  intros Run.
  eapply (for_each_preserves (same_keys (FP_Freqs fp) σ)); [|exact Run | apply same_keys_refl].
  intros column σ1 r σ2 _. apply Add_column_same_keys.
Qed.

End add_frame.

Lemma same_keys_dom (cols : list ref) (σ σ' : Heap) : same_keys cols σ σ' -> dom σ' = dom σ.
Proof.
  intros Hk. apply set_eq. intros l. rewrite !elem_of_dom.
  destruct (Hk l) as [_ Hat].
  destruct (σ !! l) as [[| | |m]|] eqn:E.
  1-3: by rewrite Hat.
  - destruct Hat as (m' & -> & _). split; eauto.
  - by rewrite Hat.
Qed.

(** X4. Whatever its outcome, [Add] makes no object and writes to the
    columns of the profile only: any other object of the store is as it
    was, a column is still a map of counts, and it has the keys it had
    ([Add] adds no key, it only changes counts). *)
Theorem Add_writes_counts_only (σ : Heap) (fp : FrequencyProfile) (s : Sequence)
    (x : Res unit) (σ' : Heap) :
  Add fp s σ = (x, σ') ->
  dom σ' = dom σ /\
  (forall l, Some l ∉ FP_Freqs fp -> σ' !! l = σ !! l) /\
  (forall l m, σ !! l = Some (OFreqs m) ->
     exists m', σ' !! l = Some (OFreqs m') /\ dom m' = dom m) /\
  (forall c r, is_Some (freqs_at σ' c !! r) <-> is_Some (freqs_at σ c !! r)).
Proof.
  intros Run. pose proof (Add_same_keys σ fp s x σ' Run) as Hk.
  split; [by eapply same_keys_dom|].
  split; [intros l; apply (Hk l)|].
  split.
  - intros l m Hl. destruct (Hk l) as [_ Hat]. by rewrite Hl in Hat.
  - intros [l|] r; [|done]. unfold freqs_at.
    destruct (Hk l) as [_ Hat].
    destruct (σ !! l) as [[| | |m]|] eqn:E; try (by rewrite Hat).
    destruct Hat as (m' & -> & Hdom). by rewrite <- !elem_of_dom, Hdom.
Qed.

Lemma Add_writes_counts_only_witness :
  exists σ',
    Add ex_fp (mkSequence "s" ["A"; "G"]%char) ex_counts =
      (Panicked (PanicUnrecognized "G" ["A"; "C"]%char), σ') /\
    dom σ' = dom ex_counts /\ σ' !! 3%positive = ex_counts !! 3%positive.
Proof.
  set (run := Add ex_fp (mkSequence "s" ["A"; "G"]%char) ex_counts).
  assert (E : run = (Panicked (PanicUnrecognized "G" ["A"; "C"]%char), run.2)).
  { apply (run_pair (Add _ _)). vm_compute. reflexivity. }
  destruct (Add_writes_counts_only _ _ _ _ _ E) as (Hdom & Hout & _).
  exists run.2. split; [exact E|]. split; [exact Hdom|].
  apply Hout. vm_compute.
  intros H. repeat (apply elem_of_cons in H as [H|H]; [discriminate|]).
  by apply not_elem_of_nil in H.
Defined.

(** ** Totals and counts after [Add] *)

Lemma same_keys_wf (σ σ' : Heap) (fp : FrequencyProfile) :
  wf_fp σ fp -> same_keys (FP_Freqs fp) σ σ' -> wf_fp σ' fp.
Proof.
  intros [Hnd Hobj] Hk. split; [assumption|]. intros c Hc.
  destruct (Hobj c Hc) as (l & m & -> & Hl & Hdom).
  destruct (Hk l) as [_ Hat]. rewrite Hl in Hat. destruct Hat as (m' & Hl' & Hd).
  exists l, m'. split; [reflexivity|]. split; [assumption|].
  intros r. rewrite <- Hdom, <- !elem_of_dom, Hd. reflexivity.
Qed.

(** A run of [Add] that ends well: the lengths agree, every residue is
    counted, and every column has got the residue at its position. *)
Lemma Add_ok_inv (σ : Heap) (fp : FrequencyProfile) (s : Sequence) (σ' : Heap) :
  wf_fp σ fp -> Add fp s σ = (Ok tt, σ') ->
  FP_Len fp = Seq_Len s /\
  (forall r, r ∈ Seq_Residues s -> is_Some (counted (FP_Alphabet fp) r)) /\
  wf_fp σ' fp /\
  forall (c : nat) col, FP_Freqs fp !! c = Some col ->
    exists l m r, col = Some l /\ Seq_Residues s !! c = Some r /\
      σ !! l = Some (OFreqs m) /\
      (forall r, is_Some (m !! r) <-> r ∈ FP_Alphabet fp) /\
      σ' !! l = Some (OFreqs (add_to (FP_Alphabet fp) r m)).
Proof.
  intros Hwf Run. pose proof (Add_same_keys _ _ _ _ _ Run) as Hk.
  unfold Add in Run. destruct (decide (FP_Len fp <> Seq_Len s)) as [|Hlen]; [discriminate|].
  apply dec_stable in Hlen. pose proof (Add_lengths _ _ Hlen) as Hlen'.
  destruct (Add_loop σ fp s Hwf (length (FP_Freqs fp)) ltac:(lia) ltac:(lia))
    as [(σk & Runk & [Hcols Hrest] & Hgood) | (j & r & σj & Hj & Hr & Hbad & _ & Runk & _)].
  2:{ unfold FP_Len in Run. rewrite Runk in Run. discriminate. }
  unfold FP_Len in Run. rewrite Runk in Run. injection Run as <-.
  split; [assumption|]. split.
  { intros r Hin. destruct (proj1 (list_elem_of_lookup _ _) Hin) as [c Hc].
    apply (Hgood c); [apply lookup_lt_Some in Hc; lia | assumption]. }
  split; [by eapply same_keys_wf|].
  intros c col Hcol. destruct Hwf as [Hnd Hobj].
  destruct (Hobj col) as (l & m & -> & Hl & Hdom); [by eapply list_elem_of_lookup_2|].
  destruct (lookup_lt_is_Some_2 (Seq_Residues s) c) as [r Hr];
    [apply lookup_lt_Some in Hcol; lia|].
  exists l, m, r. repeat (split; [done|]).
  rewrite (Hcols c l m Hcol Hl), decide_True, Hr; [reflexivity|].
  by apply lookup_lt_Some in Hcol.
Qed.

(** [Add] ends well when the lengths agree and every residue is counted. *)
Lemma Add_ok (σ : Heap) (fp : FrequencyProfile) (s : Sequence) :
  wf_fp σ fp -> FP_Len fp = Seq_Len s ->
  (forall r, r ∈ Seq_Residues s -> is_Some (counted (FP_Alphabet fp) r)) ->
  exists σ', Add fp s σ = (Ok tt, σ').
Proof.
  intros Hwf Hlen Hgood. pose proof (Add_lengths _ _ Hlen) as Hlen'.
  unfold Add. rewrite decide_False by (intros H; by apply H).
  destruct (Add_loop σ fp s Hwf (length (FP_Freqs fp)) ltac:(lia) ltac:(lia))
    as [(σ' & Run & _) | (j & r & σj & Hj & Hr & Hbad & _)].
  - by exists σ'.
  - destruct (Hgood r) as [x Hx]; [by eapply list_elem_of_lookup_2 | congruence].
Qed.

Lemma add_to_lookup (alphabet : Alphabet) (r r' : Residue) (m : gmap Residue Z) :
  (forall r, is_Some (m !! r) <-> r ∈ alphabet) ->
  add_to alphabet r m !! r' =
    if decide (counted alphabet r = Some r') then (fun n => int_add n 1) <$> m !! r'
    else m !! r'.
Proof.
  intros Hdom. unfold add_to.
  destruct (counted alphabet r) as [r''|] eqn:Hcnt.
  - destruct (decide (Some r'' = Some r')) as [[= ->]|Hne].
    + rewrite lookup_insert_eq.
      apply counted_in, Hdom in Hcnt. destruct Hcnt as [n Hn]. by rewrite Hn.
    + rewrite lookup_insert_ne; [reflexivity | congruence].
  - by rewrite decide_False.
Qed.

Lemma wrap64_add_r (a b : Z) : wrap64 (a + wrap64 b) = wrap64 (a + b).
Proof. by rewrite Z.add_comm, wrap64_add_l, Z.add_comm. Qed.

Lemma column_sum_insert (m : gmap Residue Z) (r : Residue) (n v : Z) :
  m !! r = Some n -> column_sum (<[r := v]> m) = column_sum m - n + v.
Proof.
  intros Hr. unfold column_sum.
  rewrite <- (insert_delete_eq m r v).
  rewrite map_fold_insert_L; [|intros; lia | apply lookup_delete_eq].
  rewrite (map_fold_delete_L _ _ r n m); [lia | intros; lia | assumption].
Qed.

(** Changing one count of a column from [n] to [v] changes the total by
    [v - n], in the arithmetic of [int]. *)
Lemma column_total_insert (m : gmap Residue Z) (r : Residue) (n v : Z) :
  m !! r = Some n -> column_total (<[r := v]> m) = wrap64 (column_total m - n + v).
Proof.
  intros Hr. rewrite !column_total_sum. fold (column_sum (<[r := v]> m)). fold (column_sum m).
  rewrite (column_sum_insert m r n v Hr).
  replace (wrap64 (column_sum m) - n + v) with (wrap64 (column_sum m) + (v - n)) by lia.
  rewrite wrap64_add_l. f_equal. lia.
Qed.

(** X5. A run of [Add] that ends well raises the total of every column of
    the profile, as [freqTotal] computes it, by exactly one (in the
    arithmetic of [int]): each column has got one residue. *)
Theorem Add_total (σ : Heap) (fp : FrequencyProfile) (s : Sequence) (σ' : Heap) :
  wf_fp σ fp -> Add fp s σ = (Ok tt, σ') ->
  forall col, col ∈ FP_Freqs fp ->
    exists tot, freqTotal col σ = (Ok tot, σ) /\
                freqTotal col σ' = (Ok (int_add tot 1), σ').
Proof.
  intros Hwf Run col Hin.
  destruct (Add_ok_inv _ _ _ _ Hwf Run) as (_ & Hgood & _ & Hcols).
  destruct (proj1 (list_elem_of_lookup _ _) Hin) as [c Hc].
  destruct (Hcols c col Hc) as (l & m & r & -> & Hr & Hl & Hdom & Hl').
  eexists. split; [reflexivity|].
  unfold freqTotal, freqs_at. rewrite Hl, Hl'. f_equal. f_equal.
  destruct (Hgood r) as [r' Hcnt]; [by eapply list_elem_of_lookup_2|].
  unfold add_to. rewrite Hcnt.
  destruct (proj2 (Hdom r') (counted_in _ _ _ Hcnt)) as [n Hn].
  rewrite Hn. simpl. rewrite (column_total_insert m r' n _ Hn).
  unfold int_add.
  replace (column_total m - n + wrap64 (n + 1)) with ((column_total m - n) + wrap64 (n + 1)) by lia.
  rewrite wrap64_add_r. f_equal. lia.
Qed.

Lemma two_keys (a c : Z) (r : Residue) :
  is_Some ((<["A"%char := a]> (<["C"%char := c]> (∅ : gmap Residue Z))) !! r) <->
  r ∈ ["A"; "C"]%char.
Proof.
  rewrite !lookup_insert_is_Some, lookup_empty, !elem_of_cons, elem_of_nil.
  split.
  - intros [->|[_ [->|[_ []%is_Some_None]]]]; auto.
  - intros [->|[->|[]]]; [by left|]. right. split; [done|]. by left.
Qed.

Lemma ex_counts_wf : wf_fp ex_counts ex_fp.
Proof.
  split.
  - simpl. apply NoDup_cons. split; [|apply NoDup_singleton].
    intros H. apply list_elem_of_singleton in H. discriminate.
  - intros c Hc. simpl in Hc.
    apply elem_of_cons in Hc as [->|Hc]; [|apply list_elem_of_singleton in Hc as ->].
    + eexists _, _. split; [reflexivity|]. split; [reflexivity|]. apply two_keys.
    + eexists _, _. split; [reflexivity|]. split; [reflexivity|]. apply two_keys.
Qed.

Lemma Add_total_witness :
  exists σ',
    Add ex_fp (mkSequence "s" ["C"; "C"]%char) ex_counts = (Ok tt, σ') /\
    freqTotal (Some 1%positive) ex_counts = (Ok 4, ex_counts) /\
    freqTotal (Some 1%positive) σ' = (Ok 5, σ').
Proof.
  set (run := Add ex_fp (mkSequence "s" ["C"; "C"]%char) ex_counts).
  assert (E : run = (Ok tt, run.2)).
  { apply (run_pair (Add _ _)). vm_compute. reflexivity. }
  assert (Hwf : wf_fp ex_counts ex_fp) by apply ex_counts_wf.
  destruct (Add_total _ _ _ _ Hwf E (Some 1%positive)) as (tot & E1 & E2).
  { vm_compute. apply list_elem_of_here. }
  exists run.2. split; [exact E|].
  assert (tot = 4) as -> by (vm_compute in E1; congruence).
  split; [exact E1 | exact E2].
Defined.

Lemma wrap64_is_int (z : Z) : is_int (wrap64 z).
Proof.
  unfold is_int, wrap64.
  pose proof (Z.mod_pos_bound (z + 2 ^ 63) (2 ^ 64) ltac:(lia)). lia.
Qed.

(** X6. A profile is built by adding sequences one after the other. When
    every sequence has the length of the profile and only residues that
    are counted, all the calls of [Add] end well, the profile stays well
    formed, and a count that was [n] has grown by the number of sequences
    whose residue in that column is counted as that residue (in the
    arithmetic of [int]); so the counts do not depend on the order of the
    sequences. *)
Theorem Add_all (σ : Heap) (fp : FrequencyProfile) (ss : list Sequence) :
  wf_fp σ fp ->
  (forall s, s ∈ ss ->
     FP_Len fp = Seq_Len s /\
     forall r, r ∈ Seq_Residues s -> is_Some (counted (FP_Alphabet fp) r)) ->
  exists σ',
    for_each ss (Add fp) σ = (Ok tt, σ') /\ wf_fp σ' fp /\
    forall (column : nat) (r' : Residue) (n : Z),
      FP_count σ fp column r' = Some n -> is_int n ->
      FP_count σ' fp column r' =
        Some (wrap64 (n + occurrences (FP_Alphabet fp) ss column r')).
Proof.
  revert σ. induction ss as [|s ss IH]; intros σ Hwf Hss.
  - exists σ. split; [reflexivity|]. split; [assumption|].
    intros column r' n Hn Hint. simpl. by rewrite Z.add_0_r, wrap64_id.
  - destruct (Hss s) as [Hlen Hgood]; [apply list_elem_of_here|].
    destruct (Add_ok σ fp s Hwf Hlen Hgood) as (σ1 & Run1).
    destruct (Add_ok_inv _ _ _ _ Hwf Run1) as (_ & _ & Hwf1 & Hcols).
    destruct (IH σ1 Hwf1) as (σ' & Run & Hwf' & Hcount).
    { intros s' Hs'. apply Hss. by apply elem_of_cons; right. }
    exists σ'. split; [simpl; by rewrite (bind_ok _ _ _ _ _ Run1)|].
    split; [assumption|].
    intros column r' n Hn Hint. unfold FP_count in Hn.
    destruct (FP_Freqs fp !! column) as [col|] eqn:Hcol; [|discriminate].
    destruct (Hcols column col Hcol) as (l & m & r & -> & Hr & Hl & Hdom & Hl1).
    unfold freqs_at in Hn. rewrite Hl in Hn.
    assert (H1 : FP_count σ1 fp column r' =
                 Some (if decide (counted (FP_Alphabet fp) r = Some r') then int_add n 1 else n)).
    { unfold FP_count, freqs_at. rewrite Hcol, Hl1, (add_to_lookup _ _ _ _ Hdom), Hn.
      by destruct (decide _). }
    rewrite (Hcount column r' _ H1).
    2:{ destruct (decide _); [apply wrap64_is_int | assumption]. }
    f_equal. simpl. rewrite Hr. simpl.
    destruct (decide (counted (FP_Alphabet fp) r = Some r')).
    + unfold int_add. rewrite wrap64_add_l. f_equal. lia.
    + reflexivity.
Qed.

Lemma Add_all_witness :
  exists σ',
    for_each [mkSequence "s" ["A"; "C"]%char; mkSequence "t" ["C"; "C"]%char;
              mkSequence "u" ["A"; "A"]%char] (Add ex_fp) ex_counts = (Ok tt, σ') /\
    FP_count σ' ex_fp 0 "A"%char = Some 5 /\ FP_count σ' ex_fp 1 "C"%char = Some 4.
Proof.
  destruct (Add_all ex_counts ex_fp
              [mkSequence "s" ["A"; "C"]%char; mkSequence "t" ["C"; "C"]%char;
               mkSequence "u" ["A"; "A"]%char] ex_counts_wf) as (σ' & Run & _ & Hcount).
  { intros s Hs. split.
    - repeat (apply elem_of_cons in Hs as [->|Hs]; [reflexivity|]).
      by apply not_elem_of_nil in Hs.
    - intros r Hr. assert (r ∈ ["A"; "C"]%char) as Hin.
      { repeat (apply elem_of_cons in Hs as [->|Hs];
                [simpl in Hr; rewrite !elem_of_cons, elem_of_nil in Hr;
                 rewrite !elem_of_cons; tauto|]).
        by apply not_elem_of_nil in Hs. }
      unfold counted. simpl. rewrite decide_True by assumption. by eexists. }
  exists σ'. split; [exact Run|]. split.
  - apply (Hcount 0%nat "A"%char 3); [reflexivity | apply is_int_small; lia].
  - apply (Hcount 1%nat "C"%char 2); [reflexivity | apply is_int_small; lia].
Defined.

(** ** The total of a column *)

Lemma freqTotal_loop_foldr (entries : list (Residue * Z)) :
  freqTotal_loop entries =
  foldr (uncurry (fun (_ : Residue) freq tot => int_add tot freq)) 0 (reverse entries).
Proof.
  unfold freqTotal_loop. induction entries as [|kv entries IH] using rev_ind.
  - reflexivity.
  - rewrite foldl_app, reverse_snoc. simpl. rewrite IH. by destruct kv.
Qed.

(** X7. Go visits the entries of a map in an order that is not specified.
    In whatever order the loop of [freqTotal] visits the entries of the
    column, it computes the value that [freqTotal] returns: the sum of the
    counts, wrapped to the 64 bits of an [int]. *)
Theorem freqTotal_any_order (σ : Heap) (column : ref) (entries : list (Residue * Z)) :
  entries ≡ₚ map_to_list (freqs_at σ column) ->
  freqTotal column σ = (Ok (freqTotal_loop entries), σ) /\
  freqTotal_loop entries = wrap64 (column_sum (freqs_at σ column)).
Proof.
  intros Hperm.
  assert (E : freqTotal_loop entries = column_total (freqs_at σ column)).
  { rewrite freqTotal_loop_foldr. apply column_total_any_order.
    by rewrite reverse_Permutation. }
  split.
  - unfold freqTotal. by rewrite E.
  - rewrite E. apply column_total_sum.
Qed.

Lemma freqTotal_any_order_witness :
  freqTotal (Some 1%positive) ex_counts =
    (Ok (freqTotal_loop [("C"%char, 1); ("A"%char, 3)]), ex_counts) /\
  freqTotal (Some 1%positive) ex_counts =
    (Ok (freqTotal_loop [("A"%char, 3); ("C"%char, 1)]), ex_counts).
Proof.
  assert (E : map_to_list (freqs_at ex_counts (Some 1%positive)) ≡ₚ
              [("A"%char, 3); ("C"%char, 1)]).
  { apply NoDup_Permutation.
    - apply NoDup_map_to_list.
    - apply NoDup_cons. split; [|apply NoDup_singleton].
      intros H. apply list_elem_of_singleton in H. discriminate.
    - intros [r n]. rewrite elem_of_map_to_list.
      change (freqs_at ex_counts (Some 1%positive))
        with (<["A"%char := 3]> (<["C"%char := 1]> (∅ : gmap Residue Z))).
      rewrite !lookup_insert_Some, lookup_empty, !elem_of_cons, elem_of_nil.
      split.
      + intros [[<- <-]|[? [[<- <-]|[? [=]]]]]; auto.
      + intros [[= -> ->]|[[= -> ->]|[]]]; [by left|]. right. split; [done|]. by left. }
  split.
  - apply (freqTotal_any_order ex_counts (Some 1%positive)).
    rewrite E. apply perm_swap.
  - apply (freqTotal_any_order ex_counts (Some 1%positive)). by rewrite E.
Defined.

(** ** [Profile]: what it makes, when it fails, empty columns *)

Lemma bind_ok_inv {A B} (m : M A) (f : A -> M B) (σ : Heap) (b : B) (σ' : Heap) :
  (m ≫= f) σ = (Ok b, σ') -> exists a σ1, m σ = (Ok a, σ1) /\ f a σ1 = (Ok b, σ').
Proof.
  unfold mbind, M_bind. destruct (m σ) as [[a|p] σ1]; [eauto | discriminate].
Qed.

(** The profile that [Profile] returns is the one that its call of
    [NewProfileAlphabet] has made. *)
Lemma Profile_columns_new `{GoLib} (σ : Heap) (fp null : FrequencyProfile) (p : Profile)
    (σ' : Heap) :
  FP_Profile fp null σ = (Ok p, σ') ->
  exists σ1, NewProfileAlphabet (FP_Len fp) (FP_Alphabet fp) σ = (Ok p, σ1).
Proof.
  unfold FP_Profile. destruct (decide _); [discriminate|].
  destruct (negb _); [discriminate|].
  intros Run.
  apply bind_ok_inv in Run as (p1 & σ1 & Run1 & Run).
  apply bind_ok_inv in Run as (null0 & σ2 & _ & Run).
  apply bind_ok_inv in Run as (nulltot & σ3 & _ & Run).
  apply bind_ok_inv in Run as (nullemit & σ4 & _ & Run).
  apply bind_ok_inv in Run as ([] & σ5 & _ & Run).
  injection Run as <- <-. eauto.
Qed.

Lemma tables_added_subseteq (σ : Heap) (ls : list loc) (σ' : Heap) :
  tables_added σ ls σ' -> σ ⊆ σ'.
Proof.
  intros [Hold Hnew]. apply map_subseteq_spec. intros l o Hl.
  rewrite Hold; [assumption|]. intros Hin. destruct (Hnew l Hin). congruence.
Qed.

(** The emission that [Profile] has written, by [cell_value]. *)
Lemma Profile_cell_value `{GoLib} (σ : Heap) (fp null : FrequencyProfile) (null0 : ref) :
  FP_Freqs null = [null0] -> FP_Alphabet fp = FP_Alphabet null ->
  exists p σ',
    FP_Profile fp null σ = (Ok p, σ') /\
    Profile_Len p = FP_Len fp /\ σ ⊆ σ' /\
    forall (column : nat) (col : ref) (r : Residue),
      FP_Freqs fp !! column = Some col -> r ∈ FP_Alphabet fp ->
      Profile_emission σ' p column r =
        Some (cell_value σ null0 (null_table σ null null0) col
                (column_total (freqs_at σ col)) r).
Proof.
  intros Hnull Halpha.
  destruct (Profile_run σ fp null null0 Hnull Halpha) as (ls & σ' & Run & Hls & Hadd & Htab).
  eexists _, σ'. split; [exact Run|].
  split; [unfold Profile_Len, FP_Len; simpl; rewrite length_fmap; lia|].
  split; [by eapply tables_added_subseteq|].
  intros column col r Hcol Hr.
  destruct (lookup_lt_is_Some_2 ls column) as [l Hl];
    [rewrite Hls; by eapply lookup_lt_Some|].
  unfold Profile_emission. simpl. rewrite list_lookup_fmap, Hl. simpl. rewrite (Htab column l Hl).
  unfold column_table. rewrite Hcol. simpl.
  by rewrite (foldl_insert_lookup (cell_value σ null0 (null_table σ null null0) col _)),
    decide_True by assumption.
Qed.

(** X8. A run of [Profile] that passes its two checks makes one new
    emission table per column, at distinct locations that held nothing,
    and writes to these tables only: every object that was in the store,
    the counts of both profiles among them, is as it was. The keys of each
    new table are the residues of the alphabet. *)
Theorem Profile_new_tables `{GoLib} (σ : Heap) (fp null : FrequencyProfile) :
  FP_Len null = 1 -> FP_Alphabet fp = FP_Alphabet null ->
  exists (ls : list loc) (σ' : Heap),
    FP_Profile fp null σ = (Ok (mkProfile (Some <$> ls) (FP_Alphabet fp)), σ') /\
    length ls = length (FP_Freqs fp) /\ NoDup ls /\
    σ ⊆ σ' /\
    (forall l, l ∉ ls -> σ' !! l = σ !! l) /\
    (forall c, freqs_at σ' c = freqs_at σ c) /\
    forall l, l ∈ ls ->
      σ !! l = None /\
      exists m, σ' !! l = Some (OEProbs m) /\
                forall r, is_Some (m !! r) <-> r ∈ FP_Alphabet fp.
Proof.
  intros Hlen Halpha. destruct (FP_Len_1 null Hlen) as [null0 Hnull].
  destruct (Profile_run σ fp null null0 Hnull Halpha) as (ls & σ' & Run & Hls & Hadd & Htab).
  exists ls, σ'. split; [exact Run|]. split; [exact Hls|].
  split.
  { destruct (Profile_columns_new _ _ _ _ _ Run) as (σ1 & Run1).
    destruct (NewProfileAlphabet_run (FP_Len fp) (FP_Alphabet fp) σ)
      as (ls0 & σ0 & Run0 & _ & Hnd & _); [unfold FP_Len; lia|].
    rewrite Run0 in Run1. injection Run1 as E _.
    apply (inj (fmap Some)) in E. by rewrite <- E. }
  split; [by eapply tables_added_subseteq|].
  split; [apply Hadd|].
  split; [intros c; by eapply freqs_at_stable|].
  intros l Hin. destruct Hadd as [_ Hnew]. split; [apply Hnew, Hin|].
  destruct (proj1 (list_elem_of_lookup _ _) Hin) as [c Hc].
  eexists. split; [apply (Htab c l Hc)|].
  intros r. unfold column_table. cbv zeta.
  rewrite (foldl_insert_lookup (cell_value σ null0 (null_table σ null null0) _ _)).
  destruct (decide (r ∈ FP_Alphabet fp)) as [Hr|Hr]; [split; eauto|].
  rewrite (foldl_insert_lookup (fun _ => MinProb)), decide_False, lookup_empty by assumption.
  split; [intros []%is_Some_None | done].
Qed.

Lemma Profile_new_tables_witness :
  exists ls σ',
    @FP_Profile sample_lib ex_fp ex_null ex_counts =
      (Ok (mkProfile (Some <$> ls) ["A"; "C"]%char), σ') /\
    length ls = 2%nat /\ ex_counts ⊆ σ'.
Proof.
  destruct (@Profile_new_tables sample_lib ex_counts ex_fp ex_null eq_refl eq_refl)
    as (ls & σ' & Run & Hlen & _ & Hsub & _).
  exists ls, σ'. split; [exact Run|]. split; [exact Hlen | exact Hsub].
Defined.

(** X9. [Profile] panics in two cases only, and then before anything is
    made or written: when the background has not exactly one column, with
    the panic on the number of columns (also when the alphabets differ as
    well: this check comes first), and when it has one column and the
    alphabets differ, with the panic on the alphabets. No run-time panic on
    an index or a missing map can come out of it. *)
Theorem Profile_panics `{GoLib} (σ : Heap) (fp null : FrequencyProfile) (p : Panic) (σ' : Heap) :
  FP_Profile fp null σ = (Panicked p, σ') <->
  σ' = σ /\
  ((FP_Len null <> 1 /\ p = PanicNullColumns (FP_Len null)) \/
   (FP_Len null = 1 /\ FP_Alphabet fp <> FP_Alphabet null /\
    p = PanicAlphabet (FP_Alphabet fp) (FP_Alphabet null))).
Proof.
  split.
  - intros Run. split; [by eapply Profile_panic_unchanged|].
    destruct (decide (FP_Len null <> 1)) as [Hne|Heq].
    { left. unfold FP_Profile in Run. rewrite decide_True in Run by assumption.
      injection Run as <- _. auto. }
    apply dec_stable in Heq. right. split; [assumption|].
    destruct (decide (FP_Alphabet fp = FP_Alphabet null)) as [Halpha|Halpha].
    + destruct (FP_Len_1 null Heq) as [null0 Hnull].
      destruct (Profile_run σ fp null null0 Hnull Halpha) as (ls & σ1 & Run' & _).
      congruence.
    + split; [assumption|]. unfold FP_Profile, Alphabet_Equals in Run.
      rewrite decide_False, bool_decide_eq_false_2 in Run by (assumption || lia).
      by injection Run as <- _.
  - intros [-> [[Hne ->]|(Hlen & Halpha & ->)]]; unfold FP_Profile.
    + by rewrite decide_True.
    + unfold Alphabet_Equals.
      by rewrite decide_False, bool_decide_eq_false_2 by (assumption || lia).
Qed.

(** ** Totals that are zero *)

Lemma column_sum_nonneg (m : gmap Residue Z) :
  (forall r n, m !! r = Some n -> 0 <= n) -> 0 <= column_sum m.
Proof.
  unfold column_sum.
  apply (map_fold_weak_ind (fun tot m => (forall r n, m !! r = Some n -> 0 <= n) -> 0 <= tot));
    [done|].
  intros r n m' tot Hr IH Hall.
  assert (0 <= n) by (apply (Hall r); apply lookup_insert_eq).
  assert (0 <= tot).
  { apply IH. intros r' n' Hr'. apply (Hall r'). rewrite lookup_insert_ne; [done | congruence]. }
  lia.
Qed.

(** With counts that are not negative, each count is at most the sum. *)
Lemma column_sum_bound (m : gmap Residue Z) (r : Residue) (n : Z) :
  (forall r n, m !! r = Some n -> 0 <= n) -> m !! r = Some n -> 0 <= n <= column_sum m.
Proof.
  intros Hall Hr. pose proof (Hall r n Hr).
  assert (0 <= column_sum (delete r m)).
  { apply column_sum_nonneg. intros r' n' [_ Hr']%lookup_delete_Some. by eapply Hall. }
  unfold column_sum in *.
  rewrite (map_fold_delete_L _ _ r n m); [lia | intros; lia | assumption].
Qed.

(** X10. When the counts of a column are not negative and their sum is
    below [2^63], as after less than [2^63] calls of [Add] on a new
    profile, the total that [freqTotal] gives is the sum, each count is at
    most the total, and a total of zero means that [Profile] writes
    [MinProb] for every residue of the alphabet in that column: where
    [Profile] divides by the total of a column, the total is positive. *)
Theorem Profile_zero_total `{GoLib} (σ : Heap) (fp null : FrequencyProfile)
    (column : nat) (col : ref) :
  FP_Len null = 1 -> FP_Alphabet fp = FP_Alphabet null ->
  FP_Freqs fp !! column = Some col ->
  (forall r n, freqs_at σ col !! r = Some n -> 0 <= n) ->
  column_sum (freqs_at σ col) < 2 ^ 63 ->
  exists p σ' tot,
    FP_Profile fp null σ = (Ok p, σ') /\
    freqTotal col σ = (Ok tot, σ) /\ tot = column_sum (freqs_at σ col) /\
    (forall r n, freqs_at σ col !! r = Some n -> 0 <= n <= tot) /\
    (tot = 0 -> forall r, r ∈ FP_Alphabet fp ->
       Profile_emission σ' p column r = Some MinProb).
Proof.
  intros Hlen Halpha Hcol Hpos Hsum. destruct (FP_Len_1 null Hlen) as [null0 Hnull].
  destruct (Profile_cell_value σ fp null null0 Hnull Halpha) as (p & σ' & Run & _ & _ & Hem).
  assert (Htot : column_total (freqs_at σ col) = column_sum (freqs_at σ col)).
  { rewrite column_total_sum. apply wrap64_id.
    pose proof (column_sum_nonneg _ Hpos). unfold is_int, column_sum in *. lia. }
  exists p, σ', (column_total (freqs_at σ col)).
  split; [exact Run|]. split; [reflexivity|]. split; [exact Htot|].
  split.
  - intros r n Hr. rewrite Htot. by apply (column_sum_bound _ r n).
  - intros Hzero r Hr. rewrite (Hem column col r Hcol Hr). f_equal.
    unfold cell_value. cbv zeta.
    destruct (freqs_at σ col !! r) as [n|] eqn:Hn; simpl.
    + pose proof (column_sum_bound _ r n Hpos Hn) as Hb.
      assert (n = 0) as -> by lia. by rewrite orb_true_r.
    + by rewrite orb_true_r.
Qed.

Lemma Profile_zero_total_witness :
  exists p σ',
    @FP_Profile sample_lib
      (mkFrequencyProfile [Some 1%positive; Some 4%positive] ["A"; "C"]%char)
      ex_null ex_counts_empty = (Ok p, σ') /\
    Profile_emission σ' p 1 "A"%char = Some MinProb /\
    Profile_emission σ' p 1 "C"%char = Some MinProb.
Proof.
  destruct (@Profile_zero_total sample_lib ex_counts_empty
              (mkFrequencyProfile [Some 1%positive; Some 4%positive] ["A"; "C"]%char)
              ex_null 1%nat (Some 4%positive) eq_refl eq_refl eq_refl)
    as (p & σ' & tot & Run & Htot & _ & _ & Hmin).
  { intros r n.
    change (freqs_at ex_counts_empty (Some 4%positive))
      with (<["A"%char := 0]> (<["C"%char := 0]> (∅ : gmap Residue Z))).
    rewrite !lookup_insert_Some, lookup_empty.
    intros [[_ <-]|[_ [[_ <-]|[_ [=]]]]]; lia. }
  { vm_compute. reflexivity. }
  exists p, σ'. split; [exact Run|].
  assert (Hz : tot = 0) by (vm_compute in Htot; congruence).
  split; apply (Hmin Hz); simpl; rewrite !elem_of_cons; auto.
Defined.

(** ** The default constructors *)

(** X11. The constructors without an alphabet use [AlphaBlosum62]. When
    [NewFrequencyProfile] has returned a profile, [NewNullProfile] (a slice
    of one column) returns a background of one column, and [Profile] on the
    two, no sequence added, returns a profile of as many columns whose
    emissions are all [MinProb]: no panic, and no division of zero by zero
    shows in the result. They are the emissions of any profile that
    [NewProfile] returns for the same number of columns. *)
Theorem default_constructors `{GoLib} `{Blosum} (columns : Z) (σ : Heap)
    (fp : FrequencyProfile) (σ1 : Heap) :
  NewFrequencyProfile columns σ = (Ok fp, σ1) ->
  exists null σ2 p σ3,
    NewNullProfile σ1 = (Ok null, σ2) /\
    FP_Profile fp null σ2 = (Ok p, σ3) /\
    0 <= columns /\ FP_Alphabet fp = AlphaBlosum62 /\ FP_Len null = 1 /\
    Profile_Len p = columns /\ σ ⊆ σ3 /\
    (forall (c : nat) r, Z.of_nat c < columns -> r ∈ AlphaBlosum62 ->
       Profile_emission σ3 p c r = Some MinProb) /\
    (forall p0 σ0, NewProfile columns σ = (Ok p0, σ0) ->
       Profile_Len p0 = columns /\
       forall (c : nat) r, Z.of_nat c < columns -> r ∈ AlphaBlosum62 ->
         Profile_emission σ0 p0 c r = Profile_emission σ3 p c r).
Proof.
  unfold NewNullProfile, NewFrequencyProfile, NewProfile. intros Run.
  assert (Hc : 0 <= columns).
  { unfold NewFrequencyProfileAlphabet in Run.
    destruct (Z.ltb_spec columns 0); [discriminate | assumption]. }
  destruct (NewFrequencyProfileAlphabet_wf columns AlphaBlosum62 σ Hc)
    as (fp' & σ1' & Run1 & Hwf & Hlen & Halpha & Hzero & Hsub1).
  rewrite Run1 in Run. injection Run as -> ->.
  destruct (NewFrequencyProfileAlphabet_wf 1 AlphaBlosum62 σ1 ltac:(lia))
    as (null & σ2 & Run2 & _ & Hlen2 & Halpha2 & _ & Hsub2).
  destruct (FP_Len_1 null Hlen2) as [null0 Hnull].
  destruct (Profile_cell_value σ2 fp null null0 Hnull ltac:(congruence))
    as (p & σ3 & Run3 & Hlen3 & Hsub3 & Hem).
  exists null, σ2, p, σ3.
  repeat (split; [assumption || congruence|]).
  split; [by repeat (etrans; [eassumption|])|].
  assert (Hmin : forall (c : nat) r, Z.of_nat c < columns -> r ∈ AlphaBlosum62 ->
            Profile_emission σ3 p c r = Some MinProb).
  { intros c r Hlt Hr.
    destruct (lookup_lt_is_Some_2 (FP_Freqs fp) c) as [col Hcol]; [unfold FP_Len in Hlen; lia|].
    rewrite (Hem c col r Hcol) by (by rewrite Halpha). f_equal.
    pose proof (Hzero c r Hlt Hr) as Hz. unfold FP_count in Hz. rewrite Hcol in Hz.
    destruct Hwf as [_ Hobj].
    destruct (Hobj col) as (l & m & -> & Hl & _); [by eapply list_elem_of_lookup_2|].
    unfold cell_value. cbv zeta.
    assert (E : freqs_at σ2 (Some l) = freqs_at σ1 (Some l)).
    { unfold freqs_at. by rewrite (lookup_weaken _ _ _ _ Hl Hsub2), Hl. }
    rewrite E, Hz. simpl. by rewrite orb_true_r. }
  split; [exact Hmin|].
  intros p0 σ0 Run0.
  destruct (NewProfileAlphabet_run columns AlphaBlosum62 σ Hc)
    as (ls & σ0' & Run0' & Hlen0 & _ & Hnew0 & _).
  rewrite Run0' in Run0. injection Run0 as <- <-.
  split; [unfold Profile_Len; simpl; rewrite length_fmap; lia|].
  intros c r Hlt Hr. rewrite (Hmin c r Hlt Hr).
  unfold Profile_emission. simpl. rewrite list_lookup_fmap.
  destruct (lookup_lt_is_Some_2 ls c ltac:(lia)) as [l Hl]. rewrite Hl. simpl.
  destruct (Hnew0 l) as [_ E]; [by eapply list_elem_of_lookup_2|]. rewrite E.
  by rewrite (foldl_insert_lookup (fun _ => MinProb)), decide_True.
Qed.

Lemma default_constructors_witness :
  exists σ1 null σ2 p σ3,
    @NewFrequencyProfile ex_blosum 2 ∅ =
      (Ok (mkFrequencyProfile [Some 1%positive; Some 2%positive] ["A"; "C"; "X"]%char), σ1) /\
    @NewNullProfile ex_blosum σ1 = (Ok null, σ2) /\
    @FP_Profile sample_lib
      (mkFrequencyProfile [Some 1%positive; Some 2%positive] ["A"; "C"; "X"]%char) null σ2 =
      (Ok p, σ3) /\
    Profile_emission σ3 p 1 "X"%char = Some MinProb.
Proof.
  set (fp := mkFrequencyProfile [Some 1%positive; Some 2%positive] ["A"; "C"; "X"]%char).
  set (run := @NewFrequencyProfile ex_blosum 2 ∅).
  assert (E : run = (Ok fp, run.2)).
  { apply (run_pair (@NewFrequencyProfile ex_blosum _)). vm_compute. reflexivity. }
  destruct (@default_constructors sample_lib ex_blosum 2 ∅ fp run.2 E)
    as (null & σ2 & p & σ3 & Run2 & Run3 & _ & _ & _ & _ & _ & Hem & _).
  exists run.2, null, σ2, p, σ3.
  split; [exact E|]. split; [exact Run2|]. split; [exact Run3|].
  apply Hem; [lia|]. simpl. rewrite !elem_of_cons. auto.
Defined.

(** ** [Slice]: its panics, its result, slices of slices *)

(** X12. Which panic [Slice] ends with. A negative [end - start] (in the
    arithmetic of [int]) fails in [make], before anything is made. For a
    length that [make] accepts, one that an array of the store has, the new
    array is made, and stays in the store as garbage, before the bounds are
    checked by the slice expression [hmm.Nodes[start:end]]: bounds that are
    not [0 <= start <= end <= cap] fail there. For [start = end] within the
    capacity the slice is empty and the assignment to [nodes[-1]] fails on
    the index. *)
Theorem Slice_panic_kind (σ : Heap) (l : loc) (h : HMM) (start end_ : Z) :
  σ !! l = Some (OHMM h) ->
  (int_sub end_ start < 0 ->
     Slice (Some l) start end_ σ = (Panicked RuntimeMakeSlice, σ)) /\
  (0 <= int_sub end_ start -> allocated_length σ (int_sub end_ start) ->
   ~ (0 <= start /\ start <= end_ /\ end_ <= Z.of_nat (s_cap (HMM_Nodes h))) ->
     Slice (Some l) start end_ σ =
       (Panicked RuntimeSliceBounds,
        <[fresh (dom σ) := ONodes (replicate (Z.to_nat (int_sub end_ start)) zeroNode)]> σ)) /\
  (0 <= start -> start = end_ -> end_ <= Z.of_nat (s_cap (HMM_Nodes h)) ->
     Slice (Some l) start end_ σ =
       (Panicked RuntimeIndex, <[fresh (dom σ) := ONodes []]> σ)).
Proof.
  intros Hl.
  assert (Hl1 : σ !! fresh (dom σ) = None) by apply fresh_lookup_None.
  assert (Hne : fresh (dom σ) <> l) by congruence.
  split; [|split].
  - intros Hneg. unfold Slice. apply bind_panicked. unfold make_nodes.
    destruct (Z.ltb_spec (int_sub end_ start) 0); [reflexivity | lia].
  - intros Hpos _ Hbad. unfold Slice.
    erewrite bind_ok; [|by apply make_nodes_run].
    erewrite bind_ok;
      [|unfold load_hmm; rewrite lookup_insert_ne by done; rewrite Hl; reflexivity].
    apply bind_panicked. unfold slice_expr. by rewrite decide_False.
  - intros H0 <- Hcap. unfold Slice.
    assert (int_sub start start = 0) as -> by (unfold int_sub; by rewrite Z.sub_diag).
    erewrite bind_ok; [|by apply make_nodes_run].
    erewrite bind_ok;
      [|unfold load_hmm; rewrite lookup_insert_ne by done; rewrite Hl; reflexivity].
    erewrite bind_ok; [|unfold slice_expr; rewrite decide_True by lia; reflexivity].
    erewrite bind_ok;
      [|unfold copy_nodes; simpl; rewrite lookup_insert_eq, insert_insert_eq; reflexivity].
    apply bind_panicked. reflexivity.
Qed.

Lemma Slice_panic_kind_witness :
  Slice (Some 5%positive) 2 1 ex_heap = (Panicked RuntimeMakeSlice, ex_heap) /\
  (exists σ', Slice (Some 5%positive) 1 4 ex_heap = (Panicked RuntimeSliceBounds, σ')) /\
  (exists σ', Slice (Some 5%positive) 1 1 ex_heap = (Panicked RuntimeIndex, σ')).
Proof.
  destruct (Slice_panic_kind ex_heap 5%positive ex_hmm 2 1 ex_heap_hmm) as (H1 & _ & _).
  destruct (Slice_panic_kind ex_heap 5%positive ex_hmm 1 4 ex_heap_hmm) as (_ & H2 & _).
  destruct (Slice_panic_kind ex_heap 5%positive ex_hmm 1 1 ex_heap_hmm) as (_ & _ & H3).
  split; [apply H1; vm_compute; reflexivity|]. split.
  - eexists. apply H2; [vm_compute; discriminate | | simpl; lia].
    exists 4%positive. eexists. split; [reflexivity | vm_compute; discriminate].
  - eexists. apply H3; [lia | reflexivity | simpl; lia].
Defined.

(** [Slice] on valid bounds, with the slice value of the result: a new
    array of exactly [end - start] nodes. *)
Lemma Slice_valid_tight (σ : Heap) (l : loc) (h : HMM) (start end_ : Z) :
  σ !! l = Some (OHMM h) ->
  wf_slice σ (HMM_Nodes h) ->
  is_int start -> is_int end_ ->
  0 <= start -> start < end_ -> end_ <= Z.of_nat (s_len (HMM_Nodes h)) ->
  exists l' h' σ',
    Slice (Some l) start end_ σ = (Ok (Some l'), σ') /\
    σ' !! l' = Some (OHMM h') /\
    HMM_Alphabet h' = HMM_Alphabet h /\ HMM_Null h' = HMM_Null h /\
    HMM_Nodes h' = mkNodeSlice (fresh (dom σ)) 0 (Z.to_nat (end_ - start))
                     (Z.to_nat (end_ - start)) /\
    wf_slice σ' (HMM_Nodes h') /\
    nodes_at σ' (HMM_Nodes h') =
      alter force_last (Z.to_nat (end_ - start) - 1)%nat
        (take (Z.to_nat (end_ - start)) (drop (Z.to_nat start) (nodes_at σ (HMM_Nodes h)))).
Proof.
  intros Hl Hwf Hs He H0 Hlt Hend.
  destruct (Slice_valid σ l h start end_) as (l' & h' & σ' & Run & Hl' & Ha & Hn & Hnew & Hns);
    try assumption.
  destruct Hwf as (a & Harr & Hlen & Hcap).
  pose proof (Slice_run σ l h a start end_ Hl Harr Hcap H0 Hlt ltac:(lia) He) as Run'.
  cbv zeta in Run'. rewrite Run in Run'. injection Run' as -> ->.
  rewrite lookup_insert_eq in Hl'. injection Hl' as <-.
  eexists _, _, _. split; [exact Run|].
  split; [apply lookup_insert_eq|].
  split; [reflexivity|]. split; [reflexivity|]. split; [reflexivity|].
  split; [|exact Hns].
  eexists. simpl. split; [|split].
  - rewrite lookup_insert_ne by apply fresh_insert_ne.
    apply lookup_insert_eq.
  - lia.
  - rewrite length_alter, length_take, length_drop. lia.
Qed.

(** X13. The HMM that [Slice] returns has a slice of nodes that fills its
    array: offset 0, length and capacity [end - start], in an array that did
    not exist before. So, unlike an HMM whose slice has spare capacity, the
    result cannot be sliced beyond its length: for a length that [make]
    accepts, one that an array of the store has, that fails in the slice
    expression. *)
Theorem Slice_result_tight (σ : Heap) (l : loc) (h : HMM) (start end_ : Z) :
  σ !! l = Some (OHMM h) ->
  wf_slice σ (HMM_Nodes h) ->
  is_int start -> is_int end_ ->
  0 <= start -> start < end_ -> end_ <= Z.of_nat (s_len (HMM_Nodes h)) ->
  exists l' h' σ',
    Slice (Some l) start end_ σ = (Ok (Some l'), σ') /\
    σ' !! l' = Some (OHMM h') /\
    wf_slice σ' (HMM_Nodes h') /\
    σ !! s_arr (HMM_Nodes h') = None /\
    s_off (HMM_Nodes h') = 0%nat /\
    Z.of_nat (s_len (HMM_Nodes h')) = end_ - start /\
    s_cap (HMM_Nodes h') = s_len (HMM_Nodes h') /\
    forall start2 end2 : Z,
      0 <= start2 <= end2 -> Z.of_nat (s_len (HMM_Nodes h')) < end2 -> is_int end2 ->
      allocated_length σ' (end2 - start2) ->
      exists σ'', Slice (Some l') start2 end2 σ' = (Panicked RuntimeSliceBounds, σ'').
Proof.
  intros Hl Hwf Hs He H0 Hlt Hend.
  destruct (Slice_valid_tight σ l h start end_)
    as (l' & h' & σ' & Run & Hl' & _ & _ & Hnodes & Hwf' & _); try assumption.
  exists l', h', σ'. split; [exact Run|]. split; [exact Hl'|]. split; [exact Hwf'|].
  rewrite Hnodes. simpl.
  split; [apply fresh_lookup_None|]. split; [reflexivity|]. split; [lia|].
  split; [reflexivity|].
  intros start2 end2 Hb Hbeyond Hint _.
  assert (Hsub : int_sub end2 start2 = end2 - start2).
  { apply wrap64_id. unfold is_int in *. lia. }
  assert (Hl1 : σ' !! fresh (dom σ') = None) by apply fresh_lookup_None.
  assert (Hne : fresh (dom σ') <> l') by congruence.
  eexists. unfold Slice.
  erewrite bind_ok; [|apply make_nodes_run; lia].
  erewrite bind_ok;
    [|unfold load_hmm; rewrite lookup_insert_ne by done; rewrite Hl'; reflexivity].
  apply bind_panicked. unfold slice_expr. rewrite Hnodes. simpl.
  rewrite decide_False by lia. reflexivity.
Qed.

Lemma Slice_result_tight_witness :
  exists l' σ' σ'',
    Slice (Some 5%positive) 0 2 ex_heap = (Ok (Some l'), σ') /\
    Slice (Some l') 0 3 σ' = (Panicked RuntimeSliceBounds, σ'').
Proof.
  destruct (Slice_result_tight ex_heap 5%positive ex_hmm 0 2 ex_heap_hmm ex_heap_wf
              (is_int_small 0 ltac:(lia)) (is_int_small 2 ltac:(lia))
              ltac:(lia) ltac:(lia) ltac:(simpl; lia))
    as (l' & h' & σ' & Run & _ & _ & _ & _ & Hlen & _ & Hbad).
  destruct (Hbad 0 3 ltac:(lia) ltac:(lia) (is_int_small 3 ltac:(lia))) as (σ'' & Run2).
  { exists 4%positive. eexists. split.
    - refine (lookup_weaken _ _ _ _ _ (Slice_frame _ _ _ _ _ _ Run)). reflexivity.
    - simpl. lia. }
  exists l', σ', σ''. split; assumption.
Defined.

Lemma force_last_idemp (n : HMMNode) : force_last (force_last n) = force_last n.
Proof. reflexivity. Qed.

(** The nodes of a slice of a slice, as lists. *)
Lemma slice_of_slice_nodes (src : list HMMNode) (s1 n1 s2 n2 : nat) :
  (0 < n2)%nat -> (s2 + n2 <= n1)%nat -> (s1 + n1 <= length src)%nat ->
  alter force_last (n2 - 1)%nat
    (take n2 (drop s2 (alter force_last (n1 - 1)%nat (take n1 (drop s1 src))))) =
  alter force_last (n2 - 1)%nat (take n2 (drop (s1 + s2) src)).
Proof.
  intros Hn2 Hin Hsrc. apply list_eq. intros i.
  destruct (decide (i < n2)%nat) as [Hi|Hi].
  2:{ rewrite !list_lookup_alter_ne by lia. by rewrite !lookup_take_ge by lia. }
  assert (E : take n2 (drop s2 (alter force_last (n1 - 1)%nat (take n1 (drop s1 src)))) !! i =
              (if decide (s2 + i = n1 - 1)%nat then force_last else id) <$>
                take n2 (drop (s1 + s2) src) !! i).
  { rewrite !lookup_take_lt, !lookup_drop by lia.
    destruct (decide (s2 + i = n1 - 1)%nat) as [Heq|Hne].
    - rewrite Heq, list_lookup_alter_eq, lookup_take_lt, lookup_drop by lia.
      do 2 f_equal. lia.
    - rewrite list_lookup_alter_ne, lookup_take_lt, lookup_drop by lia.
      rewrite option_fmap_id. f_equal. lia. }
  destruct (decide (i = n2 - 1)%nat) as [->|Hne].
  - rewrite !list_lookup_alter_eq, E.
    destruct (take n2 (drop (s1 + s2) src) !! (n2 - 1)%nat) as [x|]; [|reflexivity].
    simpl. by destruct (decide _).
  - rewrite !list_lookup_alter_ne, E by lia.
    rewrite decide_False by lia. apply option_fmap_id.
Qed.

(** X14. A slice of a slice is a slice: on bounds that are valid, the
    nodes of [hmm.Slice(s1, e1).Slice(s2, e2)] are those of
    [hmm.Slice(s1 + s2, s1 + e2)], with the same alphabet and null table;
    forcing the transitions of a last node twice is forcing them once. *)
Theorem Slice_Slice (σ : Heap) (l : loc) (h : HMM) (s1 e1 s2 e2 : Z) :
  σ !! l = Some (OHMM h) ->
  wf_slice σ (HMM_Nodes h) ->
  is_int e1 ->
  0 <= s1 -> s1 < e1 -> e1 <= Z.of_nat (s_len (HMM_Nodes h)) ->
  0 <= s2 -> s2 < e2 -> e2 <= e1 - s1 ->
  exists l1 σ1 l2 h2 σ2 l3 h3 σ3,
    Slice (Some l) s1 e1 σ = (Ok (Some l1), σ1) /\
    Slice (Some l1) s2 e2 σ1 = (Ok (Some l2), σ2) /\
    σ2 !! l2 = Some (OHMM h2) /\
    Slice (Some l) (s1 + s2) (s1 + e2) σ = (Ok (Some l3), σ3) /\
    σ3 !! l3 = Some (OHMM h3) /\
    nodes_at σ2 (HMM_Nodes h2) = nodes_at σ3 (HMM_Nodes h3) /\
    HMM_Alphabet h2 = HMM_Alphabet h3 /\ HMM_Null h2 = HMM_Null h3.
Proof.
  intros Hl Hwf He1 H0 Hlt Hend H02 Hlt2 Hend2.
  assert (Hint : forall z, 0 <= z <= e1 -> is_int z) by (unfold is_int in *; lia).
  destruct (Slice_valid_tight σ l h s1 e1)
    as (l1 & h1 & σ1 & Run1 & Hl1 & Ha1 & Hn1 & Hnodes1 & Hwf1 & Hns1);
    try assumption; [apply Hint; lia|].
  destruct (Slice_valid_tight σ1 l1 h1 s2 e2)
    as (l2 & h2 & σ2 & Run2 & Hl2 & Ha2 & Hn2 & _ & _ & Hns2);
    try assumption; try (apply Hint; lia); [rewrite Hnodes1; simpl; lia|].
  destruct (Slice_valid_tight σ l h (s1 + s2) (s1 + e2))
    as (l3 & h3 & σ3 & Run3 & Hl3 & Ha3 & Hn3 & _ & _ & Hns3);
    try assumption; try (apply Hint; lia); try lia.
  exists l1, σ1, l2, h2, σ2, l3, h3, σ3.
  repeat (split; [assumption|]).
  split; [|split; congruence].
  rewrite Hns2, Hns1, Hns3.
  pose proof (nodes_at_length _ _ Hwf) as Hsrc.
  replace (Z.to_nat (s1 + e2 - (s1 + s2))) with (Z.to_nat (e2 - s2)) by lia.
  replace (Z.to_nat (s1 + s2)) with (Z.to_nat s1 + Z.to_nat s2)%nat by lia.
  apply slice_of_slice_nodes; lia.
Qed.

Lemma Slice_Slice_witness :
  exists l1 σ1 l2 h2 σ2 l3 h3 σ3,
    Slice (Some 5%positive) 0 2 ex_heap = (Ok (Some l1), σ1) /\
    Slice (Some l1) 1 2 σ1 = (Ok (Some l2), σ2) /\
    σ2 !! l2 = Some (OHMM h2) /\
    Slice (Some 5%positive) 1 2 ex_heap = (Ok (Some l3), σ3) /\
    σ3 !! l3 = Some (OHMM h3) /\
    nodes_at σ2 (HMM_Nodes h2) = nodes_at σ3 (HMM_Nodes h3).
Proof.
  destruct (Slice_Slice ex_heap 5%positive ex_hmm 0 2 1 2 ex_heap_hmm ex_heap_wf
              (is_int_small 2 ltac:(lia))
              ltac:(lia) ltac:(lia) ltac:(simpl; lia) ltac:(lia) ltac:(lia) ltac:(lia))
    as (l1 & σ1 & l2 & h2 & σ2 & l3 & h3 & σ3 & R1 & R2 & H2 & R3 & H3 & Hn & _).
  exists l1, σ1, l2, h2, σ2, l3, h3, σ3. repeat (split; [assumption|]). exact Hn.
Defined.

(** ** The order of probabilities *)

Lemma digits2_pos_bound (m : positive) : Z.pos m < 2 ^ Z.pos (digits2_pos m).
Proof.
  induction m as [m IH|m IH|]; simpl digits2_pos.
  - rewrite Pos2Z.inj_succ, Z.pow_succ_r by lia. lia.
  - rewrite Pos2Z.inj_succ, Z.pow_succ_r by lia. lia.
  - reflexivity.
Qed.

(** A binary64 number with the largest exponent has a mantissa of 53 bits. *)
Lemma valid_finite_top (s : bool) (m : positive) (e : Z) :
  SpecFloat.valid_binary prec emax (S754_finite s m e) = true ->
  e <= 971 /\ (e = 971 -> Z.pos m < 2 ^ 53).
Proof.
  simpl. unfold bounded, canonical_mantissa, fexp.
  intros [Hc He]%andb_true_iff. apply Z.leb_le in He. apply Z.eqb_eq in Hc.
  change (emax - prec) with 971 in He. split; [assumption|].
  intros ->. pose proof (digits2_pos_bound m) as Hd.
  change (SpecFloat.emin prec emax) with (-1074) in Hc. change prec with 53 in Hc.
  assert (Z.pos (digits2_pos m) = 53) as E by lia.
  by rewrite E in Hd.
Qed.

(** How a binary64 number compares with the largest finite one. *)
Lemma SFcompare_top (x : spec_float) (M : positive) :
  Z.pos M = 2 ^ 53 - 1 ->
  SpecFloat.valid_binary prec emax x = true ->
  SFcompare x (S754_finite false M 971) =
    match x with
    | S754_nan => None
    | S754_infinity false => Some Gt
    | _ => if SFeqb x (S754_finite false M 971) then Some Eq else Some Lt
    end.
Proof.
  intros HM Hv.
  destruct x as [s|s| |s m e];
    [destruct s; reflexivity | destruct s; reflexivity | reflexivity |].
  destruct (valid_finite_top s m e Hv) as [He Hm].
  unfold SFeqb, SFcompare. destruct s; [reflexivity|].
  destruct (Z.compare_spec e 971) as [->| |]; [|reflexivity|lia].
  specialize (Hm eq_refl). fold (Pos.compare m M).
  destruct (Pos.compare_spec m M) as [->| |]; [reflexivity|reflexivity|lia].
Qed.

Lemma SFltb_irrefl (x : spec_float) : SFltb x x = false.
Proof.
  unfold SFltb, SFcompare. destruct x as [s|s| |s m e]; try reflexivity.
  - destruct s; reflexivity.
  - fold (Pos.compare m m). rewrite Z.compare_refl, Pos.compare_refl. destruct s; reflexivity.
Qed.

Lemma SFcompare_antisym (x y : spec_float) :
  SFcompare y x = option_map CompOpp (SFcompare x y).
Proof.
  unfold SFcompare.
  destruct x as [s|s| |s m e], y as [s'|s'| |s' m' e']; try reflexivity;
    try (destruct s; reflexivity); try (destruct s'; reflexivity);
    try (destruct s, s'; reflexivity).
  fold (Pos.compare m m') (Pos.compare m' m).
  rewrite (Z.compare_antisym e e'), (Pos.compare_antisym m m').
  destruct s, s'; simpl; try reflexivity;
    destruct (e ?= e'); simpl; try reflexivity; destruct (m ?= m')%positive; reflexivity.
Qed.

Lemma SFltb_asym (x y : spec_float) : SFltb x y = true -> SFltb y x = false.
Proof.
  unfold SFltb. rewrite (SFcompare_antisym x y).
  destruct (SFcompare x y) as [[]|]; simpl; congruence.
Qed.

Lemma SFltb_trans (x y z : spec_float) :
  SFltb x y = true -> SFltb y z = true -> SFltb x z = true.
Proof.
  unfold SFltb, SFcompare.
  destruct x as [s1|s1| |s1 m1 e1], y as [s2|s2| |s2 m2 e2], z as [s3|s3| |s3 m3 e3];
    try discriminate;
    try (destruct s1; discriminate); try (destruct s2; discriminate);
    try (destruct s3; discriminate);
    try (destruct s1, s2; discriminate); try (destruct s2, s3; discriminate);
    try (destruct s1, s3; discriminate);
    try (destruct s1, s2, s3; (discriminate || reflexivity)).
  all: fold (Pos.compare m1 m2) (Pos.compare m2 m3) (Pos.compare m1 m3)
            (Pos.compare m2 m1) (Pos.compare m3 m2) (Pos.compare m3 m1).
  all: destruct s1, s2, s3; try discriminate; try reflexivity.
  all: repeat match goal with
       | |- context [Z.compare ?a ?b] => destruct (Z.compare_spec a b); subst
       | |- context [Pos.compare ?a ?b] => destruct (Pos.compare_spec a b); subst
       end; simpl; try discriminate; try reflexivity; try lia.
Qed.

(** X15. [Less] is a strict order on probabilities: no value is less
    probable than itself, two values are never each less probable than the
    other, and the relation is transitive. The invalid probability, NaN,
    that [NewProb] returns with an error is not comparable with any value,
    itself included. *)
Theorem Less_strict_order :
  (forall p, Less p p = false) /\
  (forall p q, Less p q = true -> Less q p = false) /\
  (forall p q r, Less p q = true -> Less q r = true -> Less p r = true) /\
  (forall p, Less p invalidProb = false /\ Less invalidProb p = false).
Proof.
  unfold Less. split; [|split; [|split]].
  - intros p. rewrite FloatAxioms.ltb_spec. apply SFltb_irrefl.
  - intros p q. rewrite !FloatAxioms.ltb_spec. apply SFltb_asym.
  - intros p q r. rewrite !FloatAxioms.ltb_spec. intros H1 H2. by eapply SFltb_trans.
  - intros p. rewrite !FloatAxioms.ltb_spec. change (Prim2SF invalidProb) with S754_nan.
    unfold SFltb, SFcompare. split; [reflexivity|].
    by destruct (Prim2SF p) as [| | |].
Qed.

Lemma Less_strict_order_witness :
  Less 2%float 0.5%float = true /\ Less 0.5%float 2%float = false /\
  Less MinProb 0.5%float = true.
Proof.
  destruct Less_strict_order as (_ & Hasym & Htrans & _).
  assert (H1 : Less 2%float 0.5%float = true) by reflexivity.
  assert (H2 : Less MinProb 2%float = true) by reflexivity.
  split; [exact H1|]. split; [exact (Hasym _ _ H1) | exact (Htrans _ _ _ H2 H1)].
Defined.

Lemma Prim2SF_eq (p q : float) : Prim2SF p = Prim2SF q <-> p = q.
Proof. split; [apply FloatAxioms.Prim2SF_inj | by intros ->]. Qed.

(** X16. [MinProb] is the least probable of the numbers, but not of all
    values: the only value that [Less] puts below [MinProb] is the
    infinity, and [MinProb] is below every value but itself, the infinity
    and NaN. An infinite log-odds score, as the negated logarithm of zero,
    is less probable than the minimum and is not [IsMin]. *)
Theorem MinProb_least (p : Prob) :
  (Less p MinProb = true <-> p = infinity) /\
  (Less MinProb p = true <-> p <> MinProb /\ p <> infinity /\ p <> invalidProb) /\
  IsMin infinity = false.
Proof.
  assert (HM : Z.pos 9007199254740991 = 2 ^ 53 - 1) by reflexivity.
  pose proof (SFcompare_top (Prim2SF p) _ HM (FloatAxioms.Prim2SF_valid p)) as Hcmp.
  assert (Heq : SFeqb (Prim2SF p) (S754_finite false 9007199254740991 971) = true <->
                p = MinProb).
  { rewrite <- Prim2SF_MinProb, <- FloatAxioms.eqb_spec. fold (IsMin p). split.
    - apply IsMin_true.
    - intros ->. apply IsMin_MinProb. }
  assert (Hinf : Prim2SF p = S754_infinity false <-> p = infinity).
  { change (S754_infinity false) with (Prim2SF infinity). apply Prim2SF_eq. }
  assert (Hnan : Prim2SF p = S754_nan <-> p = invalidProb).
  { change S754_nan with (Prim2SF invalidProb). apply Prim2SF_eq. }
  unfold Less. rewrite !FloatAxioms.ltb_spec, Prim2SF_MinProb. unfold SFltb.
  rewrite (SFcompare_antisym (Prim2SF p)), Hcmp.
  revert Heq Hinf Hnan. generalize (S754_finite false 9007199254740991 971).
  intros top Heq Hinf Hnan.
  split; [|split; [|reflexivity]].
  - rewrite <- Hinf.
    destruct (Prim2SF p) as [s|[|]| |s m e]; simpl;
      try destruct (SFeqb _ top); simpl; split; congruence.
  - rewrite <- Heq, <- Hinf, <- Hnan.
    destruct (Prim2SF p) as [s|[|]| |s m e]; simpl;
      try destruct (SFeqb _ top); simpl; split; try congruence; intuition congruence.
Qed.

(** ** Distance *)

Lemma SFabs_binary_round (s : bool) (m : positive) (e : Z) :
  SFabs (binary_round prec emax s m e) = SFabs (binary_round prec emax false m e).
Proof.
  unfold binary_round. destruct (shl_align _ _ _) as [mz ez].
  unfold binary_round_aux.
  destruct (shr_fexp prec emax (Z.pos mz) ez loc_Exact) as [mrs' e'].
  destruct (shr_fexp prec emax _ e' loc_Exact) as [mrs'' e''].
  destruct (shr_m mrs''); [reflexivity | | reflexivity].
  destruct (e'' <=? emax - prec); reflexivity.
Qed.

Lemma SFabs_binary_normalize_opp (z e : Z) :
  SFabs (binary_normalize prec emax (- z) e false) =
  SFabs (binary_normalize prec emax z e false).
Proof.
  destruct z as [|m|m]; simpl; [reflexivity| |].
  - apply SFabs_binary_round.
  - symmetry. apply SFabs_binary_round.
Qed.

Lemma SFabs_sub_sym (x y : spec_float) :
  SFabs (SF64sub x y) = SFabs (SF64sub y x).
Proof.
  unfold SF64sub, SFsub.
  destruct x as [s|s| |s m e], y as [s'|s'| |s' m' e']; try reflexivity;
    try (destruct s, s'; reflexivity).
  cbv zeta. rewrite (Z.min_comm e' e).
  rewrite <- SFabs_binary_normalize_opp. f_equal. f_equal. lia.
Qed.

Lemma SFabs_sub_diag (x : spec_float) :
  SFabs (SF64sub x x) =
  match x with
  | S754_infinity _ | S754_nan => S754_nan
  | _ => S754_zero false
  end.
Proof.
  unfold SF64sub, SFsub. destruct x as [s|s| |s m e]; try (destruct s; reflexivity).
  - reflexivity.
  - cbv zeta. rewrite Z.sub_diag. reflexivity.
Qed.

Lemma SFabs_not_neg (x : spec_float) : SFltb (SFabs x) (S754_zero false) = false.
Proof. destruct x as [s|s| |s m e]; reflexivity. Qed.

(** X17. [Distance] is symmetric and never negative, in [float64]
    arithmetic with its rounding; the distance of a value to itself is
    zero, but for the infinities and NaN, where it is NaN. *)
Theorem Distance_symmetric (p q : Prob) :
  Distance p q = Distance q p /\
  PrimFloat.ltb (Distance p q) 0 = false /\
  Distance p p = match Prim2SF p with
                 | S754_infinity _ | S754_nan => nan
                 | _ => 0%float
                 end.
Proof.
  unfold Distance. split; [|split].
  - apply FloatAxioms.Prim2SF_inj. rewrite !FloatAxioms.abs_spec, !FloatAxioms.sub_spec. apply SFabs_sub_sym.
  - rewrite FloatAxioms.ltb_spec, FloatAxioms.abs_spec. apply SFabs_not_neg.
  - apply FloatAxioms.Prim2SF_inj. rewrite FloatAxioms.abs_spec, FloatAxioms.sub_spec, SFabs_sub_diag.
    by destruct (Prim2SF p) as [| | |].
Qed.

(** ** The text of a probability *)

Section prob_text.
Context `{GoLibLaws}.

(** X18. With a [%v] that [ParseFloat] reads back, the text of a
    probability is ["*"] for [MinProb] and for no other value, and two
    probabilities with the same text are the same: [String] loses
    nothing. *)
Theorem Prob_String_injective (p q : Prob) :
  (Prob_String p = "*" <-> p = MinProb) /\
  (Prob_String p = Prob_String q -> p = q).
Proof.
  split.
  - unfold Prob_String. split.
    + destruct (IsMin p) eqn:E; [intros _; by apply IsMin_true|].
      intros Hs. by apply fmt_v_not_star in Hs.
    + intros ->. by rewrite IsMin_MinProb.
  - unfold Prob_String.
    destruct (IsMin p) eqn:Ep, (IsMin q) eqn:Eq.
    + intros _. apply IsMin_true in Ep, Eq. congruence.
    + intros Hs. symmetry in Hs. by apply fmt_v_not_star in Hs.
    + intros Hs. by apply fmt_v_not_star in Hs.
    + intros Hs. pose proof (ParseFloat_fmt_v p) as Hp.
      rewrite Hs, ParseFloat_fmt_v in Hp. congruence.
Qed.

(** X19. [Prob.UnmarshalJSON] returns an error in two cases only. When
    the bytes are no JSON string, the receiver keeps its value. When the
    string is not ["*"] and is no number, the receiver has been overwritten
    by then: it holds NaN, which is not [IsMin] and not equal to itself.
    Read from the text of a probability [q], the receiver becomes [q]
    whatever it held. *)
Theorem Prob_UnmarshalJSON_errors (decoded : option string) (p q : Prob) :
  (is_Some (Prob_UnmarshalJSON decoded p).2 <->
     decoded = None \/
     exists str, decoded = Some str /\ str <> "*" /\ strconv_ParseFloat str = None) /\
  Prob_UnmarshalJSON None p = (p, Some ErrJSON) /\
  (forall str, str <> "*" -> strconv_ParseFloat str = None ->
     Prob_UnmarshalJSON (Some str) p = (invalidProb, Some (ErrProb (ErrConvert str)))) /\
  IsMin invalidProb = false /\ PrimFloat.eqb invalidProb invalidProb = false /\
  Prob_UnmarshalJSON (Some (Prob_String q)) p = (q, None).
Proof.
  assert (Hconv : forall str, str <> "*" -> strconv_ParseFloat str = None ->
            Prob_UnmarshalJSON (Some str) p = (invalidProb, Some (ErrProb (ErrConvert str)))).
  { intros str Hne Hparse. unfold Prob_UnmarshalJSON, NewProb.
    destruct (String.eqb_spec str "*"); [done|]. by rewrite Hparse. }
  split; [|split; [reflexivity | split; [exact Hconv | split; [reflexivity | split; [reflexivity|]]]]].
  - destruct decoded as [str|]; simpl.
    2:{ split; [by left | by eexists]. }
    unfold NewProb. destruct (String.eqb_spec str "*") as [->|Hne]; simpl.
    { split; [intros []%is_Some_None|]. intros [[=]|(s & [= <-] & Hs & _)]. done. }
    destruct (strconv_ParseFloat str) as [f|] eqn:Hparse; simpl.
    + split; [intros []%is_Some_None|]. intros [[=]|(s & [= <-] & _ & Hs)]. congruence.
    + split; [|by eexists]. intros _. right. by exists str.
  - unfold Prob_UnmarshalJSON, NewProb, Prob_String.
    destruct (IsMin q) eqn:E.
    + apply IsMin_true in E. by subst q.
    + destruct (String.eqb_spec (fmt_v q) "*") as [Hs|_]; [by apply fmt_v_not_star in Hs|].
      by rewrite ParseFloat_fmt_v.
Qed.

End prob_text.

Lemma Prob_String_injective_witness :
  @Prob_String sample_lib MinProb = "*" /\ @Prob_String sample_lib 1.5%float <> "*".
Proof.
  split.
  - exact (proj2 (proj1 (@Prob_String_injective sample_lib sample_laws MinProb MinProb)) eq_refl).
  - intros E.
    apply (proj1 (proj1 (@Prob_String_injective sample_lib sample_laws 1.5%float MinProb))) in E.
    vm_compute in E. discriminate.
Defined.

Lemma Prob_UnmarshalJSON_errors_witness :
  @Prob_UnmarshalJSON sample_lib (Some "x"%string) 1.5%float =
    (invalidProb, Some (ErrProb (ErrConvert "x"))) /\
  @Prob_UnmarshalJSON sample_lib (Some (@Prob_String sample_lib 0.25%float)) 1.5%float =
    (0.25%float, None).
Proof.
  pose proof (@Prob_UnmarshalJSON_errors sample_lib sample_laws None 1.5%float 0.25%float)
    as (_ & _ & Hconv & _ & _ & Hround).
  split; [|exact Hround].
  apply Hconv; [discriminate | vm_compute; reflexivity].
Defined.

(** ** Reading an emission table *)

Lemma merged_lookup_other (m : gmap Residue Prob) (entries : list (string * Prob)) (r : Residue) :
  (forall kv, kv ∈ entries -> head_byte kv.1 <> r) -> merged m entries !! r = m !! r.
Proof.
  unfold merged. revert m. induction entries as [|kv entries IH]; intros m Hr; [reflexivity|].
  simpl. rewrite IH by (intros kv' Hin; apply Hr; by apply elem_of_cons; right).
  apply lookup_insert_ne, Hr, list_elem_of_here.
Qed.

Lemma UnmarshalJSON_loop (l : loc) (entries : list (string * Prob)) (σ : Heap)
    (m : gmap Residue Prob) :
  σ !! l = Some (OEProbs m) ->
  (forall kv, kv ∈ entries -> kv.1 <> EmptyString) ->
  for_each entries (fun kv =>
      match kv.1 with
      | EmptyString => panic RuntimeIndex
      | String k0 _ => eprobs_set (Some l) k0 kv.2
      end) σ =
  (Ok tt, <[l := OEProbs (merged m entries)]> σ).
Proof.
  revert σ m. induction entries as [|[k v] entries IH]; intros σ m Hl Hkeys; simpl.
  - unfold mret, M_ret. by rewrite insert_id.
  - destruct k as [|k0 k]; [by destruct (Hkeys (EmptyString, v) (list_elem_of_here _ _))|].
    erewrite bind_ok; [|unfold eprobs_set; rewrite Hl; reflexivity].
    rewrite (IH _ (<[k0 := v]> m)); [|apply lookup_insert_eq|].
    + by rewrite insert_insert_eq.
    + intros kv Hin. apply Hkeys. by apply elem_of_cons; right.
Qed.

(** X20. [EProbs.UnmarshalJSON] on decoded entries whose keys are not
    empty: a nil receiver gets a new table, and a receiver that holds a
    table keeps it; each entry is filed under the first byte of its key, so
    that of several keys with the same first byte the one visited last is
    kept; and an emission of the receiver that no entry names stays: the
    call adds to the table, it does not replace it. *)
Theorem EProbs_UnmarshalJSON_merge (σ : Heap) (ep : ref) (entries : list (string * Prob)) :
  (forall kv, kv ∈ entries -> kv.1 <> EmptyString) ->
  (ep = None \/ exists l m, ep = Some l /\ σ !! l = Some (OEProbs m)) ->
  exists l σ',
    EProbs_UnmarshalJSON (Some entries) ep σ = (Ok (Some l, false), σ') /\
    (ep = None -> σ !! l = None) /\ (ep <> None -> ep = Some l) /\
    (forall k, k <> l -> σ' !! k = σ !! k) /\
    eprobs_at σ' (Some l) = merged (eprobs_at σ ep) entries /\
    (forall r, (forall kv, kv ∈ entries -> head_byte kv.1 <> r) ->
       eprobs_at σ' (Some l) !! r = eprobs_at σ ep !! r) /\
    (forall pre k v post, entries = pre ++ (k, v) :: post ->
       (forall kv, kv ∈ post -> head_byte kv.1 <> head_byte k) ->
       eprobs_at σ' (Some l) !! head_byte k = Some v).
Proof.
  intros Hkeys Hep.
  assert (Hres : exists l σ' m,
            EProbs_UnmarshalJSON (Some entries) ep σ = (Ok (Some l, false), σ') /\
            (ep = None -> σ !! l = None) /\ (ep <> None -> ep = Some l) /\
            (forall k, k <> l -> σ' !! k = σ !! k) /\
            eprobs_at σ ep = m /\ σ' !! l = Some (OEProbs (merged m entries))).
  { destruct Hep as [->|(l & m & -> & Hl)].
    - exists (fresh (dom σ)), (<[fresh (dom σ) := OEProbs (merged ∅ entries)]> σ), ∅.
      split.
      { unfold EProbs_UnmarshalJSON.
        erewrite bind_ok; [|reflexivity].
        erewrite bind_ok; [|apply UnmarshalJSON_loop; [apply lookup_insert_eq | exact Hkeys]].
        unfold mret, M_ret. by rewrite insert_insert_eq. }
      split; [intros _; apply fresh_lookup_None|]. split; [done|].
      split; [intros k Hk; by rewrite lookup_insert_ne|].
      split; [reflexivity | apply lookup_insert_eq].
    - exists l, (<[l := OEProbs (merged m entries)]> σ), m.
      split.
      { unfold EProbs_UnmarshalJSON.
        erewrite bind_ok; [|reflexivity].
        erewrite bind_ok; [|apply UnmarshalJSON_loop; [exact Hl | exact Hkeys]].
        reflexivity. }
      split; [discriminate|]. split; [done|].
      split; [intros k Hk; by rewrite lookup_insert_ne|].
      split; [unfold eprobs_at; by rewrite Hl | apply lookup_insert_eq]. }
  destruct Hres as (l & σ' & m & Run & Hnew & Hsame & Hframe & Hm & Hl').
  exists l, σ'. do 4 (split; [assumption|]).
  assert (E : eprobs_at σ' (Some l) = merged (eprobs_at σ ep) entries).
  { unfold eprobs_at at 1. by rewrite Hl', Hm. }
  split; [exact E|]. rewrite E. split.
  - intros r Hr. by apply merged_lookup_other.
  - intros pre k v post -> Hpost. unfold merged. rewrite foldl_app. simpl.
    fold (merged (<[head_byte k := v]> (foldl (fun m kv => <[head_byte kv.1 := kv.2]> m)
                                          (eprobs_at σ ep) pre)) post).
    rewrite merged_lookup_other by assumption. apply lookup_insert_eq.
Qed.

Lemma EProbs_UnmarshalJSON_merge_witness :
  exists l σ',
    EProbs_UnmarshalJSON (Some [("CG"%string, 7%float); ("C"%string, 9%float)])
      (Some 2%positive) ex_heap = (Ok (Some l, false), σ') /\
    eprobs_at σ' (Some l) !! "A"%char = Some 0.25%float /\
    eprobs_at σ' (Some l) !! "C"%char = Some 9%float.
Proof.
  destruct (EProbs_UnmarshalJSON_merge ex_heap (Some 2%positive)
              [("CG"%string, 7%float); ("C"%string, 9%float)])
    as (l & σ' & Run & _ & _ & _ & _ & Hkeep & Hlast).
  { intros kv Hin.
    repeat (apply elem_of_cons in Hin as [->|Hin]; [discriminate|]).
    by apply not_elem_of_nil in Hin. }
  { right. eexists _, _. split; reflexivity. }
  exists l, σ'. split; [exact Run|]. split.
  - rewrite (Hkeep "A"%char); [reflexivity|].
    intros kv Hin.
    repeat (apply elem_of_cons in Hin as [->|Hin]; [discriminate|]).
    by apply not_elem_of_nil in Hin.
  - apply (Hlast [("CG"%string, 7%float)] "C"%string 9%float []); [reflexivity|].
    intros kv Hin. by apply not_elem_of_nil in Hin.
Defined.

(** X21. The failures of [EProbs.UnmarshalJSON]. An error of the decoder
    is returned before anything is touched. A decoded entry with the empty
    key makes the index [k[0]] panic, in the middle of the loop: the
    entries visited before it have been written to the receiver by then. *)
Theorem EProbs_UnmarshalJSON_failures (σ : Heap) (ep : ref) :
  EProbs_UnmarshalJSON None ep σ = (Ok (ep, true), σ) /\
  forall l m pre v post,
    ep = Some l -> σ !! l = Some (OEProbs m) ->
    (forall kv, kv ∈ pre -> kv.1 <> EmptyString) ->
    EProbs_UnmarshalJSON (Some (pre ++ (EmptyString, v) :: post)) ep σ =
      (Panicked RuntimeIndex, <[l := OEProbs (merged m pre)]> σ).
Proof.
  split; [reflexivity|].
  intros l m pre v post -> Hl Hpre. unfold EProbs_UnmarshalJSON.
  erewrite bind_ok; [|reflexivity].
  apply bind_panicked. rewrite for_each_app.
  rewrite (UnmarshalJSON_loop l pre σ m Hl Hpre). reflexivity.
Qed.

Lemma EProbs_UnmarshalJSON_failures_witness :
  exists σ',
    EProbs_UnmarshalJSON (Some [("C"%string, 9%float); (EmptyString, 1%float)])
      (Some 2%positive) ex_heap = (Panicked RuntimeIndex, σ') /\
    eprobs_at σ' (Some 2%positive) !! "C"%char = Some 9%float /\
    eprobs_at ex_heap (Some 2%positive) !! "C"%char = Some 2%float.
Proof.
  destruct (EProbs_UnmarshalJSON_failures ex_heap (Some 2%positive)) as [_ Hpanic].
  eexists. split.
  - apply (Hpanic 2%positive _ [("C"%string, 9%float)] 1%float [] eq_refl eq_refl).
    intros kv Hin. apply list_elem_of_singleton in Hin as ->. discriminate.
  - split; reflexivity.
Defined.

(** ** NewHMM *)

Lemma take_drop_alter {A} (f : A -> A) (a : list A) (off len i : nat) :
  (i < len)%nat ->
  take len (drop off (alter f (off + i)%nat a)) = alter f i (take len (drop off a)).
Proof.
  intros Hi. apply list_eq. intros j.
  destruct (decide (j < len)%nat) as [Hj|Hj].
  - rewrite lookup_take_lt, lookup_drop by lia.
    destruct (decide (i = j)) as [->|Hne].
    + by rewrite !list_lookup_alter_eq, lookup_take_lt, lookup_drop by lia.
    + rewrite !list_lookup_alter_ne by lia. by rewrite lookup_take_lt, lookup_drop by lia.
  - rewrite lookup_take_ge by lia.
    rewrite list_lookup_alter_ne by lia. by rewrite lookup_take_ge by lia.
Qed.

(** X22. [NewHMM] makes one new HMM object and copies no node: the HMM
    holds the slice it was given, array and all, so that an assignment to a
    node through the caller's slice after the call shows in the nodes of
    the HMM. *)
Theorem NewHMM_shares_nodes (σ : Heap) (nodes : NodeSlice) (alphabet : Alphabet) (null : ref)
    (i : Z) (f : HMMNode -> HMMNode) :
  wf_slice σ nodes -> 0 <= i < Z.of_nat (s_len nodes) ->
  exists l h σ1 σ2,
    NewHMM nodes alphabet null σ = (Ok (Some l), σ1) /\
    σ !! l = None /\ σ1 !! l = Some (OHMM h) /\
    (forall k, k <> l -> σ1 !! k = σ !! k) /\
    HMM_Nodes h = nodes /\ HMM_Alphabet h = alphabet /\ HMM_Null h = null /\
    nodes_at σ1 (HMM_Nodes h) = nodes_at σ nodes /\
    update_node nodes i f σ1 = (Ok tt, σ2) /\
    σ2 !! l = Some (OHMM h) /\
    nodes_at σ2 (HMM_Nodes h) = alter f (Z.to_nat i) (nodes_at σ nodes).
Proof.
  intros (a & Ha & Hlen & Hcap) Hi.
  assert (Hl : σ !! fresh (dom σ) = None) by apply fresh_lookup_None.
  assert (Hne : fresh (dom σ) <> s_arr nodes) by congruence.
  assert (Ha1 : <[fresh (dom σ) := OHMM (mkHMM nodes alphabet null)]> σ !! s_arr nodes =
                Some (ONodes a)) by (by rewrite lookup_insert_ne).
  eexists (fresh (dom σ)), (mkHMM nodes alphabet null), _, _.
  split; [reflexivity|]. split; [exact Hl|]. split; [apply lookup_insert_eq|].
  split; [intros k Hk; by rewrite lookup_insert_ne|].
  do 3 (split; [reflexivity|]).
  split; [unfold nodes_at; simpl; by rewrite Ha1, Ha|].
  split; [by apply update_node_run|].
  split; [rewrite lookup_insert_ne by done; apply lookup_insert_eq|].
  unfold nodes_at. simpl. rewrite lookup_insert_eq, Ha.
  apply take_drop_alter. lia.
Qed.

Lemma NewHMM_shares_nodes_witness :
  exists l h σ1 σ2,
    NewHMM (mkNodeSlice 4 0 2 3) ["A"; "C"]%char None ex_heap = (Ok (Some l), σ1) /\
    update_node (mkNodeSlice 4 0 2 3) 1 force_last σ1 = (Ok tt, σ2) /\
    σ2 !! l = Some (OHMM h) /\
    nodes_at σ2 (HMM_Nodes h) = [ex_node 1 "A" 2; force_last (ex_node 2 "C" 3)].
Proof.
  destruct (NewHMM_shares_nodes ex_heap (mkNodeSlice 4 0 2 3) ["A"; "C"]%char None 1 force_last
              ex_heap_wf ltac:(simpl; lia))
    as (l & h & σ1 & σ2 & Run & _ & _ & _ & _ & _ & _ & _ & Hupd & Hl & Hnodes).
  exists l, h, σ1, σ2. split; [exact Run|]. split; [exact Hupd|]. split; [exact Hl|].
  rewrite Hnodes. reflexivity.
Defined.
